(** * K-space trajectory synthesis: a shallow embedding

    The repository holds four Python programs:
    - [LUT_1D_Cartesian.py] (a script) and [cartesian1Dtrajectory.py]
      (the same pipeline as a function): Gaussian density, discretisation
      balancer, zigzag assembly, Monte-Carlo filling estimate;
    - [exLUT_3D_radialTrajectory.py]: golden-angle pseudo-radial spokes;
    - [exLUT_3D_spiralTrajectory.py]: golden-angle pseudo-spiral arms.

    Integer data ([int], numpy [int64] far from its bounds) is [Z]; numpy
    arrays and Python lists are [list]; [float64] is Rocq's primitive
    binary64 [float]; a Python exception is an error value. *)

From Stdlib Require Import ZArith Lia Bool Floats QArith Qround Lqa Ascii.
From stdpp Require Import base tactics option list strings gmap.

Local Open Scope Z_scope.
Set Warnings "-inexact-float,-abstract-large-number,-clear-no-such-hyp".

(** ** Python and numpy primitives *)

Module Py.

(** [np.sum] of an integer vector. *)
Definition np_sum (v : list Z) : Z := foldr Z.add 0 v.

(** [np.where(v == x)[0]]: the ascending positions holding [x]. *)
Fixpoint where_eq_from (i : nat) (v : list Z) (x : Z) : list nat :=
  match v with
  | [] => []
  | y :: t => if y =? x then i :: where_eq_from (S i) t x
              else where_eq_from (S i) t x
  end.

Definition np_where_eq (v : list Z) (x : Z) : list nat := where_eq_from 0 v x.

(** [loc[-1]] of a non-empty index vector [i :: rest]. *)
Definition last_of (i : nat) (rest : list nat) : nat := List.last rest i.

(** Number of elements of [range(start, stop, step)], as CPython counts
    them; [step = 0] raises there and gives the empty range here. *)
Definition py_range_len (start stop step : Z) : Z :=
  if 0 <? step then
    (if start <? stop then (stop - start - 1) / step + 1 else 0)
  else if step <? 0 then
    (if stop <? start then (start - stop - 1) / (- step) + 1 else 0)
  else 0.

(** [range(start, stop, step)]. *)
Definition py_range (start stop step : Z) : list Z :=
  (fun i : nat => start + Z.of_nat i * step)
    <$> seq 0 (Z.to_nat (py_range_len start stop step)).

(** [l[i]] with Python's negative indices; [None] is [IndexError]. *)
Definition py_get {A : Type} (l : list A) (i : Z) : option A :=
  let len := Z.of_nat (length l) in
  if 0 <=? i then l !! Z.to_nat i
  else if 0 <=? len + i then l !! Z.to_nat (len + i)
  else None.

(** A slice bound as Python clips it to a sequence of length [len]. *)
Definition slice_norm (len i : Z) : Z :=
  if i <? 0 then Z.max 0 (i + len) else Z.min i len.

(** [a[lo:hi] = v] on a numpy array: the scalar [v] is written to the
    positions of the clipped slice; nothing is written when it is empty. *)
Definition slice_assign (a : list Z) (lo hi v : Z) : list Z :=
  let len := Z.of_nat (length a) in
  let lo' := slice_norm len lo in
  let hi' := slice_norm len hi in
  take (Z.to_nat lo') a ++ replicate (Z.to_nat (hi' - lo')) v
    ++ drop (Z.to_nat (Z.max lo' hi')) a.

(** [[x] * n]: a Python list repeated; empty for [n <= 0]. *)
Definition py_repeat (x : Z) (n : Z) : list Z := replicate (Z.to_nat n) x.

Lemma np_sum_app (u v : list Z) : np_sum (u ++ v) = np_sum u + np_sum v.
Proof. induction u as [|x u IH]; simpl; lia. Qed.

Lemma np_sum_insert (v : list Z) (i : nat) (x y : Z) :
  v !! i = Some x -> np_sum (<[i:=y]> v) = np_sum v - x + y.
Proof.
  revert i. induction v as [|a v IH]; intros [|i] H; simpl in *; try discriminate.
  - injection H as ->. lia.
  - rewrite (IH i H). lia.
Qed.

Lemma where_eq_from_spec (v : list Z) (x : Z) (i j : nat) :
  j ∈ where_eq_from i v x <-> exists k : nat, j = (i + k)%nat /\ v !! k = Some x.
Proof.
  revert i. induction v as [|y v IH]; intros i; simpl.
  - split; [intros H; inversion H | intros (k & _ & H); discriminate].
  - destruct (Z.eqb_spec y x) as [->|Hne].
    + rewrite elem_of_cons, IH. split.
      * intros [->|(k & -> & Hk)].
        -- exists 0%nat. split; [lia|reflexivity].
        -- exists (S k). split; [lia|exact Hk].
      * intros ([|k] & -> & Hk).
        -- left. lia.
        -- right. exists k. split; [lia|exact Hk].
    + rewrite IH. split.
      * intros (k & -> & Hk). exists (S k). split; [lia|exact Hk].
      * intros ([|k] & -> & Hk).
        -- simpl in Hk. congruence.
        -- exists k. split; [lia|exact Hk].
Qed.

Lemma np_where_eq_spec (v : list Z) (x : Z) (j : nat) :
  j ∈ np_where_eq v x <-> v !! j = Some x.
Proof.
  unfold np_where_eq. rewrite where_eq_from_spec. split.
  - intros (k & -> & H). exact H.
  - intros H. exists j. split; [lia|exact H].
Qed.

Lemma last_cons_default (b : nat) (l : list nat) (d d' : nat) :
  List.last (b :: l) d = List.last (b :: l) d'.
Proof.
  revert b. induction l as [|c l IH]; intros b; [reflexivity|].
  change (List.last (c :: l) d = List.last (c :: l) d'). apply IH.
Qed.

Lemma last_of_elem (i : nat) (rest : list nat) : last_of i rest ∈ i :: rest.
Proof.
  unfold last_of. revert i. induction rest as [|a rest IH]; intros i.
  - simpl. left.
  - right. destruct rest as [|b rest]; [simpl; left|].
    change (List.last (b :: rest) i ∈ a :: b :: rest).
    rewrite (last_cons_default b rest i a). apply IH.
Qed.

(** Zeroing a position that holds [x <> 0] removes exactly one hit of
    [np.where(v == x)]. *)
Lemma where_eq_from_zeroed (v : list Z) (x : Z) (i k : nat) :
  x <> 0 -> v !! k = Some x ->
  length (where_eq_from i (<[k:=0]> v) x) = pred (length (where_eq_from i v x)).
Proof.
  intros Hx. revert i k. induction v as [|y v IH]; intros i [|k] H;
    cbn -[Z.eqb] in *; try discriminate.
  - injection H as ->. rewrite Z.eqb_refl.
    destruct (Z.eqb_spec 0 x); [congruence|reflexivity].
  - specialize (IH (S i) k H).
    assert (Hin : (S i + k)%nat ∈ where_eq_from (S i) v x).
    { apply where_eq_from_spec. exists k. split; [reflexivity|exact H]. }
    destruct (y =? x); [|exact IH].
    destruct (where_eq_from (S i) v x); [inversion Hin|].
    simpl in *. f_equal. exact IH.
Qed.

End Py.

(** ** The discretisation balancer: trimming loop

    [LUT_1D_Cartesian.py] lines 56-65 and [cartesian1Dtrajectory.py]
    lines 75-81:
<<
    pm = True
    while np.sum(df) > extraLines:
        loc = np.where(df == 1)[0]
        if len(loc) == 0:
            break
        if pm: df[loc[0]] = 0
        else:  df[loc[-1]] = 0
        pm = not pm
>> *)

Module Trim.
Import Py.

(** How the [while] was left: its condition became false, or [break]. *)
Inductive trim_exit := SumReached | SafetyBreak.

(** The loop test and one run of the body: the way out when the loop is
    left, else the new [df] and [pm]. *)
Definition trim_step (E : Z) (df : list Z) (pm : bool)
  : trim_exit + list Z * bool :=
  if E <? np_sum df then
    match np_where_eq df 1 with
    | [] => inl SafetyBreak
    | i :: rest => inr (<[(if pm then i else last_of i rest) := 0]> df, negb pm)
    end
  else inl SumReached.

Record trim_result := TrimResult
  { trimmed : list Z;      (* [df] when the loop is left *)
    iterations : nat;      (* how often the body ran *)
    how : trim_exit }.

(** The loop, with [n] counting the completed iterations. *)
Fixpoint trim_loop (fuel : nat) (E : Z) (df : list Z) (pm : bool) (n : nat)
  : option trim_result :=
  match fuel with
  | O => None
  | S fuel' =>
      match trim_step E df pm with
      | inl e => Some (TrimResult df n e)
      | inr (df', pm') => trim_loop fuel' E df' pm' (S n)
      end
  end.

(** Entries equal to 1: the candidates of [np.where(df == 1)]. *)
Definition count_ones (df : list Z) : nat := length (np_where_eq df 1).

(** Enough fuel for every input: each iteration uses up one candidate. *)
Definition trim (E : Z) (df : list Z) : option trim_result :=
  trim_loop (S (length df)) E df true 0.

Lemma count_ones_le_length (df : list Z) : (count_ones df <= length df)%nat.
Proof.
  unfold count_ones, np_where_eq. generalize 0%nat.
  induction df as [|y df IH]; intros i; simpl; [lia|].
  destruct (y =? 1); simpl; specialize (IH (S i)); lia.
Qed.

Lemma count_ones_zero (df : list Z) :
  count_ones df = 0%nat <-> forall i : nat, df !! i <> Some 1.
Proof.
  unfold count_ones. split.
  - intros H i Hi. apply np_where_eq_spec in Hi.
    destruct (np_where_eq df 1); [inversion Hi|discriminate].
  - intros H. destruct (np_where_eq df 1) as [|j l] eqn:Hl; [reflexivity|].
    exfalso. apply (H j). apply np_where_eq_spec. rewrite Hl. left.
Qed.

(** What one iteration does. *)
Lemma trim_step_body (E : Z) (df df' : list Z) (pm pm' : bool) :
  trim_step E df pm = inr (df', pm') ->
  exists i : nat,
    df !! i = Some 1 /\ df' = <[i:=0]> df /\ pm' = negb pm /\
    E < np_sum df /\ np_sum df' = np_sum df - 1 /\
    count_ones df' = pred (count_ones df).
Proof.
  unfold trim_step. destruct (Z.ltb_spec E (np_sum df)) as [Hlt|]; [|discriminate].
  destruct (np_where_eq df 1) as [|i rest] eqn:Hloc; [discriminate|].
  intros [= <- <-].
  set (j := if pm then i else last_of i rest).
  assert (Hj : df !! j = Some 1).
  { apply np_where_eq_spec. rewrite Hloc. subst j.
    destruct pm; [left | apply last_of_elem]. }
  exists j. repeat split; try assumption.
  - rewrite (np_sum_insert df j 1 0 Hj). lia.
  - unfold count_ones, np_where_eq. apply where_eq_from_zeroed; [lia|exact Hj].
Qed.

Lemma trim_step_exit (E : Z) (df : list Z) (pm : bool) (e : trim_exit) :
  trim_step E df pm = inl e ->
  match e with
  | SumReached => np_sum df <= E
  | SafetyBreak => E < np_sum df /\ count_ones df = 0%nat
  end.
Proof.
  unfold trim_step. destruct (Z.ltb_spec E (np_sum df)) as [Hlt|Hge].
  - destruct (np_where_eq df 1) as [|i rest] eqn:Hloc; [|discriminate].
    intros [= <-]. split; [exact Hlt|]. unfold count_ones. now rewrite Hloc.
  - intros [= <-]. exact Hge.
Qed.

Lemma insert_zero_nonneg (df : list Z) (i : nat) :
  Forall (fun x => 0 <= x) df -> Forall (fun x => 0 <= x) (<[i:=0]> df).
Proof. intros H. apply Forall_insert; [exact H|lia]. Qed.

(** The loop invariant, run to the end. *)
Lemma trim_loop_spec (fuel : nat) (E : Z) : forall (df : list Z) (pm : bool) (n : nat),
  (count_ones df < fuel)%nat ->
  exists r : trim_result,
    trim_loop fuel E df pm n = Some r /\
    length (trimmed r) = length df /\
    Z.of_nat (iterations r) - Z.of_nat n = np_sum df - np_sum (trimmed r) /\
    (n <= iterations r <= n + count_ones df)%nat /\
    (E <= np_sum df -> E <= np_sum (trimmed r)) /\
    (Forall (fun x => 0 <= x) df -> Forall (fun x => 0 <= x) (trimmed r)) /\
    match how r with
    | SumReached => np_sum (trimmed r) <= E
    | SafetyBreak => E < np_sum (trimmed r) /\ count_ones (trimmed r) = 0%nat
    end.
Proof.
  induction fuel as [|fuel IH]; intros df pm n Hfuel; [lia|].
  simpl. destruct (trim_step E df pm) as [e|[df' pm']] eqn:Hstep.
  - eexists. split; [reflexivity|]. simpl.
    repeat split; try lia; try tauto. exact (trim_step_exit _ _ _ _ Hstep).
  - destruct (trim_step_body _ _ _ _ _ Hstep)
      as (i & Hi & -> & -> & Hlt & Hsum & Hcnt).
    assert (Hpos : (0 < count_ones df)%nat).
    { destruct (count_ones df) eqn:H0; [|lia].
      exfalso. exact (proj1 (count_ones_zero df) H0 i Hi). }
    destruct (IH (<[i:=0]> df) (negb pm) (S n)) as (r & Hr & Hlen & Hit & Hbd & Hge & Hnn & Hhow);
      [lia|].
    exists r. split; [exact Hr|].
    rewrite length_insert in Hlen.
    repeat split; try lia.
    + intros H. apply Hnn. now apply insert_zero_nonneg.
    + exact Hhow.
Qed.

(** A property of the entries that 0 has survives the loop. *)
Lemma trim_loop_preserves (P : Z -> Prop) (fuel : nat) (E : Z) :
  P 0 ->
  forall (df : list Z) (pm : bool) (n : nat) (r : trim_result),
    Forall P df -> trim_loop fuel E df pm n = Some r -> Forall P (trimmed r).
Proof.
  intros H0. induction fuel as [|fuel IH]; intros df pm n r Hdf; simpl; [discriminate|].
  destruct (trim_step E df pm) as [e|[df' pm']] eqn:Hstep.
  - intros [= <-]. exact Hdf.
  - destruct (trim_step_body _ _ _ _ _ Hstep) as (i & _ & -> & _).
    apply IH. apply Forall_insert; assumption.
Qed.

(** Every pass uses up one entry equal to 1. *)
Lemma trim_loop_ones (fuel : nat) (E : Z) :
  forall (df : list Z) (pm : bool) (n : nat) (r : trim_result),
    trim_loop fuel E df pm n = Some r ->
    (count_ones (trimmed r) + iterations r = count_ones df + n)%nat.
Proof.
  induction fuel as [|fuel IH]; intros df pm n r; simpl; [discriminate|].
  destruct (trim_step E df pm) as [e|[df' pm']] eqn:Hstep.
  - intros [= <-]. reflexivity.
  - destruct (trim_step_body _ _ _ _ _ Hstep) as (i & Hi & _ & _ & _ & _ & Hcnt).
    assert (Hpos : (0 < count_ones df)%nat).
    { destruct (count_ones df) eqn:H0; [|lia].
      exfalso. exact (proj1 (count_ones_zero df) H0 i Hi). }
    intros Hr. specialize (IH _ _ _ _ Hr). lia.
Qed.

(** Entries that are not negative and sum to at most 0 are all 0. *)
Lemma np_sum_nonneg_zero (l : list Z) :
  Forall (fun x => 0 <= x) l -> np_sum l <= 0 -> l = replicate (length l) 0.
Proof.
  induction 1 as [|x l Hx Hl IH]; simpl; [reflexivity|].
  assert (0 <= np_sum l).
  { clear IH. induction Hl as [|y l' Hy _ IH']; simpl; lia. }
  intros Hs. rewrite <- IH by lia. f_equal. lia.
Qed.

(** Entries 0 or 1 with no 1 among them are all 0. *)
Lemma no_ones_zero (l : list Z) :
  Forall (fun x => 0 <= x <= 1) l -> count_ones l = 0%nat ->
  l = replicate (length l) 0.
Proof.
  intros Hl H1. rewrite count_ones_zero in H1.
  apply list_eq. intros i. destruct (l !! i) as [x|] eqn:Hi.
  - rewrite lookup_replicate_2 by (apply lookup_lt_Some in Hi; exact Hi).
    rewrite Forall_lookup in Hl. specialize (Hl i x Hi). simpl in Hl.
    specialize (H1 i). f_equal.
    destruct (Z.eq_dec x 1) as [->|]; [contradiction|lia].
  - symmetry. apply lookup_ge_None. rewrite length_replicate.
    apply lookup_ge_None in Hi. exact Hi.
Qed.

End Trim.

(** ** The zigzag assembler

    The script ([LUT_1D_Cartesian.py] lines 67-78) grows a list:
<<
    d = 1 + df
    traj = []
    for i in range(0, targetKspaceSize, 2):
        traj.extend([i + 1] * d[i])
    for i in range(targetKspaceSize - 1, 0, -2):
        traj.extend([i + 1] * d[i])
    traj = np.array(traj) - targetKspaceSize // 2 - 1
>>
    The function ([cartesian1Dtrajectory.py] lines 83-95) fills an array
    allocated beforehand:
<<
    d_int = 1 + df
    traj = np.empty(trajectory_length, dtype=int)
    cnt = 0
    for k_idx in range(1, target_kspace_size + 1, 2):
        traj[cnt : cnt + d_int[k_idx - 1]] = k_idx
        cnt += d_int[k_idx - 1]
    for k_idx in range(target_kspace_size, 1, -2):
        traj[cnt : cnt + d_int[k_idx - 1]] = k_idx
        cnt += d_int[k_idx - 1]
    traj = traj - target_kspace_size / 2 - 1
>> *)

Module Zigzag.
Import Py.

(** [d = 1 + df]. *)
Definition one_plus (df : list Z) : list Z := Z.add 1 <$> df.

(** Body of the script's loops: [traj.extend([i + 1] * d[i])]. *)
Definition extend_line (d : list Z) (acc : option (list Z)) (i : Z)
  : option (list Z) :=
  match acc, py_get d i with
  | Some traj, Some n => Some (traj ++ py_repeat (i + 1) n)
  | _, _ => None
  end.

Definition zigzag_script (N : Z) (d : list Z) : option (list Z) :=
  let up := foldl (extend_line d) (Some []) (py_range 0 N 2) in
  match foldl (extend_line d) up (py_range (N - 1) 0 (-2)) with
  | Some traj => Some ((fun x => x - N / 2 - 1) <$> traj)
  | None => None
  end.

(** Body of the function's loops, on the pair of [traj] and [cnt]. *)
Definition place_line (d_int : list Z) (st : option (list Z * Z)) (k_idx : Z)
  : option (list Z * Z) :=
  match st, py_get d_int (k_idx - 1) with
  | Some (traj, cnt), Some n =>
      Some (slice_assign traj cnt (cnt + n) k_idx, cnt + n)
  | _, _ => None
  end.

(** [uninit] is what [np.empty(trajectory_length)] happens to hold. The
    last line subtracts in floating point; the values are whole numbers
    (the size is even), kept here as integers. *)
Definition zigzag_function (N : Z) (uninit : list Z) (d_int : list Z)
  : option (list Z) :=
  let up := foldl (place_line d_int) (Some (uninit, 0)) (py_range 1 (N + 1) 2) in
  match foldl (place_line d_int) up (py_range N 1 (-2)) with
  | Some (traj, _) => Some ((fun x => x - N / 2 - 1) <$> traj)
  | None => None
  end.

(** *** The order as the specification words it *)

(** Lines 1, 3, ..., N-1. *)
Definition odd_lines_up (N : Z) : list Z :=
  (fun j : nat => 2 * Z.of_nat j + 1) <$> seq 0 (Z.to_nat (N / 2)).

(** Lines N, N-2, ..., 2. *)
Definition even_lines_down (N : Z) : list Z :=
  (fun j : nat => N - 2 * Z.of_nat j) <$> seq 0 (Z.to_nat (N / 2)).

(** [1 + r[k]] copies of line [k] ([k] counts from 1). *)
Definition copies (r : list Z) (k : Z) : list Z :=
  replicate (Z.to_nat (1 + default 0 (r !! Z.to_nat (k - 1)))) k.

Definition zigzag_spec (N : Z) (r : list Z) : list Z :=
  (fun k => k - (N / 2 + 1))
    <$> ((odd_lines_up N ≫= copies r) ++ (even_lines_down N ≫= copies r)).

(** *** The ranges of the four loops *)

Lemma py_range_fmap (start stop step : Z) (m : nat) :
  py_range_len start stop step = Z.of_nat m ->
  py_range start stop step = (fun i : nat => start + Z.of_nat i * step) <$> seq 0 m.
Proof. intros H. unfold py_range. now rewrite H, Nat2Z.id. Qed.

(** A positive even size is twice a positive count of line pairs. *)
Lemma even_size (N : Z) :
  0 < N -> N mod 2 = 0 ->
  exists m : nat, N = 2 * Z.of_nat m /\ Z.to_nat (N / 2) = m /\ (0 < m)%nat.
Proof.
  intros Hpos Hev. exists (Z.to_nat (N / 2)).
  pose proof (Z.div_mod N 2 ltac:(lia)) as Hdm. rewrite Hev in Hdm.
  split; [|split]; [rewrite Z2Nat.id; lia | reflexivity | lia].
Qed.

Lemma range_len_up (m : nat) (a : Z) :
  (0 < m)%nat -> py_range_len a (a + 2 * Z.of_nat m) 2 = Z.of_nat m.
Proof.
  intros Hm. unfold py_range_len.
  destruct (Z.ltb_spec 0 2); [|lia].
  destruct (Z.ltb_spec a (a + 2 * Z.of_nat m)); [|lia].
  replace (a + 2 * Z.of_nat m - a - 1) with (1 + (Z.of_nat m - 1) * 2) by lia.
  rewrite Z.div_add by lia. rewrite (Z.div_small 1 2) by lia. lia.
Qed.

Lemma range_len_down (m : nat) (b : Z) :
  (0 < m)%nat -> py_range_len (b + 2 * Z.of_nat m - 1) b (-2) = Z.of_nat m.
Proof.
  intros Hm. unfold py_range_len.
  destruct (Z.ltb_spec 0 (-2)); [lia|].
  destruct (Z.ltb_spec (-2) 0); [|lia].
  destruct (Z.ltb_spec b (b + 2 * Z.of_nat m - 1)); [|lia].
  replace (b + 2 * Z.of_nat m - 1 - b - 1) with ((Z.of_nat m - 1) * 2) by lia.
  replace (- -2) with 2 by lia. rewrite Z.div_mul by lia. lia.
Qed.

Lemma py_get_nonneg {A : Type} (l : list A) (i : Z) :
  0 <= i -> py_get l i = l !! Z.to_nat i.
Proof. intros H. unfold py_get. destruct (Z.leb_spec 0 i); [reflexivity|lia]. Qed.

(** *** The script's loops *)

Lemma foldl_extend_none (d : list Z) (lines : list Z) :
  foldl (extend_line d) None lines = None.
Proof. induction lines as [|i lines IH]; [reflexivity|exact IH]. Qed.

Lemma foldl_extend (r : list Z) (f : nat -> Z) (js : list nat) (acc : list Z) :
  (forall j : nat, j ∈ js -> 0 <= f j < Z.of_nat (length r)) ->
  foldl (extend_line (one_plus r)) (Some acc) (f <$> js)
  = Some (acc ++ (js ≫= fun j => copies r (f j + 1))).
Proof.
  revert acc. induction js as [|j js IH]; intros acc Hin.
  - simpl. now rewrite app_nil_r.
  - rewrite fmap_cons, bind_cons, app_assoc.
    assert (Hj : 0 <= f j < Z.of_nat (length r)) by (apply Hin; left).
    destruct (lookup_lt_is_Some_2 r (Z.to_nat (f j)) ltac:(lia)) as [x Hx].
    assert (Hstep : extend_line (one_plus r) (Some acc) (f j)
                    = Some (acc ++ copies r (f j + 1))).
    { unfold extend_line. rewrite py_get_nonneg by lia.
      unfold one_plus. rewrite list_lookup_fmap, Hx.
      unfold copies, py_repeat. replace (f j + 1 - 1) with (f j) by lia.
      now rewrite Hx. }
    change (foldl (extend_line (one_plus r))
              (extend_line (one_plus r) (Some acc) (f j)) (f <$> js) = 
            Some ((acc ++ copies r (f j + 1)) ++ js ≫= (fun j => copies r (f j + 1)))).
    rewrite Hstep. apply IH. intros j' Hj'. apply Hin. now right.
Qed.

(** The script's order is the specified one. *)
Lemma zigzag_script_spec (N : Z) (r : list Z) :
  0 < N -> N mod 2 = 0 -> Z.of_nat (length r) = N ->
  zigzag_script N (one_plus r) = Some (zigzag_spec N r).
Proof.
  intros Hpos Hev Hlen.
  destruct (even_size N Hpos Hev) as (m & HN & Hm & Hm0).
  unfold zigzag_script, zigzag_spec, odd_lines_up, even_lines_down.
  rewrite Hm.
  rewrite (py_range_fmap 0 N 2 m)
    by (rewrite HN; apply (range_len_up m 0 Hm0)).
  rewrite foldl_extend
    by (intros j Hj; apply elem_of_seq in Hj; lia).
  rewrite (py_range_fmap (N - 1) 0 (-2) m)
    by (replace (N - 1) with (0 + 2 * Z.of_nat m - 1) by lia;
        apply (range_len_down m 0 Hm0)).
  rewrite foldl_extend
    by (intros j Hj; apply elem_of_seq in Hj; lia).
  rewrite !list_fmap_bind, app_nil_l. f_equal.
  rewrite (list_bind_ext (copies r ∘ (fun j : nat => 2 * Z.of_nat j + 1))
             (fun j : nat => copies r (0 + Z.of_nat j * 2 + 1)) (seq 0 m) (seq 0 m))
    by (try reflexivity; intros j; simpl; f_equal; lia).
  rewrite (list_bind_ext (copies r ∘ (fun j : nat => N - 2 * Z.of_nat j))
             (fun j : nat => copies r (N - 1 + Z.of_nat j * -2 + 1)) (seq 0 m) (seq 0 m))
    by (try reflexivity; intros j; simpl; f_equal; lia).
  apply list_fmap_ext. intros _ x _. lia.
Qed.

(** *** The function's loops *)

(** The array once the lines [w] are written from its start: what fits of
    [w], then what is left of the array's first content. *)
Definition filled (uninit w : list Z) : list Z :=
  take (length uninit) (w ++ drop (length w) uninit).

Lemma length_filled (uninit w : list Z) : length (filled uninit w) = length uninit.
Proof.
  unfold filled. rewrite length_take, length_app, length_drop. lia.
Qed.

Lemma filled_nil (uninit : list Z) : filled uninit [] = uninit.
Proof. unfold filled. rewrite app_nil_l, drop_0. now apply take_ge. Qed.

Lemma slice_assign_filled (uninit w : list Z) (n v : Z) :
  0 <= n ->
  slice_assign (filled uninit w) (Z.of_nat (length w)) (Z.of_nat (length w) + n) v
  = filled uninit (w ++ replicate (Z.to_nat n) v).
Proof.
  intros Hn. unfold slice_assign. rewrite length_filled.
  unfold slice_norm.
  destruct (Z.ltb_spec (Z.of_nat (length w)) 0); [lia|].
  destruct (Z.ltb_spec (Z.of_nat (length w) + n) 0); [lia|].
  unfold filled.
  rewrite length_app, length_replicate, <- app_assoc.
  destruct (Nat.le_gt_cases (length uninit) (length w)) as [Hle|Hgt].
  - (* the array is already full *)
    rewrite !Z.min_r by lia. rewrite Z.max_id, Z.sub_diag, Nat2Z.id. simpl.
    rewrite take_drop.
    rewrite !take_app_le by lia. reflexivity.
  - assert (Ha : take (length uninit) (w ++ drop (length w) uninit)
                 = w ++ drop (length w) uninit).
    { apply take_ge. rewrite length_app, length_drop. lia. }
    rewrite Ha, Z.min_l by lia. rewrite Nat2Z.id.
    rewrite take_app_length.
    destruct (Z.le_gt_cases (Z.of_nat (length w) + n) (Z.of_nat (length uninit)))
      as [Hfit|Hover].
    + rewrite Z.min_l, Z.max_r by lia.
      replace (Z.of_nat (length w) + n - Z.of_nat (length w)) with n by lia.
      replace (Z.to_nat (Z.of_nat (length w) + n))
        with (length w + Z.to_nat n)%nat by lia.
      rewrite drop_app_add, drop_drop.
      symmetry. apply take_ge.
      rewrite !length_app, length_replicate, length_drop. lia.
    + rewrite Z.min_r, Z.max_r by lia. rewrite Nat2Z.id.
      rewrite (drop_ge (w ++ drop (length w) uninit))
        by (rewrite length_app, length_drop; lia).
      rewrite app_nil_r.
      replace (length uninit) with (length w + (length uninit - length w))%nat
        at 2 by lia.
      rewrite take_app_add.
      rewrite take_app_le by (rewrite length_replicate; lia).
      rewrite take_replicate. do 2 f_equal. lia.
Qed.

Lemma foldl_place_none (d : list Z) (lines : list Z) :
  foldl (place_line d) None lines = None.
Proof. induction lines as [|i lines IH]; [reflexivity|exact IH]. Qed.

Lemma foldl_place (r uninit : list Z) (f : nat -> Z) (js : list nat) (w : list Z) :
  Forall (fun x => 0 <= x) r ->
  (forall j : nat, j ∈ js -> 1 <= f j <= Z.of_nat (length r)) ->
  exists w' : list Z,
    w' = w ++ (js ≫= fun j => copies r (f j)) /\
    foldl (place_line (one_plus r)) (Some (filled uninit w, Z.of_nat (length w)))
      (f <$> js)
    = Some (filled uninit w', Z.of_nat (length w')).
Proof.
  intros Hnn. revert w. induction js as [|j js IH]; intros w Hin.
  - exists w. simpl. now rewrite app_nil_r.
  - assert (Hj : 1 <= f j <= Z.of_nat (length r)) by (apply Hin; left).
    destruct (lookup_lt_is_Some_2 r (Z.to_nat (f j - 1)) ltac:(lia)) as [x Hx].
    assert (Hx0 : 0 <= x).
    { rewrite Forall_lookup in Hnn. exact (Hnn _ _ Hx). }
    assert (Hstep : place_line (one_plus r)
                      (Some (filled uninit w, Z.of_nat (length w))) (f j)
                    = Some (filled uninit (w ++ copies r (f j)),
                            Z.of_nat (length (w ++ copies r (f j))))).
    { unfold place_line. rewrite py_get_nonneg by lia.
      unfold one_plus. rewrite list_lookup_fmap, Hx. simpl.
      rewrite slice_assign_filled by lia.
      unfold copies. rewrite Hx. simpl.
      rewrite length_app, length_replicate. do 2 f_equal. lia. }
    destruct (IH (w ++ copies r (f j))) as (w' & -> & Hw').
    { intros j' Hj'. apply Hin. now right. }
    eexists. split; [reflexivity|].
    rewrite fmap_cons, bind_cons, app_assoc.
    change (foldl (place_line (one_plus r))
              (place_line (one_plus r)
                 (Some (filled uninit w, Z.of_nat (length w))) (f j)) (f <$> js)
            = Some (filled uninit ((w ++ copies r (f j)) ++ js ≫= (fun j => copies r (f j))),
                    Z.of_nat (length ((w ++ copies r (f j)) ++ js ≫= (fun j => copies r (f j)))))).
    rewrite Hstep. exact Hw'.
Qed.

(** The function's array holds the first [trajectory_length] entries of
    the specified order. *)
Lemma zigzag_function_spec (N : Z) (r uninit : list Z) :
  0 < N -> N mod 2 = 0 -> Z.of_nat (length r) = N ->
  Forall (fun x => 0 <= x) r ->
  zigzag_function N uninit (one_plus r)
  = Some (take (length uninit)
            (zigzag_spec N r
               ++ ((fun x => x - N / 2 - 1) <$> drop (length (zigzag_spec N r)) uninit))).
Proof.
  intros Hpos Hev Hlen Hnn.
  destruct (even_size N Hpos Hev) as (m & HN & Hm & Hm0).
  unfold zigzag_function.
  rewrite (py_range_fmap 1 (N + 1) 2 m)
    by (replace (N + 1) with (1 + 2 * Z.of_nat m) by lia; apply (range_len_up m 1 Hm0)).
  rewrite (py_range_fmap N 1 (-2) m)
    by (replace N with (1 + 2 * Z.of_nat m - 1) at 1 by lia;
        apply (range_len_down m 1 Hm0)).
  destruct (foldl_place r uninit (fun i : nat => 1 + Z.of_nat i * 2) (seq 0 m) [] Hnn)
    as (w1 & Hw1 & Hf1).
  { intros j Hj. apply elem_of_seq in Hj. lia. }
  rewrite filled_nil in Hf1. change (Z.of_nat (length [])) with 0 in Hf1.
  rewrite Hf1.
  destruct (foldl_place r uninit (fun i : nat => N + Z.of_nat i * -2) (seq 0 m) w1 Hnn)
    as (w2 & Hw2 & Hf2).
  { intros j Hj. apply elem_of_seq in Hj. lia. }
  rewrite Hf2. f_equal.
  assert (Hspec : zigzag_spec N r = (fun x => x - N / 2 - 1) <$> w2).
  { unfold zigzag_spec, odd_lines_up, even_lines_down. rewrite Hm, Hw2, Hw1.
    rewrite !list_fmap_bind, app_nil_l.
    rewrite (list_bind_ext (copies r ∘ (fun j : nat => 2 * Z.of_nat j + 1))
               (fun j : nat => copies r (1 + Z.of_nat j * 2)) (seq 0 m) (seq 0 m))
      by (try reflexivity; intros j; simpl; f_equal; lia).
    rewrite (list_bind_ext (copies r ∘ (fun j : nat => N - 2 * Z.of_nat j))
               (fun j : nat => copies r (N + Z.of_nat j * -2)) (seq 0 m) (seq 0 m))
      by (try reflexivity; intros j; simpl; f_equal; lia).
    apply list_fmap_ext. intros _ x _. lia. }
  rewrite Hspec, length_fmap, <- fmap_app, <- fmap_take. reflexivity.
Qed.

(** *** Length and range of the specified order *)

Lemma even_lines_down_S (m : nat) :
  (fun j : nat => 2 * Z.of_nat (S m) - 2 * Z.of_nat j) <$> seq 0 (S m)
  = 2 * Z.of_nat (S m)
      :: ((fun j : nat => 2 * Z.of_nat m - 2 * Z.of_nat j) <$> seq 0 m).
Proof.
  simpl seq. rewrite fmap_cons. f_equal; try lia.
  rewrite <- fmap_S_seq, <- list_fmap_compose.
  apply list_fmap_ext. intros _ j _. simpl. lia.
Qed.

(** The zigzag visits every line 1..N once. *)
Lemma lines_Permutation (m : nat) :
  ((fun j : nat => 2 * Z.of_nat j + 1) <$> seq 0 m)
    ++ ((fun j : nat => 2 * Z.of_nat m - 2 * Z.of_nat j) <$> seq 0 m)
  ≡ₚ (fun i : nat => Z.of_nat i + 1) <$> seq 0 (2 * m).
Proof.
  induction m as [|m IH]; [reflexivity|].
  rewrite even_lines_down_S.
  replace (2 * S m)%nat with (S (S (2 * m))) by lia.
  rewrite (seq_S m 0), (seq_S (S (2 * m)) 0), (seq_S (2 * m) 0).
  rewrite !fmap_app, <- !app_assoc. simpl.
  rewrite <- IH, <- !app_assoc.
  apply Permutation_app_head.
  replace (2 * Z.of_nat m + 1) with (Z.of_nat (2 * m) + 1) by lia.
  replace (2 * Z.of_nat (S m)) with (Z.of_nat (S (2 * m)) + 1) by lia.
  set (a := Z.of_nat (2 * m) + 1). set (b := Z.of_nat (S (2 * m)) + 1).
  set (ev := (fun j : nat => 2 * Z.of_nat m - 2 * Z.of_nat j) <$> seq 0 m).
  change (a :: b :: ev ≡ₚ ev ++ [a; b]).
  change (a :: b :: ev) with ([a; b] ++ ev). apply Permutation_app_comm.
Qed.

Lemma length_bind_snoc {A B : Type} (f : A -> list B) (l : list A) (a : A) :
  length ((l ++ [a]) ≫= f) = (length (l ≫= f) + length (f a))%nat.
Proof. rewrite bind_app, length_app. simpl. now rewrite app_nil_r. Qed.

Lemma length_all_lines (r : list Z) :
  Forall (fun x => 0 <= x) r ->
  Z.of_nat (length (((fun i : nat => Z.of_nat i + 1) <$> seq 0 (length r)) ≫= copies r))
  = Z.of_nat (length r) + np_sum r.
Proof.
  induction r as [|x r IH] using rev_ind; intros Hnn; [reflexivity|].
  apply Forall_app in Hnn as [Hr Hx]. rewrite Forall_singleton in Hx.
  rewrite length_app. simpl length.
  replace (length r + 1)%nat with (S (length r)) by lia.
  rewrite seq_S, fmap_app. simpl. rewrite length_bind_snoc.
  rewrite np_sum_app. simpl. rewrite Nat2Z.inj_add.
  assert (Hsame : ((fun i : nat => Z.of_nat i + 1) <$> seq 0 (length r)) ≫= copies (r ++ [x])
                  = ((fun i : nat => Z.of_nat i + 1) <$> seq 0 (length r)) ≫= copies r).
  { apply Forall_bind_ext. apply Forall_fmap, Forall_forall.
    intros i Hi. apply elem_of_seq in Hi. simpl. unfold copies.
    replace (Z.of_nat i + 1 - 1) with (Z.of_nat i) by lia.
    rewrite Nat2Z.id, lookup_app_l by lia. reflexivity. }
  rewrite Hsame, (IH Hr). unfold copies.
  replace (Z.of_nat (length r) + 1 - 1) with (Z.of_nat (length r)) by lia.
  rewrite Nat2Z.id, list_lookup_middle by reflexivity. simpl.
  rewrite length_replicate. lia.
Qed.

Lemma length_zigzag_spec (N : Z) (r : list Z) :
  0 < N -> N mod 2 = 0 -> Z.of_nat (length r) = N ->
  Forall (fun x => 0 <= x) r ->
  Z.of_nat (length (zigzag_spec N r)) = N + np_sum r.
Proof.
  intros Hpos Hev Hlen Hnn.
  destruct (even_size N Hpos Hev) as (m & HN & Hm & Hm0).
  unfold zigzag_spec, odd_lines_up, even_lines_down.
  rewrite length_fmap, <- bind_app, Hm.
  replace ((fun j : nat => N - 2 * Z.of_nat j) <$> seq 0 m)
    with ((fun j : nat => 2 * Z.of_nat m - 2 * Z.of_nat j) <$> seq 0 m)
    by (apply list_fmap_ext; intros; lia).
  rewrite (Permutation_length (bind_Permutation (copies r) _ _ (lines_Permutation m))).
  replace (2 * m)%nat with (length r) by lia.
  rewrite length_all_lines by exact Hnn. lia.
Qed.

(** Every entry is a line 1..N moved down by N/2 + 1. *)
Lemma zigzag_spec_range (N : Z) (r : list Z) :
  0 < N -> N mod 2 = 0 ->
  Forall (fun x => - (N / 2) <= x <= N / 2 - 1) (zigzag_spec N r).
Proof.
  intros Hpos Hev.
  destruct (even_size N Hpos Hev) as (m & HN & Hm & Hm0).
  assert (Hhalf : N / 2 = Z.of_nat m) by lia.
  unfold zigzag_spec, odd_lines_up, even_lines_down. rewrite Hm.
  apply Forall_fmap, Forall_app. split; apply Forall_bind, Forall_fmap, Forall_forall;
    intros j Hj; apply elem_of_seq in Hj; simpl; unfold copies;
    apply Forall_replicate; unfold compose; lia.
Qed.

End Zigzag.

(** ** [float64] and the numpy functions applied to it

    Products, sums, quotients and square roots are the kernel's binary64
    operations, which round as numpy's do. [np.exp] is the C library's
    exponential: it is modelled by [np_exp], which evaluates the series in
    200-bit fixed point and rounds once to binary64 (the value a libm
    returns, up to its last bit). *)

Module F64.

(** [np.pi]. *)
Definition np_pi : float := 0x1.921fb54442d18p+1%float.

(** [float(z)] for an integer below 2^63 in size. *)
Definition of_Z (z : Z) : float :=
  match z with
  | Z0 => 0%float
  | Zpos _ => PrimFloat.of_uint63 (Uint63.of_Z z)
  | Zneg p => (- PrimFloat.of_uint63 (Uint63.of_Z (Zpos p)))%float
  end.

(** The integer nearest to [m * 2^e], halves going to the even side. For
    [e < 0] the quotient and the remainder by [2^(-e)] are a shift and a
    mask. *)
Definition round_half_even (m : positive) (e : Z) : Z :=
  if 0 <=? e then Z.shiftl (Zpos m) e
  else
    let q := Z.shiftr (Zpos m) (- e) in
    let rem := Z.land (Zpos m) (Z.ones (- e)) in
    let half := Z.shiftl 1 (- e - 1) in
    if rem <? half then q
    else if half <? rem then q + 1
    else if Z.even q then q else q + 1.

Definition int64_min : Z := - 2 ^ 63.

(** [np.round(x).astype(int)]: round half to even, then the cast to
    [int64], which yields the least [int64] for NaN, infinities and
    values out of range. *)
Definition np_round_int (x : float) : Z :=
  match Prim2SF x with
  | S754_zero _ => 0
  | S754_finite s m e =>
      let n := round_half_even m e in
      if n <? 2 ^ 63 then (if s then - n else n) else int64_min
  | _ => int64_min
  end.

(** Fraction bits of the fixed-point numbers below. *)
Definition bits : Z := 200.

(** [ln 2 * 2^bits], from the series [sum 1 / (k * 2^k)]. *)
Definition ln2_fix : Z :=
  Eval vm_compute in
    fold_left (fun acc k => acc + 2 ^ (bits + 16) / (Z.of_nat k * 2 ^ Z.of_nat k))
              (seq 1 230) 0 / 2 ^ 16.

(** [sum r^n / n!] over the first [terms] values of [n], in fixed point. *)
Fixpoint exp_series (terms : nat) (n : Z) (term acc r : Z) : Z :=
  match terms with
  | O => acc
  | S t => exp_series t (n + 1) (Z.shiftr (term * r) bits / (n + 1)) (acc + term) r
  end.

(** [np.exp]: [exp x = 2^k * exp r] with [x = k * ln 2 + r]. *)
Definition np_exp (x : float) : float :=
  match Prim2SF x with
  | S754_nan => nan
  | S754_infinity s => if s then 0%float else infinity
  | S754_zero _ => 1%float
  | S754_finite s m e =>
      if (710 <? x)%float then infinity
      else if (x <? -746)%float then 0%float
      else
        let mag := Z.shiftl (Zpos m) (bits + e) in
        let X := if s then - mag else mag in
        let k := (2 * X + ln2_fix) / (2 * ln2_fix) in
        let r := X - k * ln2_fix in
        let T := exp_series 60 0 (Z.shiftl 1 bits) 0 r in
        let sh := Z.log2 T - 52 in
        let mant := round_half_even (Z.to_pos T) (- sh) in
        Z.ldexp (of_Z mant) (k - bits + sh)
  end.

End F64.

(** ** The Gaussian density and the scale-up loop

    [LUT_1D_Cartesian.py] lines 39-53 ([cartesian1Dtrajectory.py] lines
    55-73 compute the same with [k_space_center = N // 2 + 1]):
<<
    kSpaceCenter = targetKspaceSize // 2
    extraLines = trajectoryLength - targetKspaceSize
    k = np.arange(1, targetKspaceSize + 1)
    d = (1 / (sigma * np.sqrt(2 * np.pi)))
        * np.exp(-((k - (kSpaceCenter + 1)) ** 2) / (2 * sigma ** 2))
    incr = 0.9
    df = np.round(d * incr).astype(int)
    while np.sum(df) <= extraLines:
        incr += 0.001
        df = np.round(d * incr).astype(int)
>> *)

Module Balancer.
Import Py F64 Trim.

(** The weight of line [k] (counted from 1). *)
Definition gauss_weight (N sigma : Z) (k : Z) : float :=
  let kSpaceCenter := N / 2 in
  ((1 / (of_Z sigma * PrimFloat.sqrt (2 * np_pi)))
   * np_exp (of_Z (- ((k - (kSpaceCenter + 1)) ^ 2)) / of_Z (2 * sigma ^ 2)))%float.

(** [d], over [k = np.arange(1, N + 1)]. *)
Definition density (N sigma : Z) : list float :=
  gauss_weight N sigma <$> py_range 1 (N + 1) 1.

(** [np.round(d * incr).astype(int)]. *)
Definition scaled (d : list float) (incr : float) : list Z :=
  (fun w => np_round_int (w * incr)%float) <$> d.

(** The scale-up loop: the candidate and the scale it was reached at. *)
Fixpoint scale_up (fuel : nat) (d : list float) (incr : float) (E : Z)
  : option (list Z * float) :=
  match fuel with
  | O => None
  | S fuel' =>
      let df := scaled d incr in
      if np_sum df <=? E then scale_up fuel' d (incr + 0.001)%float E
      else Some (df, incr)
  end.

(** Both loops: the repeat counts [df] that reach [d = 1 + df]. *)
Definition balancer (fuel : nat) (N L sigma : Z) : option trim_result :=
  match scale_up fuel (density N sigma) 0.9%float (L - N) with
  | Some (df, _) => trim (L - N) df
  | None => None
  end.

(** [mustBePosEvenInt] of the script, [_must_be_pos_even_int] of the
    function: the test they apply to an [int]. *)
Definition mustBePosEvenInt (x : Z) : bool := (0 <? x) && (x mod 2 =? 0).

(** The three checks of either program pass. *)
Definition valid_ints (N L sigma : Z) : bool :=
  mustBePosEvenInt N && mustBePosEvenInt L && mustBePosEvenInt sigma.

(** The checks pass and the views cover every line once. *)
Definition valid_config (N L sigma : Z) : bool :=
  valid_ints N L sigma && (N <=? L).

Lemma mustBePosEvenInt_true (x : Z) :
  mustBePosEvenInt x = true <-> 0 < x /\ x mod 2 = 0.
Proof.
  unfold mustBePosEvenInt. rewrite andb_true_iff, Z.ltb_lt, Z.eqb_eq. tauto.
Qed.

Lemma valid_config_true (N L sigma : Z) :
  valid_config N L sigma = true ->
  (0 < N /\ N mod 2 = 0) /\ (0 < L /\ L mod 2 = 0) /\
  (0 < sigma /\ sigma mod 2 = 0) /\ N <= L.
Proof.
  unfold valid_config, valid_ints.
  rewrite !andb_true_iff, !mustBePosEvenInt_true, Z.leb_le.
  tauto.
Qed.

Lemma py_arange_1 (N : Z) :
  0 <= N -> py_range 1 (N + 1) 1 = (fun i : nat => 1 + Z.of_nat i) <$> seq 0 (Z.to_nat N).
Proof.
  intros HN. unfold py_range, py_range_len.
  destruct (Z.ltb_spec 0 1); [|lia].
  destruct (Z.ltb_spec 1 (N + 1)).
  - replace (N + 1 - 1 - 1) with (N - 1) by lia. rewrite Z.div_1_r.
    replace (N - 1 + 1) with N by lia.
    apply list_fmap_ext. intros _ i _. lia.
  - replace N with 0 by lia. reflexivity.
Qed.

Lemma length_density (N sigma : Z) :
  0 <= N -> length (density N sigma) = Z.to_nat N.
Proof.
  intros HN. unfold density. rewrite (py_arange_1 N HN).
  now rewrite !length_fmap, length_seq.
Qed.

(** The weight of line [k] sits at position [k - 1] of [d]. *)
Lemma density_lookup (N sigma k : Z) :
  1 <= k <= N -> density N sigma !! Z.to_nat (k - 1) = Some (gauss_weight N sigma k).
Proof.
  intros Hk. unfold density. rewrite (py_arange_1 N) by lia.
  rewrite !list_lookup_fmap, lookup_seq_lt by lia. simpl. do 2 f_equal. lia.
Qed.

(** The two lines at distance [j] of the centre get the same float: the
    exponent is computed from the same integer [j^2]. *)
Lemma gauss_weight_mirror (N sigma j : Z) :
  gauss_weight N sigma (N / 2 + 1 - j) = gauss_weight N sigma (N / 2 + 1 + j).
Proof.
  unfold gauss_weight.
  replace ((N / 2 + 1 - j - (N / 2 + 1)) ^ 2) with ((N / 2 + 1 + j - (N / 2 + 1)) ^ 2);
    [reflexivity|].
  replace (N / 2 + 1 + j - (N / 2 + 1)) with j by lia.
  replace (N / 2 + 1 - j - (N / 2 + 1)) with (- j) by lia.
  rewrite !Z.pow_2_r. lia.
Qed.

Lemma length_scaled (d : list float) (incr : float) : length (scaled d incr) = length d.
Proof. unfold scaled. apply length_fmap. Qed.

(** The scale-up loop is left with a candidate above the surplus. *)
Lemma scale_up_exit (fuel : nat) (d : list float) (E : Z) :
  forall (incr incr' : float) (c : list Z),
    scale_up fuel d incr E = Some (c, incr') ->
    c = scaled d incr' /\ E < np_sum c.
Proof.
  induction fuel as [|fuel IH]; intros incr incr' c; simpl; [discriminate|].
  destruct (Z.leb_spec (np_sum (scaled d incr)) E) as [Hle|Hgt].
  - apply IH.
  - intros [= <- <-]. split; [reflexivity|exact Hgt].
Qed.

(** The trimming loop as the balancer runs it always returns. *)
Lemma trim_returns (E : Z) (df : list Z) :
  exists r : trim_result,
    trim E df = Some r /\
    length (trimmed r) = length df /\
    (E <= np_sum df -> E <= np_sum (trimmed r)) /\
    (Forall (fun x => 0 <= x) df -> Forall (fun x => 0 <= x) (trimmed r)) /\
    match how r with
    | SumReached => np_sum (trimmed r) <= E
    | SafetyBreak => E < np_sum (trimmed r) /\ count_ones (trimmed r) = 0%nat
    end.
Proof.
  pose proof (count_ones_le_length df) as Hc.
  destruct (trim_loop_spec (S (length df)) E df true 0 ltac:(lia))
    as (r & Hr & Hlen & _ & _ & Hge & Hnn & Hhow).
  exists r. repeat split; assumption.
Qed.

(** Which way the trimming loop is left, from a candidate above the
    surplus: through its test exactly when the candidate holds enough
    entries equal to 1 to come down to the surplus. *)
Lemma trim_exact_iff (E : Z) (c : list Z) (r : trim_result) :
  trim E c = Some r -> E < np_sum c ->
  (how r = SumReached <-> np_sum c - E <= Z.of_nat (count_ones c)) /\
  np_sum (trimmed r) = Z.max E (np_sum c - Z.of_nat (count_ones c)).
Proof.
  intros Hr Hlt. pose proof (trim_loop_ones _ _ _ _ _ _ Hr) as Hones.
  pose proof (count_ones_le_length c) as Hc.
  destruct (trim_loop_spec (S (length c)) E c true 0 ltac:(lia))
    as (r' & Hr' & _ & Hit & _ & Hge & _ & Hhow).
  unfold trim in Hr. rewrite Hr in Hr'. injection Hr' as <-.
  specialize (Hge ltac:(lia)).
  destruct (how r); simpl in Hhow.
  - split; [split; [intros _; lia|reflexivity]|lia].
  - destruct Hhow as [Hgt H0]. split; [split; [discriminate|lia]|lia].
Qed.

(** What the balancer hands on, given the candidate of its first loop. *)
Lemma balancer_spec (fuel : nat) (N L sigma : Z) (c : list Z) (incr : float) :
  0 <= N ->
  scale_up fuel (density N sigma) 0.9%float (L - N) = Some (c, incr) ->
  exists r : trim_result,
    balancer fuel N L sigma = Some r /\
    length (trimmed r) = Z.to_nat N /\
    L - N <= np_sum (trimmed r) /\
    (Forall (fun x => 0 <= x) c -> Forall (fun x => 0 <= x) (trimmed r)) /\
    match how r with
    | SumReached => np_sum (trimmed r) = L - N
    | SafetyBreak => L - N < np_sum (trimmed r) /\ count_ones (trimmed r) = 0%nat
    end.
Proof.
  intros HN Hup. destruct (scale_up_exit _ _ _ _ _ _ Hup) as [Hc Hsum].
  destruct (trim_returns (L - N) c) as (r & Hr & Hlen & Hge & Hnn & Hhow).
  exists r. unfold balancer. rewrite Hup. split; [exact Hr|].
  split; [rewrite Hlen, Hc, length_scaled; now apply length_density|].
  specialize (Hge ltac:(lia)). split; [exact Hge|]. split; [exact Hnn|].
  destruct (how r); [lia|exact Hhow].
Qed.

(** Two runs that end in the safety [break]: sizes 2 and 6, and sizes 4
    and 12, at width 2. The candidates [[2; 3]] and [[2; 2; 3; 2]] hold no
    entry equal to 1, and the loop is left before its first pass. *)
Lemma balancer_2_6_2 :
  balancer 20000 2 6 2 = Some (TrimResult [2; 3] 0 SafetyBreak).
Proof. vm_compute. reflexivity. Qed.

Lemma balancer_4_12_2 :
  balancer 20000 4 12 2 = Some (TrimResult [2; 2; 3; 2] 0 SafetyBreak).
Proof. vm_compute. reflexivity. Qed.

End Balancer.

(** ** The Monte-Carlo filling estimator

    The script ([LUT_1D_Cartesian.py] lines 82-91):
<<
    samples = np.random.randint(0, trajectoryLength, N)
    filling = np.zeros(targetKspaceSize, dtype=int)
    for s in samples:
        index = traj[s] + targetKspaceSize // 2
        if 0 <= index < targetKspaceSize:
            filling[index] += 1
    filling = filling / np.sum(filling)
>>
    The function ([cartesian1Dtrajectory.py] lines 98-103) has no test:
<<
    for s in samples:
        idx = int(traj[s] + target_kspace_size / 2)
        filling[idx] += 1
    filling /= filling.sum()
>>
    The draws of [np.random.randint] are an input, [samples]. The counts
    are whole numbers in both; the normalised histogram is a vector of
    rationals. *)

Module Filling.
Import Py.

(** [np.zeros(N)]. *)
Definition np_zeros (N : Z) : list Z := replicate (Z.to_nat N) 0.

(** One draw in the script: the histogram, and how many draws took the
    branch that skips. [None] is the [IndexError] of [traj[s]]. *)
Definition tally_script (traj : list Z) (N : Z) (st : option (list Z * nat)) (s : Z)
  : option (list Z * nat) :=
  match st, py_get traj s with
  | Some (filling, skipped), Some t =>
      let index := t + N / 2 in
      if (0 <=? index) && (index <? N)
      then Some (alter Z.succ (Z.to_nat index) filling, skipped)
      else Some (filling, S skipped)
  | _, _ => None
  end.

(** [a[i] += 1] with Python's negative indices and [IndexError]. *)
Definition py_incr (a : list Z) (i : Z) : option (list Z) :=
  let len := Z.of_nat (length a) in
  if (0 <=? i) && (i <? len) then Some (alter Z.succ (Z.to_nat i) a)
  else if (- len <=? i) && (i <? 0) then Some (alter Z.succ (Z.to_nat (len + i)) a)
  else None.

(** One draw in the function. *)
Definition tally_function (traj : list Z) (N : Z) (st : option (list Z)) (s : Z)
  : option (list Z) :=
  match st, py_get traj s with
  | Some filling, Some t => py_incr filling (t + N / 2)
  | _, _ => None
  end.

Definition counts_script (traj : list Z) (N : Z) (samples : list Z)
  : option (list Z * nat) :=
  foldl (tally_script traj N) (Some (np_zeros N, 0%nat)) samples.

Definition counts_function (traj : list Z) (N : Z) (samples : list Z)
  : option (list Z) :=
  foldl (tally_function traj N) (Some (np_zeros N)) samples.

(** [filling / np.sum(filling)]; with a zero sum every entry is NaN,
    which is [None] here. *)
Definition normalise (filling : list Z) : option (list Q) :=
  let total := np_sum filling in
  if total =? 0 then None
  else Some ((fun c => inject_Z c / inject_Z total)%Q <$> filling).


Lemma np_sum_alter_succ (l : list Z) (i : nat) :
  (i < length l)%nat -> np_sum (alter Z.succ i l) = np_sum l + 1.
Proof.
  revert i. induction l as [|x l IH]; intros [|i] Hi; simpl in Hi; try lia.
  - change (Z.succ x + np_sum l = x + np_sum l + 1). lia.
  - change (x + np_sum (alter Z.succ i l) = x + np_sum l + 1).
    rewrite (IH i) by lia. lia.
Qed.

Lemma np_sum_zeros (N : Z) : np_sum (np_zeros N) = 0.
Proof. unfold np_zeros. induction (Z.to_nat N) as [|n IH]; simpl; lia. Qed.


(** When every draw lands on a bucket, in the list of the script and in
    the array of the function alike, neither skips or fails and both
    count the same. *)
Lemma tally_all (ts tf : list Z) (N : Z) (samples : list Z) :
  (forall s : Z, s ∈ samples ->
     exists t : Z,
       py_get ts s = Some t /\ py_get tf s = Some t /\ 0 <= t + N / 2 < N) ->
  forall (filling : list Z) (skipped : nat),
    Z.of_nat (length filling) = N ->
    exists filling' : list Z,
      foldl (tally_script ts N) (Some (filling, skipped)) samples
        = Some (filling', skipped) /\
      foldl (tally_function tf N) (Some filling) samples = Some filling' /\
      length filling' = length filling /\
      np_sum filling' = np_sum filling + Z.of_nat (length samples) /\
      (Forall (fun x => 0 <= x) filling -> Forall (fun x => 0 <= x) filling').
Proof.
  induction samples as [|s samples IH]; intros Hin filling skipped Hlen.
  - exists filling. simpl. repeat split; try reflexivity; try lia. tauto.
  - destruct (Hin s ltac:(left)) as (t & Hts & Htf & Hrange).
    assert (H1 : tally_script ts N (Some (filling, skipped)) s
                 = Some (alter Z.succ (Z.to_nat (t + N / 2)) filling, skipped)).
    { unfold tally_script. rewrite Hts.
      destruct (Z.leb_spec 0 (t + N / 2)); [|lia].
      destruct (Z.ltb_spec (t + N / 2) N); [reflexivity|lia]. }
    assert (H2 : tally_function tf N (Some filling) s
                 = Some (alter Z.succ (Z.to_nat (t + N / 2)) filling)).
    { unfold tally_function, py_incr. rewrite Htf, Hlen.
      destruct (Z.leb_spec 0 (t + N / 2)); [|lia].
      destruct (Z.ltb_spec (t + N / 2) N); [reflexivity|lia]. }
    destruct (IH (fun s' Hs' => Hin s' (list_elem_of_further _ _ _ Hs'))
                (alter Z.succ (Z.to_nat (t + N / 2)) filling) skipped)
      as (f' & Hs & Hf & Hl & Hsum & Hnn).
    { now rewrite length_alter. }
    exists f'. cbn [foldl]. rewrite H1, H2.
    split; [exact Hs|]. split; [exact Hf|].
    rewrite length_alter in Hl. split; [exact Hl|]. split.
    + rewrite Hsum, np_sum_alter_succ by lia. simpl length. lia.
    + intros H. apply Hnn. apply Forall_alter; [exact H|]. intros; lia.
Qed.



End Filling.

(** ** The Cartesian pipeline, end to end *)

Module Cartesian.
Import Py Trim Balancer Zigzag Filling.

(** [traj] of the script. *)
Definition trajectory_script (fuel : nat) (N L sigma : Z) : option (list Z) :=
  match balancer fuel N L sigma with
  | Some r => zigzag_script N (one_plus (trimmed r))
  | None => None
  end.

(** [traj] of the function; [uninit] is the content of
    [np.empty(trajectory_length)]. *)
Definition trajectory_function (fuel : nat) (N L sigma : Z) (uninit : list Z)
  : option (list Z) :=
  match balancer fuel N L sigma with
  | Some r => zigzag_function N uninit (one_plus (trimmed r))
  | None => None
  end.

(** The signed range of a line index. *)
Definition in_k_range (N : Z) (x : Z) : Prop := - (N / 2) <= x <= N / 2 - 1.

Lemma balancer_inv (fuel : nat) (N L sigma : Z) (r : trim_result) :
  0 <= N -> balancer fuel N L sigma = Some r ->
  Z.of_nat (length (trimmed r)) = N /\
  L - N <= np_sum (trimmed r) /\
  match how r with
  | SumReached => np_sum (trimmed r) = L - N
  | SafetyBreak => L - N < np_sum (trimmed r) /\ count_ones (trimmed r) = 0%nat
  end.
Proof.
  intros HN Hb.
  destruct (scale_up fuel (density N sigma) 0.9%float (L - N)) as [[c incr]|] eqn:Hup.
  - destruct (balancer_spec fuel N L sigma c incr HN Hup) as (r' & Hr' & Hlen & Hge & _ & Hhow).
    rewrite Hb in Hr'. injection Hr' as <-.
    split; [lia|]. split; assumption.
  - unfold balancer in Hb. rewrite Hup in Hb. discriminate.
Qed.

(** The function's array is the start of the script's list. *)
Lemma function_is_prefix (N : Z) (r uninit : list Z) :
  0 < N -> N mod 2 = 0 -> Z.of_nat (length r) = N ->
  Forall (fun x => 0 <= x) r ->
  Z.of_nat (length uninit) <= N + np_sum r ->
  zigzag_function N uninit (one_plus r)
  = Some (take (length uninit) (zigzag_spec N r)).
Proof.
  intros Hpos Hev Hlen Hnn Hfit.
  rewrite zigzag_function_spec by assumption. f_equal.
  pose proof (length_zigzag_spec N r Hpos Hev Hlen Hnn) as Hl.
  apply take_app_le. lia.
Qed.

(** A draw addresses an entry of either trajectory, and that entry plus
    N/2 is a bucket. *)
Lemma draw_on_bucket (N : Z) (r uninit : list Z) (s : Z) :
  0 < N -> N mod 2 = 0 -> Z.of_nat (length r) = N ->
  Forall (fun x => 0 <= x) r ->
  Z.of_nat (length uninit) <= N + np_sum r ->
  0 <= s < Z.of_nat (length uninit) ->
  exists t : Z,
    py_get (zigzag_spec N r) s = Some t /\
    py_get (take (length uninit) (zigzag_spec N r)) s = Some t /\
    0 <= t + N / 2 < N.
Proof.
  intros Hpos Hev Hlen Hnn Hfit Hs.
  pose proof (length_zigzag_spec N r Hpos Hev Hlen Hnn) as Hl.
  destruct (lookup_lt_is_Some_2 (zigzag_spec N r) (Z.to_nat s) ltac:(lia)) as [t Ht].
  exists t. rewrite !py_get_nonneg by lia.
  rewrite lookup_take_lt by lia. split; [exact Ht|]. split; [exact Ht|].
  pose proof (zigzag_spec_range N r Hpos Hev) as Hr.
  rewrite Forall_lookup in Hr. specialize (Hr _ _ Ht). simpl in Hr.
  destruct (even_size N Hpos Hev) as (m & HN & Hm & Hm0). lia.
Qed.

(** Without surplus (both sizes equal) a candidate of entries 0 or 1 is
    trimmed to zeros, whichever way the loop is left. *)
Lemma balancer_no_surplus (fuel : nat) (N sigma : Z) (c : list Z) (incr : float) :
  0 <= N ->
  scale_up fuel (density N sigma) 0.9%float (N - N) = Some (c, incr) ->
  Forall (fun x => 0 <= x <= 1) c ->
  exists r : trim_result,
    balancer fuel N N sigma = Some r /\ trimmed r = replicate (Z.to_nat N) 0.
Proof.
  intros HN Hup Hc.
  destruct (balancer_spec fuel N N sigma c incr HN Hup) as (r & Hr & Hlen & _ & _ & Hhow).
  exists r. split; [exact Hr|].
  assert (H01 : Forall (fun x => 0 <= x <= 1) (trimmed r)).
  { unfold balancer in Hr. rewrite Hup in Hr.
    refine (trim_loop_preserves (fun x => 0 <= x <= 1) _ _ _ _ _ _ _ Hc Hr). lia. }
  rewrite <- Hlen. destruct (how r); simpl in Hhow.
  - apply np_sum_nonneg_zero; [|lia].
    eapply Forall_impl; [exact H01|]. simpl. lia.
  - apply no_ones_zero; [exact H01|tauto].
Qed.

(** The run of the first scenario of the specification: sizes 8 and 10,
    width 2. *)
Lemma scale_up_8_10_2 :
  exists incr : float,
    scale_up 20000 (density 8 2) 0.9%float (10 - 8)
    = Some ([0; 0; 0; 1; 1; 1; 0; 0], incr).
Proof. eexists. vm_compute. reflexivity. Qed.

Lemma balancer_8_10_2 :
  balancer 20000 8 10 2
  = Some (TrimResult [0; 0; 0; 0; 1; 1; 0; 0] 1 SumReached).
Proof. vm_compute. reflexivity. Qed.

(** The run of the second scenario: sizes 4 and 4, at the shipped width 8
    and at width 2. *)
Lemma scale_up_4_4_8 :
  exists incr : float,
    scale_up 20000 (density 4 8) 0.9%float (4 - 4) = Some ([0; 0; 1; 0], incr).
Proof. eexists. vm_compute. reflexivity. Qed.

Lemma balancer_4_4_8 :
  balancer 20000 4 4 8 = Some (TrimResult [0; 0; 0; 0] 1 SumReached).
Proof. vm_compute. reflexivity. Qed.

Lemma balancer_4_4_2 :
  balancer 20000 4 4 2 = Some (TrimResult [0; 0; 0; 0] 1 SumReached).
Proof. vm_compute. reflexivity. Qed.

End Cartesian.

(** ** The two Cartesian programs with their effects

    What the claims say about errors, allocation and export needs the
    order of effects. A run threads a log of events and stops at the first
    exception. The log records the first allocation of each named array,
    plotting, and the export of the trajectory. *)

Module Program.
Import Py Trim Balancer Zigzag Filling Cartesian.

(** The text of an exception. Where the source formats a value into it
    with [{x!r}], the value is kept beside the text around it. *)
Inductive py_value := PyInt (z : Z) | PyStr (s : string).

Inductive message :=
| Msg (text : string)
| MsgRepr (before : string) (x : py_value) (after : string).

(** [OutOfFuel] is not a Python exception: the model's fuel for the
    scale-up loop ran out, the program would still be running. *)
Inductive exn :=
| AssertionError (msg : message)
| ValueError (msg : message)
| IndexError
| OutOfFuel.

Inductive event :=
| Alloc (array : string)
| Plot
| Export (N L sigma : Z) (lines : list Z).

Definition M (A : Type) : Type := list event -> list event * (exn + A).

Definition ret {A : Type} (a : A) : M A := fun log => (log, inr a).

Definition bind {A B : Type} (m : M A) (k : A -> M B) : M B :=
  fun log =>
    match m log with
    | (log', inl e) => (log', inl e)
    | (log', inr a) => k a log'
    end.

Definition raise {A : Type} (e : exn) : M A := fun log => (log, inl e).

Definition emit (ev : event) : M unit := fun log => (log ++ [ev], inr tt).

Definition lift {A : Type} (e : exn) (o : option A) : M A :=
  match o with Some a => ret a | None => raise e end.

Notation "x <- m ;; k" := (bind m (fun x => k))
  (at level 100, m at next level, right associativity).
Notation "m ;;; k" := (bind m (fun _ => k))
  (at level 100, right associativity).

(** [str.lower()], byte by byte on UTF-8 text: the letters A to Z are the
    only characters it turns into a letter of "gauss". *)
Definition lower_ascii (c : ascii) : ascii :=
  let n := nat_of_ascii c in
  if (65 <=? n)%nat && (n <=? 90)%nat then ascii_of_nat (n + 32) else c.

Fixpoint py_lower (s : string) : string :=
  match s with
  | EmptyString => EmptyString
  | String c t => String (lower_ascii c) (py_lower t)
  end.

(** The script's [mustBePosEvenInt]: an [assert]. *)
Definition assert_pos_even (x : Z) : M unit :=
  if mustBePosEvenInt x then ret tt
  else raise (AssertionError (Msg "Input must be a positive, even integer.")).

(** The function's [_must_be_pos_even_int], which raises
    [ValueError(f"{name} must be a positive, even integer (got {x!r}).")]. *)
Definition must_be_pos_even_int (x : Z) (name : string) : M unit :=
  if mustBePosEvenInt x then ret tt
  else raise (ValueError (MsgRepr (name ++ " must be a positive, even integer (got ")
                            (PyInt x) ").")).

(** [LUT_1D_Cartesian.py], top to bottom. *)
Definition script (targetKspaceSize trajectoryLength : Z) (densityShape : string)
    (sigma : Z) (showPlot : bool) (fuel : nat) (samples : list Z)
  : M (list Z * option (list Q)) :=
  assert_pos_even targetKspaceSize ;;;
  assert_pos_even trajectoryLength ;;;
  assert_pos_even sigma ;;;
  emit (Alloc "k") ;;;
  (if String.eqb densityShape "gauss" then emit (Alloc "d")
   else raise (ValueError (Msg "Unsupported density shape"))) ;;;
  r <- lift OutOfFuel (balancer fuel targetKspaceSize trajectoryLength sigma) ;;
  emit (Alloc "df") ;;;
  traj <- lift IndexError (zigzag_script targetKspaceSize (one_plus (trimmed r))) ;;
  emit (Alloc "traj") ;;;
  emit (Alloc "samples") ;;;
  emit (Alloc "filling") ;;;
  counts <- lift IndexError (counts_script traj targetKspaceSize samples) ;;
  (if showPlot then emit Plot else ret tt) ;;;
  emit (Export targetKspaceSize trajectoryLength sigma traj) ;;;
  ret (traj, normalise counts.1).

(** [generate_cartesian_1d_trajectory]. *)
Definition generate_cartesian_1d_trajectory
    (target_kspace_size trajectory_length sigma : Z) (density_shape : string)
    (plot export : bool) (fuel : nat) (uninit samples : list Z)
  : M (list Z * option (list Q)) :=
  must_be_pos_even_int target_kspace_size "target_kspace_size" ;;;
  must_be_pos_even_int trajectory_length "trajectory_length" ;;;
  must_be_pos_even_int sigma "sigma" ;;;
  emit (Alloc "k") ;;;
  (if String.eqb (py_lower density_shape) "gauss" then emit (Alloc "d")
   else raise (ValueError (MsgRepr "Unsupported density_shape: "
                             (PyStr density_shape) EmptyString))) ;;;
  r <- lift OutOfFuel (balancer fuel target_kspace_size trajectory_length sigma) ;;
  emit (Alloc "df") ;;;
  emit (Alloc "traj") ;;;
  traj <- lift IndexError
            (zigzag_function target_kspace_size uninit (one_plus (trimmed r))) ;;
  emit (Alloc "samples") ;;;
  emit (Alloc "filling") ;;;
  counts <- lift IndexError (counts_function traj target_kspace_size samples) ;;
  (if plot then emit Plot else ret tt) ;;;
  (if export
   then emit (Export target_kspace_size trajectory_length sigma traj)
   else ret tt) ;;;
  ret (traj, normalise counts).

(** The errors that reject a configuration. *)
Definition is_config_error (e : exn) : Prop :=
  match e with
  | AssertionError _ | ValueError _ => True
  | IndexError | OutOfFuel => False
  end.

(** The three integer checks of either program, run on an empty log:
    passed with nothing logged, or failed with a configuration error. *)
Lemma checks_script (N L sigma : Z) {A : Type} (k : M A) :
  (valid_ints N L sigma = true /\
   (assert_pos_even N ;;; assert_pos_even L ;;; assert_pos_even sigma ;;; k) [] = k [])
  \/ (valid_ints N L sigma = false /\
      exists msg : message,
        (assert_pos_even N ;;; assert_pos_even L ;;; assert_pos_even sigma ;;; k) []
        = ([], inl (AssertionError msg))).
Proof.
  unfold valid_ints, assert_pos_even, bind, ret, raise.
  destruct (mustBePosEvenInt N), (mustBePosEvenInt L), (mustBePosEvenInt sigma);
    simpl; eauto.
Qed.

Lemma checks_function (N L sigma : Z) {A : Type} (k : M A) :
  (valid_ints N L sigma = true /\
   (must_be_pos_even_int N "target_kspace_size" ;;;
    must_be_pos_even_int L "trajectory_length" ;;;
    must_be_pos_even_int sigma "sigma" ;;; k) [] = k [])
  \/ (valid_ints N L sigma = false /\
      exists msg : message,
        (must_be_pos_even_int N "target_kspace_size" ;;;
         must_be_pos_even_int L "trajectory_length" ;;;
         must_be_pos_even_int sigma "sigma" ;;; k) []
        = ([], inl (ValueError msg))).
Proof.
  unfold valid_ints, must_be_pos_even_int, bind, ret, raise.
  destruct (mustBePosEvenInt N), (mustBePosEvenInt L), (mustBePosEvenInt sigma);
    simpl; eauto.
Qed.

End Program.

(** ** The golden-angle spoke generator and the coverage analyzer

    [exLUT_3D_radialTrajectory.py] lines 26-67:
<<
    numPointsTarget = dimy * dimz
    numSamplesPerSpoke = 2 * max(dimy, dimz)
    t = np.linspace(-1, 1, numSamplesPerSpoke)
    ry = dimy / 2
    rz = dimz / 2
    kSpaceList = []; angle = 0; spokeNr = 0
    while len(kSpaceList) < numPointsTarget:
        spokeNr += 1
        angle += tinyGoldenAngles[angleNr - 1]
        theta = np.deg2rad(angle)
        y = np.round(t * np.cos(theta) * ry).astype(int)
        z = np.round(t * np.sin(theta) * rz).astype(int)
        if order == 1 and spokeNr % 2 == 0:
            y = np.flip(y); z = np.flip(z)
        spoke = list(zip(y, z))
        seen = set(); spoke_unique = []
        for pt in spoke:
            if pt not in seen:
                seen.add(pt); spoke_unique.append(pt)
        spoke_inside = [pt for pt in spoke_unique
                        if (pt[0]**2 / ry**2 + pt[1]**2 / rz**2) <= 1]
        kSpaceList.extend(spoke_inside)
        if len(kSpaceList) > numPointsTarget:
            kSpaceList = kSpaceList[:numPointsTarget]
            break
>>
    The cosine and the sine of an angle in degrees ([np.cos] and [np.sin]
    after [np.deg2rad]) are parameters of the model, [cosd] and [sind].
    Angles, sample positions and products are rationals: the arithmetic
    of the source is binary64, which rounds each of them by a relative
    2^-53; the cell a product rounds to is the same unless the product
    lies that close to a half-integer. The support test is evaluated
    exactly as well. *)

Module Radial.
Import Py.

Definition point : Type := Z * Z.

Definition tinyGoldenAngles : list Q :=
  [111.24611; 68.75388; 49.75077; 38.97762; 32.03967;
   27.19840; 23.62814; 20.88643; 18.71484; 16.95229]%Q.

(** [np.linspace(a, b, n)] for [n >= 2]. *)
Definition np_linspace (a b : Q) (n : Z) : list Q :=
  (fun i : nat => a + inject_Z (Z.of_nat i) * ((b - a) / inject_Z (n - 1)))%Q
    <$> seq 0 (Z.to_nat n).

(** [np.round(q).astype(int)]: to the nearest integer, halves to the even
    one. *)
Definition np_round (q : Q) : Z :=
  let f := Qfloor q in
  let frac := (q - inject_Z f)%Q in
  match (frac ?= 1 # 2)%Q with
  | Lt => f
  | Gt => f + 1
  | Eq => if Z.even f then f else f + 1
  end.

(** The support test [(pt[0]**2 / ry**2 + pt[1]**2 / rz**2) <= 1]. *)
Definition inside (ry rz : Q) (pt : point) : bool :=
  Qle_bool (inject_Z (pt.1 ^ 2) / (ry * ry) + inject_Z (pt.2 ^ 2) / (rz * rz)) 1.

(** The [seen] loop: the first occurrence of every point, in order. *)
Fixpoint unique_in_order (seen : gset point) (spoke : list point) : list point :=
  match spoke with
  | [] => []
  | pt :: rest =>
      if decide (pt ∈ seen) then unique_in_order seen rest
      else pt :: unique_in_order ({[pt]} ∪ seen) rest
  end.

Section Generator.

Variables cosd sind : Q -> Q.

(** [zip(y, z)] of the spoke at [angle], before it is flipped. *)
Definition spoke_raster (dimy dimz : Z) (angle : Q) : list point :=
  let numSamplesPerSpoke := 2 * Z.max dimy dimz in
  let t := np_linspace (-1) 1 numSamplesPerSpoke in
  let ry := (inject_Z dimy / 2)%Q in
  let rz := (inject_Z dimz / 2)%Q in
  let y := (fun ti => np_round (ti * cosd angle * ry)) <$> t in
  let z := (fun ti => np_round (ti * sind angle * rz)) <$> t in
  zip y z.

(** One pass of the loop body, up to [kSpaceList.extend]. *)
Definition add_spoke (dimy dimz order : Z) (kSpaceList : list point)
    (angle : Q) (spokeNr : Z) : list point :=
  let ry := (inject_Z dimy / 2)%Q in
  let rz := (inject_Z dimz / 2)%Q in
  let raster := spoke_raster dimy dimz angle in
  let spoke :=
    if (order =? 1) && (spokeNr mod 2 =? 0) then reverse raster else raster in
  let spoke_unique := unique_in_order ∅ spoke in
  let spoke_inside := filter (fun pt => inside ry rz pt = true) spoke_unique in
  kSpaceList ++ spoke_inside.

(** The [while] loop: the list, the angle and the spoke counter when it
    is left. *)
Fixpoint spoke_loop (fuel : nat) (dimy dimz order : Z) (step : Q)
    (kSpaceList : list point) (angle : Q) (spokeNr : Z)
  : option (list point * Q * Z) :=
  match fuel with
  | O => None
  | S fuel' =>
      let numPointsTarget := dimy * dimz in
      if Z.of_nat (length kSpaceList) <? numPointsTarget then
        let spokeNr := spokeNr + 1 in
        let angle := (angle + step)%Q in
        let kSpaceList := add_spoke dimy dimz order kSpaceList angle spokeNr in
        if numPointsTarget <? Z.of_nat (length kSpaceList)
        then Some (take (Z.to_nat numPointsTarget) kSpaceList, angle, spokeNr)
        else spoke_loop fuel' dimy dimz order step kSpaceList angle spokeNr
      else Some (kSpaceList, angle, spokeNr)
  end.

(** The generator; [None] also when [tinyGoldenAngles[angleNr - 1]]
    raises. *)
Definition spoke_generator (fuel : nat) (dimy dimz order angleNr : Z)
  : option (list point * Q * Z) :=
  match py_get tinyGoldenAngles (angleNr - 1) with
  | Some step => spoke_loop fuel dimy dimz order step [] 0%Q 0
  | None => None
  end.

End Generator.

(** *** Coverage ([exLUT_3D_radialTrajectory.py] lines 69-79,
    [exLUT_3D_spiralTrajectory.py] lines 91-102)
<<
    uniquePoints, indices = np.unique(kSpaceArray, axis=0, return_inverse=True)
    numUnique = uniquePoints.shape[0]
    numTotal = kSpaceArray.shape[0]
    avgSamplesPerPoint = numTotal / numUnique
    Ygrid, Zgrid = np.meshgrid(np.arange(-dimy//2, dimy//2),
                               np.arange(-dimz//2, dimz//2))
    ellipticalMask = (Ygrid**2 / ry**2 + Zgrid**2 / rz**2) <= 1
    numEllipticalPoints = np.count_nonzero(ellipticalMask)
    coveredFraction = 100 * numUnique / numEllipticalPoints
>>
    The spiral program ends its two ranges at [np.ceil(dimy/2)] and
    [np.ceil(dimz/2)]. *)

Definition numUnique (kSpaceList : list point) : nat :=
  size (list_to_set kSpaceList : gset point).

Definition numTotal (kSpaceList : list point) : nat := length kSpaceList.

(** [np.arange(lo, hi)]. *)
Definition np_arange (lo hi : Z) : list Z := py_range lo hi 1.

(** Upper ends of the grid ranges: [dim // 2] and [ceil(dim / 2)]. *)
Definition grid_end_radial (dim : Z) : Z := dim / 2.
Definition grid_end_spiral (dim : Z) : Z := - ((- dim) / 2).

(** The cells of the grid that pass the support test. *)
Definition mask_cells (grid_end : Z -> Z) (dimy dimz : Z) : list point :=
  let ry := (inject_Z dimy / 2)%Q in
  let rz := (inject_Z dimz / 2)%Q in
  filter (fun pt => inside ry rz pt = true)
    (y ← np_arange ((- dimy) / 2) (grid_end dimy);
     z ← np_arange ((- dimz) / 2) (grid_end dimz);
     [(y, z)]).

Definition numEllipticalPoints (grid_end : Z -> Z) (dimy dimz : Z) : nat :=
  length (mask_cells grid_end dimy dimz).

(** [coveredFraction], a percentage; [None] is [ZeroDivisionError]. *)
Definition coveredFraction (grid_end : Z -> Z) (dimy dimz : Z)
    (kSpaceList : list point) : option Q :=
  let m := numEllipticalPoints grid_end dimy dimz in
  if (m =? 0)%nat then None
  else Some (100 * inject_Z (Z.of_nat (numUnique kSpaceList))
             / inject_Z (Z.of_nat m))%Q.

(** *** Rounding *)

Lemma Qfloor_unique (q : Q) (f : Z) :
  (inject_Z f <= q)%Q -> (q < inject_Z (f + 1))%Q -> Qfloor q = f.
Proof.
  intros Hlo Hhi.
  pose proof (Qfloor_le q) as H1. pose proof (Qlt_floor q) as H2.
  assert (Ha : (inject_Z (Qfloor q) < inject_Z (f + 1))%Q) by (eapply Qle_lt_trans; eassumption).
  assert (Hb : (inject_Z f < inject_Z (Qfloor q + 1))%Q) by (eapply Qle_lt_trans; eassumption).
  rewrite <- Zlt_Qlt in Ha, Hb. lia.
Qed.

(** A product of size at most one half lands on cell 0. *)
Lemma np_round_small (q : Q) :
  (- (1 # 2) <= q)%Q -> (q <= 1 # 2)%Q -> np_round q = 0.
Proof.
  intros Hlo Hhi. unfold np_round.
  destruct (Qlt_le_dec q 0) as [Hneg|Hpos].
  - rewrite (Qfloor_unique q (-1)).
    + change (inject_Z (-1)) with (- (1))%Q.
      destruct (Qcompare_spec (q - - (1)) (1 # 2)) as [He|Hl|Hg];
        [reflexivity|lra|reflexivity].
    + change (inject_Z (-1)) with (- (1))%Q. lra.
    + change (inject_Z (-1 + 1)) with 0%Q. exact Hneg.
  - rewrite (Qfloor_unique q 0).
    + change (inject_Z 0) with 0%Q.
      destruct (Qcompare_spec (q - 0) (1 # 2)) as [He|Hl|Hg];
        [reflexivity|reflexivity|lra].
    + exact Hpos.
    + change (inject_Z (0 + 1)) with 1%Q. lra.
Qed.

(** *** Every spoke passes through the origin *)

Lemma small_product (t c D W : Q) :
  (-1 <= c)%Q -> (c <= 1)%Q -> (0 <= D)%Q -> (D <= W)%Q -> (0 < W)%Q ->
  (t == -1 / W)%Q ->
  (- (1 # 2) <= t * c * (D / 2))%Q /\ (t * c * (D / 2) <= 1 # 2)%Q.
Proof.
  intros Hc1 Hc2 HD HDW HW Ht.
  assert (Hr : (/ W * W == 1)%Q) by (rewrite Qmult_comm; apply Qmult_inv_r; lra).
  assert (Hrpos : (0 < / W)%Q) by (apply Qinv_lt_0_compat; exact HW).
  set (r := (/ W)%Q) in *.
  assert (Hp : (t * c * (D / 2) == - (r * (c * D)) * (1 # 2))%Q).
  { rewrite Ht. unfold Qdiv. fold r. change (/ 2)%Q with (1 # 2)%Q. ring. }
  assert (Hx1 : (c * D <= W)%Q) by nra.
  assert (Hx2 : (- W <= c * D)%Q) by nra.
  assert (Hy1 : (r * (c * D) <= 1)%Q) by nra.
  assert (Hy2 : (-1 <= r * (c * D))%Q) by nra.
  rewrite Hp. split; lra.
Qed.

Lemma middle_sample (M : Z) :
  1 <= M ->
  exists t : Q,
    np_linspace (-1) 1 (2 * M) !! Z.to_nat (M - 1) = Some t /\
    (t == -1 / inject_Z (2 * M - 1))%Q.
Proof.
  intros HM. unfold np_linspace. eexists. split.
  - rewrite list_lookup_fmap, lookup_seq_lt by lia. reflexivity.
  - simpl. rewrite Z2Nat.id by lia.
    assert (HW : ~ (inject_Z (2 * M - 1) == 0)%Q).
    { replace 0%Q with (inject_Z 0) by reflexivity. rewrite inject_Z_injective. lia. }
    replace (M - 1) with ((2 * M - 1 - 1) / 2).
    2:{ replace (2 * M - 1 - 1) with ((M - 1) * 2) by lia. now rewrite Z.div_mul. }
    assert (Hhalf : (inject_Z ((2 * M - 1 - 1) / 2) == (inject_Z (2 * M - 1) - 1) / 2)%Q).
    { replace (2 * M - 1 - 1) with ((M - 1) * 2) by lia. rewrite Z.div_mul by lia.
      replace (2 * M - 1) with ((M - 1) * 2 + 1) by lia.
      rewrite inject_Z_plus, inject_Z_mult. change (inject_Z 2) with 2%Q.
      change (inject_Z 1) with 1%Q. field. }
    rewrite Hhalf. field. exact HW.
Qed.

Section Origin.

Variables cosd sind : Q -> Q.
Hypothesis cosd_range : forall a : Q, (-1 <= cosd a)%Q /\ (cosd a <= 1)%Q.
Hypothesis sind_range : forall a : Q, (-1 <= sind a)%Q /\ (sind a <= 1)%Q.

Lemma origin_in_raster (dimy dimz : Z) (angle : Q) :
  1 <= dimy -> 1 <= dimz -> (0, 0) ∈ spoke_raster cosd sind dimy dimz angle.
Proof.
  intros Hy Hz. unfold spoke_raster.
  set (M := Z.max dimy dimz).
  destruct (middle_sample M ltac:(lia)) as (t & Ht & Hteq).
  apply list_elem_of_lookup. exists (Z.to_nat (M - 1)).
  rewrite lookup_zip_with, !list_lookup_fmap, Ht. simpl.
  assert (HW : (0 < inject_Z (2 * M - 1))%Q).
  { replace 0%Q with (inject_Z 0) by reflexivity. rewrite <- Zlt_Qlt. lia. }
  assert (Hdy : (0 <= inject_Z dimy)%Q /\ (inject_Z dimy <= inject_Z (2 * M - 1))%Q).
  { replace 0%Q with (inject_Z 0) by reflexivity. rewrite <- !Zle_Qle. lia. }
  assert (Hdz : (0 <= inject_Z dimz)%Q /\ (inject_Z dimz <= inject_Z (2 * M - 1))%Q).
  { replace 0%Q with (inject_Z 0) by reflexivity. rewrite <- !Zle_Qle. lia. }
  destruct (small_product t (cosd angle) (inject_Z dimy) (inject_Z (2 * M - 1)))
    as [Hy1 Hy2]; try tauto; try apply cosd_range.
  destruct (small_product t (sind angle) (inject_Z dimz) (inject_Z (2 * M - 1)))
    as [Hz1 Hz2]; try tauto; try apply sind_range.
  rewrite !np_round_small by assumption. reflexivity.
Qed.

End Origin.

(** *** The [seen] loop *)

Lemma unique_in_order_keeps (spoke : list point) :
  forall (seen : gset point) (x : point),
    x ∈ spoke -> x ∉ seen -> x ∈ unique_in_order seen spoke.
Proof.
  induction spoke as [|pt rest IH]; intros seen x Hin Hseen; [inversion Hin|].
  simpl. destruct (decide (pt ∈ seen)) as [Hpt|Hpt].
  - apply IH; [|exact Hseen]. apply elem_of_cons in Hin as [->|Hin]; [contradiction|exact Hin].
  - destruct (decide (x = pt)) as [->|Hne]; [left|]. right.
    apply IH; [|set_solver]. apply elem_of_cons in Hin as [->|Hin]; [contradiction|exact Hin].
Qed.

Lemma unique_in_order_subset (spoke : list point) :
  forall (seen : gset point) (x : point),
    x ∈ unique_in_order seen spoke -> x ∈ spoke.
Proof.
  induction spoke as [|pt rest IH]; intros seen x Hin; [inversion Hin|].
  simpl in Hin. destruct (decide (pt ∈ seen)).
  - right. eapply IH. exact Hin.
  - apply elem_of_cons in Hin as [->|Hin]; [left|right; eapply IH; exact Hin].
Qed.

Lemma inside_origin (ry rz : Q) : inside ry rz (0, 0) = true.
Proof.
  unfold inside. apply Qle_bool_iff. simpl.
  change (inject_Z (0 ^ 2)) with 0%Q. unfold Qdiv. rewrite !Qmult_0_l. lra.
Qed.

(** *** The loop *)

Section Loop.

Variables cosd sind : Q -> Q.
Hypothesis cosd_range : forall a : Q, (-1 <= cosd a)%Q /\ (cosd a <= 1)%Q.
Hypothesis sind_range : forall a : Q, (-1 <= sind a)%Q /\ (sind a <= 1)%Q.

(** What the support test accepts for a grid of [dimy] by [dimz]. *)
Definition in_support (dimy dimz : Z) (pt : point) : Prop :=
  inside (inject_Z dimy / 2) (inject_Z dimz / 2) pt = true.

(** A spoke adds at least one point, and only points of the support. *)
Lemma add_spoke_grows (dimy dimz order : Z) (kSpaceList : list point)
    (angle : Q) (spokeNr : Z) :
  1 <= dimy -> 1 <= dimz ->
  (length kSpaceList < length (add_spoke cosd sind dimy dimz order kSpaceList angle spokeNr))%nat
  /\ (Forall (in_support dimy dimz) kSpaceList ->
      Forall (in_support dimy dimz)
        (add_spoke cosd sind dimy dimz order kSpaceList angle spokeNr)).
Proof.
  intros Hy Hz. unfold add_spoke.
  set (spoke := if (order =? 1) && (spokeNr mod 2 =? 0)
                then reverse (spoke_raster cosd sind dimy dimz angle)
                else spoke_raster cosd sind dimy dimz angle).
  assert (Ho : (0, 0) ∈ spoke).
  { pose proof (origin_in_raster cosd sind cosd_range sind_range dimy dimz angle Hy Hz) as H.
    subst spoke. destruct ((order =? 1) && (spokeNr mod 2 =? 0)); [|exact H].
    now apply elem_of_reverse. }
  set (kept := filter (fun pt => inside (inject_Z dimy / 2) (inject_Z dimz / 2) pt = true)
                 (unique_in_order ∅ spoke)).
  assert (Hk : (0, 0) ∈ kept).
  { apply list_elem_of_filter. split; [apply inside_origin|].
    apply unique_in_order_keeps; [exact Ho|set_solver]. }
  split.
  - rewrite length_app. destruct kept; [inversion Hk|simpl; lia].
  - intros Hall. apply Forall_app. split; [exact Hall|].
    apply Forall_forall. intros pt Hpt. apply list_elem_of_filter in Hpt as [Hpt _]. exact Hpt.
Qed.

(** From a list within the target and with fuel for the missing points,
    the loop returns exactly the target count, all in the support. *)
Lemma spoke_loop_returns (dimy dimz order : Z) (step : Q) (fuel : nat) :
  1 <= dimy -> 1 <= dimz ->
  forall (kSpaceList : list point) (angle : Q) (spokeNr : Z),
    Z.of_nat (length kSpaceList) <= dimy * dimz ->
    dimy * dimz - Z.of_nat (length kSpaceList) < Z.of_nat fuel ->
    Forall (in_support dimy dimz) kSpaceList ->
    exists (out : list point) (angle' : Q) (spokeNr' : Z),
      spoke_loop cosd sind fuel dimy dimz order step kSpaceList angle spokeNr
        = Some (out, angle', spokeNr') /\
      Z.of_nat (length out) = dimy * dimz /\
      Forall (in_support dimy dimz) out.
Proof.
  intros Hy Hz. induction fuel as [|fuel IH]; intros kl angle nr Hle Hfuel Hall; [lia|].
  cbn [spoke_loop].
  destruct (Z.ltb_spec (Z.of_nat (length kl)) (dimy * dimz)) as [Hlt|Hge].
  - destruct (add_spoke_grows dimy dimz order kl (angle + step)%Q (nr + 1) Hy Hz)
      as [Hgrow Hin].
    specialize (Hin Hall).
    set (kl' := add_spoke cosd sind dimy dimz order kl (angle + step)%Q (nr + 1)) in *.
    destruct (Z.ltb_spec (dimy * dimz) (Z.of_nat (length kl'))) as [Hover|Hfit].
    + eexists _, _, _. split; [reflexivity|]. split.
      * rewrite length_take. lia.
      * now apply Forall_take.
    + apply IH; [lia|lia|exact Hin].
  - eexists _, _, _. split; [reflexivity|]. split; [lia|exact Hall].
Qed.

End Loop.

(** *** Counting cells *)

Lemma numUnique_le_numTotal (kSpaceList : list point) :
  (numUnique kSpaceList <= numTotal kSpaceList)%nat.
Proof.
  unfold numUnique, numTotal. induction kSpaceList as [|pt l IH]; [reflexivity|].
  simpl. rewrite size_union_alt, size_singleton.
  pose proof (subseteq_size (list_to_set l ∖ {[pt]}) (list_to_set l : gset point)
                ltac:(set_solver)).
  lia.
Qed.

Lemma np_arange_NoDup (lo hi : Z) : NoDup (np_arange lo hi).
Proof.
  unfold np_arange, py_range. apply NoDup_fmap_2; [|apply NoDup_seq].
  intros i j Hij. lia.
Qed.

Lemma mask_cells_NoDup (grid_end : Z -> Z) (dimy dimz : Z) :
  NoDup (mask_cells grid_end dimy dimz).
Proof.
  unfold mask_cells. apply NoDup_filter. apply NoDup_bind.
  - intros y1 y2 pt _ _ H1 H2.
    apply list_elem_of_bind in H1 as (z1 & H1 & _).
    apply list_elem_of_bind in H2 as (z2 & H2 & _).
    apply list_elem_of_singleton in H1, H2. congruence.
  - intros y _. apply NoDup_bind; [|intros; apply NoDup_singleton|apply np_arange_NoDup].
    intros z1 z2 pt _ _ H1 H2.
    apply list_elem_of_singleton in H1, H2. congruence.
  - apply np_arange_NoDup.
Qed.

(** Samples that are all cells of the mask cover no more than the mask. *)
Lemma numUnique_le_mask (grid_end : Z -> Z) (dimy dimz : Z) (kSpaceList : list point) :
  Forall (fun pt => pt ∈ mask_cells grid_end dimy dimz) kSpaceList ->
  (numUnique kSpaceList <= numEllipticalPoints grid_end dimy dimz)%nat.
Proof.
  intros Hall. unfold numUnique, numEllipticalPoints.
  rewrite <- (size_list_to_set (C := gset point) (mask_cells grid_end dimy dimz))
    by apply mask_cells_NoDup.
  apply subseteq_size. intros pt Hpt. apply elem_of_list_to_set in Hpt.
  apply elem_of_list_to_set. rewrite Forall_forall in Hall. now apply Hall.
Qed.

End Radial.

(** ** The golden-angle spiral generator

    [exLUT_3D_spiralTrajectory.py] lines 57-90. Each of the 2000
    repetitions appends the 256 points of the rotated, rescaled arm,
    reversed on even repetitions when [order == 1]; the coordinates are
    then floored to cells:
<<
    numberOfSpirals = 2000
    for ns in range(1, numberOfSpirals + 1):
        ...
        if order == 1 and ns % 2 == 0:
            y = np.flip(y); z = np.flip(z)
        ky.extend(y); kz.extend(z)
    ky = np.floor(np.array(ky) - dimy / 2).astype(int)
    kz = np.floor(np.array(kz) - dimz / 2).astype(int)
    kSpaceList = np.column_stack((ky, kz))
    for _ in range(100):
        diffs = np.diff(kSpaceList, axis=0)
        mask = np.any(diffs != 0, axis=1)
        mask = np.insert(mask, 0, True)
        kSpaceList = kSpaceList[mask]
    loc = np.where((kSpaceList[:, 0] == 0) & (kSpaceList[:, 1] == 0))[0]
    kSpaceList = np.delete(kSpaceList, loc[::2], axis=0)
    kSpaceList = kSpaceList[:dimy * dimz * reps, :]
>>
    The arm is built with a random phase, a power law and trigonometry;
    its cells are a parameter of the model: [arm ns] is the list of cells
    of repetition [ns] in the order of the base arm. *)

Module Spiral.
Import Py Radial.

Definition numberOfSpirals : nat := 2000.
Definition numberOfSpiralPoints : nat := 256.

Definition origin : point := (0, 0).

(** [(kSpaceList[:, 0] == 0) & (kSpaceList[:, 1] == 0)], row by row. *)
Definition is_origin (p : point) : bool := (p.1 =? 0) && (p.2 =? 0).

(** [mask]: the first row, and every row that differs from the one
    before it. *)
Definition np_diff_mask (l : list point) : list bool :=
  true :: zip_with (fun prev cur => bool_decide (cur <> prev)) l (drop 1 l).

(** [a[mask]] for a boolean mask as long as [a]. *)
Fixpoint boolean_index {A : Type} (a : list A) (mask : list bool) : list A :=
  match a, mask with
  | x :: a', b :: mask' =>
      if b then x :: boolean_index a' mask' else boolean_index a' mask'
  | _, _ => []
  end.

(** One pass of the [for _ in range(100)] loop. *)
Definition remove_repeats_pass (l : list point) : list point :=
  boolean_index l (np_diff_mask l).

Definition remove_repeats (l : list point) : list point :=
  Nat.iter 100 remove_repeats_pass l.

(** [np.where(...)[0]] for the rows equal to the origin. *)
Fixpoint where_origin_from (i : nat) (l : list point) : list nat :=
  match l with
  | [] => []
  | p :: t => if is_origin p then i :: where_origin_from (S i) t
              else where_origin_from (S i) t
  end.

(** [loc[::2]]. *)
Fixpoint every_other {A : Type} (loc : list A) : list A :=
  match loc with
  | [] => []
  | [x] => [x]
  | x :: _ :: rest => x :: every_other rest
  end.

(** [np.delete(a, idx, axis=0)] for row numbers within [a], the rows of
    [a] being numbered from [i]. *)
Fixpoint delete_from {A : Type} (i : nat) (a : list A) (idx : list nat) : list A :=
  match a with
  | [] => []
  | x :: a' => if decide (i ∈ idx) then delete_from (S i) a' idx
               else x :: delete_from (S i) a' idx
  end.

Definition prune_origin (l : list point) : list point :=
  delete_from 0 l (every_other (where_origin_from 0 l)).

(** [a[:n]]. *)
Definition py_prefix {A : Type} (a : list A) (n : Z) : list A :=
  take (Z.to_nat (slice_norm (Z.of_nat (length a)) n)) a.

Section Arms.

Variable arm : nat -> list point.

(** The cells repetition [ns] appends. *)
Definition arm_cells (order : Z) (ns : nat) : list point :=
  if (order =? 1) && (Z.of_nat ns mod 2 =? 0) then reverse (arm ns) else arm ns.

(** [kSpaceList] after [np.column_stack]. *)
Definition raw_cells (order : Z) : list point :=
  seq 1 numberOfSpirals ≫= arm_cells order.

Definition spiral_generator (order dimy dimz reps : Z) : list point :=
  py_prefix (prune_origin (remove_repeats (raw_cells order))) (dimy * dimz * reps).

End Arms.

(** *** Pruning as the specification words it: every other visit of the
    origin is removed, the first one first *)

Fixpoint drop_alternate (drop_next : bool) (l : list point) : list point :=
  match l with
  | [] => []
  | p :: t =>
      if is_origin p
      then (if drop_next then drop_alternate false t
            else p :: drop_alternate true t)
      else p :: drop_alternate drop_next t
  end.

(** Visits of the origin. *)
Definition origin_visits (l : list point) : nat :=
  length (filter (fun p => is_origin p = true) l).

(** *** Lengths *)

Lemma length_boolean_index {A : Type} (a : list A) (mask : list bool) :
  (length (boolean_index a mask) <= length a)%nat.
Proof.
  revert mask. induction a as [|x a IH]; intros [|[] mask]; simpl; try lia;
    specialize (IH mask); lia.
Qed.

Lemma length_remove_repeats (l : list point) :
  (length (remove_repeats l) <= length l)%nat.
Proof.
  unfold remove_repeats. generalize 100%nat. intros n.
  induction n as [|n IH]; simpl; [lia|].
  etransitivity; [apply length_boolean_index|exact IH].
Qed.

Lemma length_delete_from {A : Type} (a : list A) (idx : list nat) (i : nat) :
  (length (delete_from i a idx) <= length a)%nat.
Proof.
  revert i. induction a as [|x a IH]; intros i; simpl; [lia|].
  destruct (decide (i ∈ idx)); simpl; specialize (IH (S i)); lia.
Qed.

Lemma length_py_prefix {A : Type} (a : list A) (n : Z) :
  0 <= n -> Z.of_nat (length (py_prefix a n)) = Z.min n (Z.of_nat (length a)).
Proof.
  intros Hn. unfold py_prefix, slice_norm.
  destruct (Z.ltb_spec n 0); [lia|]. rewrite length_take. lia.
Qed.

Lemma length_bind_const {A B : Type} (f : A -> list B) (l : list A) (n : nat) :
  (forall x : A, length (f x) = n) -> length (l ≫= f) = (length l * n)%nat.
Proof.
  intros Hf. induction l as [|x l IH]; [reflexivity|].
  rewrite bind_cons, length_app, IH, Hf. simpl. lia.
Qed.

Lemma length_raw_cells (arm : nat -> list point) (order : Z) :
  (forall ns : nat, length (arm ns) = numberOfSpiralPoints) ->
  length (raw_cells arm order) = (numberOfSpirals * numberOfSpiralPoints)%nat.
Proof.
  intros Harm. unfold raw_cells.
  rewrite (length_bind_const _ _ numberOfSpiralPoints), length_seq; [reflexivity|].
  intros ns. unfold arm_cells.
  destruct ((order =? 1) && (Z.of_nat ns mod 2 =? 0));
    [rewrite length_reverse|]; apply Harm.
Qed.

(** The generator returns the target count when that many cells are left
    after pruning, and all that is left otherwise. *)
Lemma length_spiral_generator (arm : nat -> list point) (order dimy dimz reps : Z) :
  0 <= dimy * dimz * reps ->
  Z.of_nat (length (spiral_generator arm order dimy dimz reps))
  = Z.min (dimy * dimz * reps)
      (Z.of_nat (length (prune_origin (remove_repeats (raw_cells arm order))))).
Proof. intros H. unfold spiral_generator. now apply length_py_prefix. Qed.

Lemma length_pruned_bound (arm : nat -> list point) (order : Z) :
  (forall ns : nat, length (arm ns) = numberOfSpiralPoints) ->
  (length (prune_origin (remove_repeats (raw_cells arm order)))
   <= numberOfSpirals * numberOfSpiralPoints)%nat.
Proof.
  intros Harm. rewrite <- (length_raw_cells arm order Harm).
  etransitivity; [apply length_delete_from|apply length_remove_repeats].
Qed.

(** *** Pruning *)

Lemma where_origin_from_ge (l : list point) (i k : nat) :
  k ∈ where_origin_from i l -> (i <= k)%nat.
Proof.
  revert i. induction l as [|p t IH]; intros i Hk; [inversion Hk|].
  simpl in Hk. destruct (is_origin p).
  - apply elem_of_cons in Hk as [->|Hk]; [lia|]. apply IH in Hk. lia.
  - apply IH in Hk. lia.
Qed.

Lemma every_other_cons {A : Type} (x : A) (l : list A) :
  every_other (x :: l) = x :: every_other (tail l).
Proof. destruct l; reflexivity. Qed.

Lemma every_other_subset_both {A : Type} (l : list A) (x : A) :
  (x ∈ every_other l -> x ∈ l) /\ (x ∈ every_other (tail l) -> x ∈ l).
Proof.
  induction l as [|a l [IH1 IH2]]; [split; intros H; inversion H|].
  rewrite every_other_cons. cbn [tail]. split.
  - intros H. apply elem_of_cons in H as [->|H]; [left|right; now apply IH2].
  - intros H. right. now apply IH1.
Qed.

Lemma every_other_subset {A : Type} (l : list A) (x : A) :
  x ∈ every_other l -> x ∈ l.
Proof. apply every_other_subset_both. Qed.

(** Row numbers below [i] play no part in deleting rows numbered from
    [i]. *)
Lemma delete_from_ext {A : Type} (a : list A) (idx idx' : list nat) :
  forall i : nat,
    (forall k : nat, (i <= k)%nat -> k ∈ idx <-> k ∈ idx') ->
    delete_from i a idx = delete_from i a idx'.
Proof.
  induction a as [|x a IH]; intros i Hext; [reflexivity|]. simpl.
  rewrite (IH (S i)) by (intros k Hk; apply Hext; lia).
  destruct (decide (i ∈ idx)) as [Hi|Hi], (decide (i ∈ idx')) as [Hi'|Hi'];
    try reflexivity; exfalso; apply (Hext i) in Hi || apply (Hext i) in Hi';
    try lia; contradiction.
Qed.

Lemma prune_from (l : list point) :
  forall i : nat,
    delete_from i l (every_other (where_origin_from i l)) = drop_alternate true l /\
    delete_from i l (every_other (tail (where_origin_from i l))) = drop_alternate false l.
Proof.
  induction l as [|p t IH]; intros i; [split; reflexivity|].
  destruct (IH (S i)) as [IHt IHf]. cbn [where_origin_from drop_alternate].
  destruct (is_origin p) eqn:Hp.
  - rewrite every_other_cons. cbn [tail]. split.
    + cbn [delete_from]. destruct (decide (i ∈ i :: every_other (tail (where_origin_from (S i) t))))
        as [_|Hn]; [|exfalso; apply Hn; left].
      rewrite <- IHf. apply delete_from_ext. intros k Hk.
      rewrite elem_of_cons. split; [intros [->|H]; [lia|exact H]|now right].
    + cbn [delete_from].
      destruct (decide (i ∈ every_other (where_origin_from (S i) t))) as [Hi|_].
      * apply every_other_subset, where_origin_from_ge in Hi. lia.
      * now rewrite IHt.
  - split; cbn [delete_from].
    + destruct (decide (i ∈ every_other (where_origin_from (S i) t))) as [Hi|_].
      * apply every_other_subset, where_origin_from_ge in Hi. lia.
      * now rewrite IHt.
    + destruct (decide (i ∈ every_other (tail (where_origin_from (S i) t)))) as [Hi|_].
      * apply every_other_subset in Hi.
        assert (Hi' : i ∈ where_origin_from (S i) t).
        { destruct (where_origin_from (S i) t); [inversion Hi|now right]. }
        apply where_origin_from_ge in Hi'. lia.
      * now rewrite IHf.
Qed.

(** The pruning step removes the first, third, fifth, ... visit. *)
Lemma prune_origin_alternate (l : list point) :
  prune_origin l = drop_alternate true l.
Proof. unfold prune_origin. apply prune_from. Qed.

Lemma drop_alternate_others (l : list point) (b : bool) :
  filter (fun p => is_origin p <> true) (drop_alternate b l)
  = filter (fun p => is_origin p <> true) l.
Proof.
  revert b. induction l as [|p t IH]; intros b; [reflexivity|].
  cbn [drop_alternate]. destruct (is_origin p) eqn:Hp.
  - rewrite (filter_cons_False _ p t) by (rewrite Hp; tauto).
    destruct b; [apply IH|].
    rewrite filter_cons_False by (rewrite Hp; tauto). apply IH.
  - rewrite !filter_cons_True by (rewrite Hp; discriminate). f_equal. apply IH.
Qed.

Lemma drop_alternate_visits (l : list point) :
  origin_visits (drop_alternate true l) = (origin_visits l / 2)%nat /\
  origin_visits (drop_alternate false l) = ((origin_visits l + 1) / 2)%nat.
Proof.
  unfold origin_visits. induction l as [|p t [IHt IHf]]; [split; reflexivity|].
  cbn [drop_alternate]. destruct (is_origin p) eqn:Hp.
  - rewrite (filter_cons_True _ p t) by exact Hp. cbn [length]. split.
    + rewrite IHf. f_equal. lia.
    + rewrite filter_cons_True by exact Hp. cbn [length]. rewrite IHt.
      replace (S (length (filter (fun p0 => is_origin p0 = true) t)) + 1)%nat
        with (length (filter (fun p0 => is_origin p0 = true) t) + 1 * 2)%nat by lia.
      rewrite Nat.div_add by lia. lia.
  - rewrite !filter_cons_False by (rewrite Hp; discriminate). split; assumption.
Qed.

(** Visits are rows of the list, and a start of a list holds no more of
    them than the list. *)
Lemma origin_visits_le_length (l : list point) : (origin_visits l <= length l)%nat.
Proof. unfold origin_visits. apply length_filter. Qed.

Lemma origin_visits_take (n : nat) (l : list point) :
  (origin_visits (take n l) <= origin_visits l)%nat.
Proof.
  unfold origin_visits. revert n. induction l as [|p t IH]; intros [|n]; simpl; try lia.
  specialize (IH n). rewrite !filter_cons. destruct (decide (is_origin p = true)); simpl; lia.
Qed.

(** *** Visits of the origin that survive the compaction *)

Lemma is_origin_true (p : point) : is_origin p = true <-> p = origin.
Proof.
  destruct p as [y z]. unfold is_origin, origin. simpl.
  rewrite andb_true_iff, !Z.eqb_eq. split; [intros [-> ->]; reflexivity|].
  intros [= -> ->]. split; reflexivity.
Qed.

(** The rows kept after the row [prev]. *)
Fixpoint keep_changed (prev : point) (l : list point) : list point :=
  match l with
  | [] => []
  | p :: t => if bool_decide (p <> prev) then p :: keep_changed p t
              else keep_changed p t
  end.

Lemma remove_repeats_pass_cons (a : point) (l : list point) :
  remove_repeats_pass (a :: l) = a :: keep_changed a l.
Proof.
  unfold remove_repeats_pass, np_diff_mask. cbn [boolean_index drop]. f_equal.
  rewrite drop_0. revert a. induction l as [|p t IH]; intros a; [reflexivity|].
  cbn [zip_with boolean_index keep_changed].
  destruct (bool_decide (p <> a)); [f_equal|]; apply IH.
Qed.

(** Steps from the origin to another cell: [leaves prev l] counts them
    along [prev :: l]. *)
Fixpoint leaves (prev : point) (l : list point) : nat :=
  match l with
  | [] => 0
  | p :: t => (if is_origin prev && negb (is_origin p) then 1 else 0) + leaves p t
  end.

Definition exits (l : list point) : nat :=
  match l with
  | [] => 0
  | a :: t => leaves a t
  end.

Lemma leaves_keep_changed (l : list point) :
  forall a : point, leaves a (keep_changed a l) = leaves a l.
Proof.
  induction l as [|p t IH]; intros a; [reflexivity|].
  cbn [keep_changed leaves]. destruct (bool_decide_reflect (p <> a)) as [Hne|Heq].
  - cbn [leaves]. now rewrite IH.
  - assert (p = a) as -> by (destruct (decide (p = a)); [assumption|contradiction]).
    rewrite IH. destruct (is_origin a); reflexivity.
Qed.

Lemma exits_remove_repeats (l : list point) : exits (remove_repeats l) = exits l.
Proof.
  unfold remove_repeats. generalize 100%nat. intros n.
  induction n as [|n IH]; [reflexivity|].
  rewrite Nat.iter_succ. destruct (Nat.iter n remove_repeats_pass l) as [|a t] eqn:Hl.
  - exact IH.
  - rewrite remove_repeats_pass_cons. cbn [exits] in *. now rewrite leaves_keep_changed.
Qed.

Lemma leaves_le_visits (l : list point) :
  forall a : point, (leaves a l <= origin_visits (a :: l))%nat.
Proof.
  unfold origin_visits. induction l as [|p t IH]; intros a; [simpl; lia|].
  cbn [leaves]. specialize (IH p).
  destruct (is_origin a) eqn:Ha.
  - rewrite (filter_cons_True _ a) by exact Ha. cbn [length].
    destruct (negb (is_origin p)); simpl; lia.
  - rewrite (filter_cons_False _ a) by (rewrite Ha; discriminate). simpl. lia.
Qed.

Lemma exits_le_visits (l : list point) : (exits l <= origin_visits l)%nat.
Proof. destruct l as [|a t]; [reflexivity|apply leaves_le_visits]. Qed.

Lemma leaves_app (t l2 : list point) :
  forall a : point, (leaves a t + exits l2 <= leaves a (t ++ l2))%nat.
Proof.
  induction t as [|p t IH]; intros a.
  - destruct l2 as [|b t2]; simpl; lia.
  - cbn [leaves app]. specialize (IH p). change ((p :: t) ++ l2) with (p :: (t ++ l2)).
    cbn [leaves]. lia.
Qed.

Lemma exits_app (l1 l2 : list point) : (exits l1 + exits l2 <= exits (l1 ++ l2))%nat.
Proof.
  destruct l1 as [|a t]; [simpl; lia|]. apply leaves_app.
Qed.

Lemma leaves_from_origin (t : list point) :
  forall a : point,
    is_origin a = true -> (exists p : point, p ∈ t /\ is_origin p = false) ->
    (1 <= leaves a t)%nat.
Proof.
  induction t as [|q t IH]; intros a Ha (p & Hp & Hne); [inversion Hp|].
  cbn [leaves]. rewrite Ha. destruct (is_origin q) eqn:Hq; simpl; [|lia].
  apply elem_of_cons in Hp as [->|Hp]; [congruence|].
  specialize (IH q Hq (ex_intro _ p (conj Hp Hne))). lia.
Qed.

(** An arm that starts on the origin and holds another cell leaves the
    origin at least once. *)
Lemma arm_exits (l : list point) :
  head l = Some origin -> (exists p : point, p ∈ l /\ p <> origin) ->
  (1 <= exits l)%nat.
Proof.
  destruct l as [|a t]; [discriminate|]. intros [= ->] (p & Hp & Hne).
  apply elem_of_cons in Hp as [->|Hp]; [contradiction|].
  cbn [exits]. apply leaves_from_origin; [reflexivity|].
  exists p. split; [exact Hp|].
  destruct (is_origin p) eqn:Ho; [|reflexivity].
  apply is_origin_true in Ho. contradiction.
Qed.

Lemma exits_bind_pairs (f : nat -> list point) (k : nat) :
  (forall ns : nat, Nat.odd ns = true -> (1 <= exits (f ns))%nat) ->
  (k <= exits (seq 1 (2 * k) ≫= f))%nat.
Proof.
  intros Hodd. induction k as [|k IH]; [simpl; lia|].
  replace (2 * S k)%nat with (2 * k + 2)%nat by lia.
  rewrite seq_app, bind_app. cbn [seq]. rewrite !bind_cons.
  pose proof (exits_app (seq 1 (2 * k) ≫= f) (f (1 + 2 * k)%nat ++ f (S (1 + 2 * k)) ++ [] ≫= f)).
  pose proof (exits_app (f (1 + 2 * k)%nat) (f (S (1 + 2 * k)) ++ [] ≫= f)).
  assert (Ho : Nat.odd (1 + 2 * k) = true).
  { rewrite Nat.odd_add_mul_2. reflexivity. }
  specialize (Hodd _ Ho). lia.
Qed.

(** With arms that start on the origin and leave it, the compacted list
    visits the origin at least a thousand times. *)
Lemma visits_after_compaction (arm : nat -> list point) (order : Z) :
  (forall ns : nat, head (arm ns) = Some origin) ->
  (forall ns : nat, exists p : point, p ∈ arm ns /\ p <> origin) ->
  (1000 <= origin_visits (remove_repeats (raw_cells arm order)))%nat.
Proof.
  intros Hhead Hout.
  etransitivity; [|apply exits_le_visits]. rewrite exits_remove_repeats.
  unfold raw_cells. change numberOfSpirals with (2 * 1000)%nat.
  apply exits_bind_pairs. intros ns Hns. unfold arm_cells.
  assert (Hz : (Z.of_nat ns mod 2 =? 0) = false).
  { apply Z.eqb_neq. apply Nat.odd_spec in Hns as [m ->].
    replace (Z.of_nat (2 * m + 1)) with (1 + Z.of_nat m * 2) by lia.
    rewrite Z.mod_add by lia. discriminate. }
  rewrite Hz, andb_false_r. apply arm_exits; [apply Hhead|apply Hout].
Qed.

End Spiral.
(** * The claims *)

Import Py F64 Trim Balancer Zigzag Filling Cartesian Program Radial Spiral.

(** C10. The trimming loop of the balancer terminates on every repeat
    vector. Each pass either leaves the loop or zeroes one entry equal to
    1, which lowers the sum by exactly 1. With fuel for one pass more than
    there are entries equal to 1 the loop returns; the number of passes is
    the amount the sum went down, at most the number of entries equal to 1
    and, from a sum no less than the surplus [E >= 0], at most the sum.
    The sum never drops below the surplus; when the loop is left through
    its test the sum equals the surplus, and when it is left through
    [break] no entry equals 1 and the sum is still above it. *)
Theorem trim_loop_terminates :
  (forall (E : Z) (df : list Z) (pm : bool),
      match trim_step E df pm with
      | inl SumReached => np_sum df <= E
      | inl SafetyBreak => E < np_sum df /\ forall i : nat, df !! i <> Some 1
      | inr (df', pm') =>
          exists i : nat,
            df !! i = Some 1 /\ df' = <[i:=0]> df /\ pm' = negb pm /\
            np_sum df' = np_sum df - 1
      end)
  /\
  (forall (E : Z) (df : list Z) (pm : bool) (spare : nat),
      exists r : trim_result,
        trim_loop (S (count_ones df + spare)) E df pm 0 = Some r /\
        Z.of_nat (iterations r) = np_sum df - np_sum (trimmed r) /\
        (iterations r <= count_ones df)%nat /\
        (E <= np_sum df ->
         E <= np_sum (trimmed r) /\
         (0 <= E -> Z.of_nat (iterations r) <= np_sum df) /\
         (how r = SumReached -> np_sum (trimmed r) = E)) /\
        (how r = SafetyBreak ->
         E < np_sum (trimmed r) /\ forall i : nat, trimmed r !! i <> Some 1)).
Proof.
  split.
  - intros E df pm. destruct (trim_step E df pm) as [e|[df' pm']] eqn:Hstep.
    + pose proof (trim_step_exit _ _ _ _ Hstep) as H. destruct e; [exact H|].
      destruct H as [Hlt H0]. split; [exact Hlt|]. now apply count_ones_zero.
    + destruct (trim_step_body _ _ _ _ _ Hstep) as (i & Hi & -> & -> & _ & Hsum & _).
      exists i. repeat split; assumption.
  - intros E df pm spare.
    destruct (trim_loop_spec (S (count_ones df + spare)) E df pm 0 ltac:(lia))
      as (r & Hr & _ & Hit & Hbd & Hge & _ & Hhow).
    exists r. split; [exact Hr|]. split; [lia|]. split; [lia|]. split.
    + intros HE. specialize (Hge HE). split; [exact Hge|]. split; [lia|].
      intros Hs. rewrite Hs in Hhow. lia.
    + intros Hs. rewrite Hs in Hhow. destruct Hhow as [Hlt H0].
      split; [exact Hlt|]. now apply count_ones_zero.
Qed.

(** The loop on [df = [0;1;1;2;1;1;0]] with surplus 2: four passes, the
    ones zeroed from the two ends in turn. *)
Lemma trim_loop_terminates_witness :
  exists r : trim_result,
    trim_loop 5 2 [0; 1; 1; 2; 1; 1; 0] true 0 = Some r /\
    Z.of_nat (iterations r) = 6 - np_sum (trimmed r) /\
    np_sum (trimmed r) = 2.
Proof.
  destruct (proj2 trim_loop_terminates 2 [0; 1; 1; 2; 1; 1; 0] true 0%nat)
    as (r & Hr & Hit & _ & Hge & _).
  exists r. split; [exact Hr|]. split; [exact Hit|].
  destruct (Hge ltac:(vm_compute; discriminate)) as (_ & _ & Hsum).
  apply Hsum. vm_compute in Hr. injection Hr as <-. reflexivity.
Defined.

(** C1. The balancer misses the sum its own comments promise (the
    function discretises the density so that the sum of [df] equals
    extra_lines, and calls [1 + df] guaranteed to match
    trajectory_length). For sizes 2 and 6 and width 2, a valid
    configuration, the scale-up loop stops at the candidate [[2; 3]] of
    sum 5; no entry equals 1, so the trimming loop is left through its
    safety [break] before its first pass. The repeat counts have length 2
    and no negative entry, but they sum to 5 where the surplus is 4, and
    [1 + df] sums to 7 where the trajectory length is 6. Sizes 4 and 12
    end the same way: the counts [[2; 2; 3; 2]] sum to 9 where the
    surplus is 8. *)
Lemma balancer_overfills :
  valid_config 2 6 2 = true /\
  balancer 20000 2 6 2 = Some (TrimResult [2; 3] 0 SafetyBreak) /\
  length [2; 3] = 2%nat /\ Forall (fun x => 0 <= x) [2; 3] /\
  np_sum [2; 3] <> 6 - 2 /\
  np_sum (one_plus [2; 3]) <> 6 /\
  valid_config 4 12 2 = true /\
  balancer 20000 4 12 2 = Some (TrimResult [2; 2; 3; 2] 0 SafetyBreak) /\
  np_sum [2; 2; 3; 2] <> 12 - 4.
Proof.
  split; [reflexivity|]. split; [exact balancer_2_6_2|].
  split; [reflexivity|]. split; [repeat constructor; lia|].
  split; [vm_compute; discriminate|]. split; [vm_compute; discriminate|].
  split; [reflexivity|]. split; [exact balancer_4_12_2|].
  vm_compute. discriminate.
Qed.

(** When the balancer reaches the surplus and when it does not. For a
    valid configuration whose scale-up loop returned the candidate [c]
    without a negative entry, the repeat counts have length
    targetKspaceSize and no negative entry, and their sum is the larger
    of the surplus and [sum c] less the number of entries of [c] equal to
    1. The trimming loop ends by its test, on the surplus, exactly when
    [c] holds at least [sum c - surplus] entries equal to 1; otherwise it
    ends by its [break], above the surplus, with no entry equal to 1
    left. *)
Theorem balancer_repeat_counts
    (fuel : nat) (N L sigma : Z) (c : list Z) (incr : float) :
  valid_config N L sigma = true ->
  scale_up fuel (density N sigma) 0.9%float (L - N) = Some (c, incr) ->
  Forall (fun x => 0 <= x) c ->
  exists r : trim_result,
    balancer fuel N L sigma = Some r /\
    Z.of_nat (length (trimmed r)) = N /\
    Forall (fun x => 0 <= x) (trimmed r) /\
    L - N <= np_sum (trimmed r) /\
    (how r = SumReached -> np_sum (trimmed r) = L - N) /\
    (how r = SafetyBreak ->
     L - N < np_sum (trimmed r) /\ forall i : nat, trimmed r !! i <> Some 1) /\
    (how r = SumReached <-> np_sum c - (L - N) <= Z.of_nat (count_ones c)) /\
    np_sum (trimmed r) = Z.max (L - N) (np_sum c - Z.of_nat (count_ones c)).
Proof.
  intros Hv Hup Hc. apply valid_config_true in Hv as ((HN & _) & _).
  destruct (balancer_spec fuel N L sigma c incr ltac:(lia) Hup)
    as (r & Hr & Hlen & Hge & Hnn & Hhow).
  exists r. split; [exact Hr|]. split; [lia|]. split; [exact (Hnn Hc)|].
  split; [exact Hge|].
  split; [intros Hs; rewrite Hs in Hhow; exact Hhow|].
  split.
  - intros Hs; rewrite Hs in Hhow.
    destruct Hhow as [Hlt H0]. split; [exact Hlt|]. now apply count_ones_zero.
  - destruct (scale_up_exit _ _ _ _ _ _ Hup) as [_ Hsum].
    unfold balancer in Hr. rewrite Hup in Hr.
    exact (trim_exact_iff (L - N) c r Hr Hsum).
Qed.

(** Sizes 8 and 10, width 2: the counts [[0;0;0;0;1;1;0;0]] sum to 2. *)
Lemma balancer_repeat_counts_witness :
  exists r : trim_result,
    balancer 20000 8 10 2 = Some r /\
    Z.of_nat (length (trimmed r)) = 8 /\
    Forall (fun x => 0 <= x) (trimmed r) /\
    np_sum (trimmed r) = 10 - 8.
Proof.
  destruct scale_up_8_10_2 as [incr Hup].
  destruct (balancer_repeat_counts 20000 8 10 2 _ incr eq_refl Hup)
    as (r & Hr & Hlen & Hnn & _ & Hsum & _).
  { repeat constructor; lia. }
  exists r. split; [exact Hr|]. split; [exact Hlen|]. split; [exact Hnn|].
  apply Hsum. rewrite balancer_8_10_2 in Hr. injection Hr as <-. reflexivity.
Defined.

(** C2. The script's list comes out longer than trajectoryLength where
    the balancer overfills, although the script trims [df] to match the
    trajectory length, and the function returns trajectoryLength entries
    on the same input. For sizes 2 and 6 and width 2, a valid
    configuration, the script's list has 7 entries and the function's
    array 6; for sizes 4 and 12 the script's list has 13 entries and the
    function's array 12. Every value is within the signed range. *)
Lemma script_trajectory_too_long :
  valid_config 2 6 2 = true /\
  trajectory_script 20000 2 6 2 = Some [-1; -1; -1; 0; 0; 0; 0] /\
  length [-1; -1; -1; 0; 0; 0; 0] <> 6%nat /\
  (forall uninit : list Z,
      length uninit = 6%nat ->
      trajectory_function 20000 2 6 2 uninit = Some [-1; -1; -1; 0; 0; 0]) /\
  valid_config 4 12 2 = true /\
  trajectory_script 20000 4 12 2
    = Some [-2; -2; -2; 0; 0; 0; 0; 1; 1; 1; -1; -1; -1] /\
  length [-2; -2; -2; 0; 0; 0; 0; 1; 1; 1; -1; -1; -1] <> 12%nat /\
  (forall uninit : list Z,
      length uninit = 12%nat ->
      trajectory_function 20000 4 12 2 uninit
      = Some [-2; -2; -2; 0; 0; 0; 0; 1; 1; 1; -1; -1]).
Proof.
  unfold trajectory_script, trajectory_function.
  rewrite balancer_2_6_2, balancer_4_12_2. cbn [trimmed].
  split; [reflexivity|]. split; [reflexivity|]. split; [discriminate|].
  split; [|split; [reflexivity|split; [reflexivity|split; [discriminate|]]]].
  - intros uninit Hu.
    rewrite (function_is_prefix 2 [2; 3] uninit)
      by (try reflexivity; try (repeat constructor; lia); rewrite Hu; vm_compute; discriminate).
    rewrite Hu. reflexivity.
  - intros uninit Hu.
    rewrite (function_is_prefix 4 [2; 2; 3; 2] uninit)
      by (try reflexivity; try (repeat constructor; lia); rewrite Hu; vm_compute; discriminate).
    rewrite Hu. reflexivity.
Qed.

(** The lengths and the range of the two trajectories. For a valid
    configuration whose balancer returned repeat counts [r] without a
    negative entry, every value of either trajectory lies in
    [-targetKspaceSize/2, targetKspaceSize/2 - 1]. The function's array
    has exactly trajectoryLength entries, the first trajectoryLength of
    the script's list, which has targetKspaceSize + sum r entries. *)
Theorem trajectory_length_and_range
    (fuel : nat) (N L sigma : Z) (r : trim_result) (uninit : list Z) :
  valid_config N L sigma = true ->
  balancer fuel N L sigma = Some r ->
  Forall (fun x => 0 <= x) (trimmed r) ->
  Z.of_nat (length uninit) = L ->
  exists ts tf : list Z,
    trajectory_script fuel N L sigma = Some ts /\
    trajectory_function fuel N L sigma uninit = Some tf /\
    Forall (in_k_range N) ts /\ Forall (in_k_range N) tf /\
    Z.of_nat (length tf) = L /\ tf = take (length uninit) ts /\
    Z.of_nat (length ts) = N + np_sum (trimmed r) /\
    (how r = SumReached -> Z.of_nat (length ts) = L) /\
    (how r = SafetyBreak -> L < Z.of_nat (length ts)).
Proof.
  intros Hv Hb Hnn Hu. apply valid_config_true in Hv as ((HN & Hev) & _).
  destruct (balancer_inv fuel N L sigma r ltac:(lia) Hb) as (Hlen & Hge & Hhow).
  pose proof (length_zigzag_spec N _ HN Hev Hlen Hnn) as Hl.
  pose proof (zigzag_spec_range N (trimmed r) HN Hev) as Hrange.
  exists (zigzag_spec N (trimmed r)), (take (length uninit) (zigzag_spec N (trimmed r))).
  unfold trajectory_script, trajectory_function. rewrite Hb.
  split; [now apply zigzag_script_spec|].
  split; [apply function_is_prefix; try assumption; lia|].
  split; [exact Hrange|].
  split; [now apply Forall_take|].
  split; [rewrite length_take; lia|].
  split; [reflexivity|]. split; [exact Hl|].
  split; intros Hs; rewrite Hs in Hhow; lia.
Qed.

(** Sizes 8 and 10, width 2: ten values within [-4, 3] in both. *)
Lemma trajectory_length_and_range_witness :
  exists ts tf : list Z,
    trajectory_script 20000 8 10 2 = Some ts /\
    trajectory_function 20000 8 10 2 (replicate 10 0) = Some tf /\
    Forall (in_k_range 8) ts /\ Forall (in_k_range 8) tf /\
    Z.of_nat (length tf) = 10 /\ Z.of_nat (length ts) = 10.
Proof.
  destruct (trajectory_length_and_range 20000 8 10 2 _ (replicate 10 0)
              eq_refl balancer_8_10_2)
    as (ts & tf & Hs & Hf & Hrs & Hrf & Hlf & _ & _ & Hls & _).
  { repeat constructor; simpl; lia. }
  { reflexivity. }
  exists ts, tf. repeat split; try assumption. exact (Hls eq_refl).
Defined.

(** C6. The function does not return the specified sequence where the
    balancer overfills: it writes the copies of each line into an array
    of trajectoryLength entries, and the slice of the last line is cut at
    the end of the array. For sizes 2 and 6 and width 2, a valid
    configuration, the repeat counts are [[2; 3]]; the specified sequence
    holds line 1 three times and line 2 four times, and the script
    returns it; the function's array holds line 2 only three times. For
    sizes 4 and 12 the repeat counts are [[2; 2; 3; 2]], and the function
    emits line 2, the last of the order 1, 3, 4, 2, twice where
    [1 + r[2]] is 3. *)
Lemma function_cuts_sequence :
  valid_config 2 6 2 = true /\
  trimmed <$> balancer 20000 2 6 2 = Some [2; 3] /\
  zigzag_spec 2 [2; 3] = [1 - 2; 1 - 2; 1 - 2; 2 - 2; 2 - 2; 2 - 2; 2 - 2] /\
  trajectory_script 20000 2 6 2 = Some (zigzag_spec 2 [2; 3]) /\
  (forall uninit : list Z,
      length uninit = 6%nat ->
      trajectory_function 20000 2 6 2 uninit
      = Some [1 - 2; 1 - 2; 1 - 2; 2 - 2; 2 - 2; 2 - 2] /\
      trajectory_function 20000 2 6 2 uninit <> Some (zigzag_spec 2 [2; 3])) /\
  valid_config 4 12 2 = true /\
  trimmed <$> balancer 20000 4 12 2 = Some [2; 2; 3; 2] /\
  zigzag_spec 4 [2; 2; 3; 2]
    = [1 - 3; 1 - 3; 1 - 3; 3 - 3; 3 - 3; 3 - 3; 3 - 3;
       4 - 3; 4 - 3; 4 - 3; 2 - 3; 2 - 3; 2 - 3] /\
  trajectory_script 20000 4 12 2 = Some (zigzag_spec 4 [2; 2; 3; 2]) /\
  (forall uninit : list Z,
      length uninit = 12%nat ->
      trajectory_function 20000 4 12 2 uninit
      = Some [1 - 3; 1 - 3; 1 - 3; 3 - 3; 3 - 3; 3 - 3; 3 - 3;
              4 - 3; 4 - 3; 4 - 3; 2 - 3; 2 - 3] /\
      trajectory_function 20000 4 12 2 uninit <> Some (zigzag_spec 4 [2; 2; 3; 2])).
Proof.
  unfold trajectory_script, trajectory_function.
  rewrite balancer_2_6_2, balancer_4_12_2. cbn [trimmed].
  split; [reflexivity|]. split; [reflexivity|]. split; [reflexivity|].
  split; [reflexivity|].
  split; [|split; [reflexivity|split; [reflexivity|split; [reflexivity|split; [reflexivity|]]]]].
  - intros uninit Hu.
    rewrite (function_is_prefix 2 [2; 3] uninit)
      by (try reflexivity; try (repeat constructor; lia); rewrite Hu; vm_compute; discriminate).
    rewrite Hu. split; [reflexivity|]. vm_compute. discriminate.
  - intros uninit Hu.
    rewrite (function_is_prefix 4 [2; 2; 3; 2] uninit)
      by (try reflexivity; try (repeat constructor; lia); rewrite Hu; vm_compute; discriminate).
    rewrite Hu. split; [reflexivity|]. vm_compute. discriminate.
Qed.

(** Where the two programs do return the specified sequence: the odd
    lines 1, 3, ..., N-1 upwards, then the even lines N, N-2, ..., 2
    downwards, each line [k] repeated [1 + r[k]] times, all moved down by
    N/2 + 1. The script returns it for every vector of repeat counts, the
    function when the repeat counts are not negative and fill its array
    exactly. For sizes 4 and 4 (no surplus), at every width whose
    scale-up loop ends on a candidate of entries 0 or 1, the repeat
    counts are all zero and both programs return [[1;3;4;2]] minus 3,
    which is [[-2;0;1;-1]]; the shipped width 8 and the width 2 are such
    widths. *)
Theorem zigzag_order :
  (forall (N : Z) (r : list Z),
      0 < N -> N mod 2 = 0 -> Z.of_nat (length r) = N ->
      zigzag_script N (one_plus r) = Some (zigzag_spec N r)) /\
  (forall (N : Z) (r uninit : list Z),
      0 < N -> N mod 2 = 0 -> Z.of_nat (length r) = N ->
      Forall (fun x => 0 <= x) r ->
      Z.of_nat (length uninit) = N + np_sum r ->
      zigzag_function N uninit (one_plus r) = Some (zigzag_spec N r)) /\
  (forall (fuel : nat) (sigma : Z) (c : list Z) (incr : float),
      scale_up fuel (density 4 sigma) 0.9%float (4 - 4) = Some (c, incr) ->
      Forall (fun x => 0 <= x <= 1) c ->
      trimmed <$> balancer fuel 4 4 sigma = Some [0; 0; 0; 0] /\
      trajectory_script fuel 4 4 sigma = Some [-2; 0; 1; -1] /\
      forall uninit : list Z,
        length uninit = 4%nat ->
        trajectory_function fuel 4 4 sigma uninit = Some [-2; 0; 1; -1]) /\
  (forall sigma : Z,
      sigma = 8 \/ sigma = 2 ->
      trimmed <$> balancer 20000 4 4 sigma = Some [0; 0; 0; 0] /\
      trajectory_script 20000 4 4 sigma = Some [-2; 0; 1; -1] /\
      forall uninit : list Z,
        length uninit = 4%nat ->
        trajectory_function 20000 4 4 sigma uninit = Some [-2; 0; 1; -1]) /\
  zigzag_spec 4 [0; 0; 0; 0] = [1 - 3; 3 - 3; 4 - 3; 2 - 3].
Proof.
  assert (H : forall (fuel : nat) (sigma : Z) (r : trim_result),
             balancer fuel 4 4 sigma = Some r -> trimmed r = [0; 0; 0; 0] ->
             trimmed <$> balancer fuel 4 4 sigma = Some [0; 0; 0; 0] /\
             trajectory_script fuel 4 4 sigma = Some [-2; 0; 1; -1] /\
             forall uninit : list Z,
               length uninit = 4%nat ->
               trajectory_function fuel 4 4 sigma uninit = Some [-2; 0; 1; -1]).
  { intros fuel sigma r Hb Hr. unfold trajectory_script, trajectory_function.
    rewrite Hb, Hr. split; [cbn; now rewrite Hr|]. split; [reflexivity|].
    intros uninit Hu.
    rewrite (function_is_prefix 4 [0; 0; 0; 0] uninit)
      by (try reflexivity; try (repeat constructor; lia); rewrite Hu; vm_compute; discriminate).
    rewrite Hu. reflexivity. }
  split; [exact zigzag_script_spec|]. split; [|split; [|split; [|reflexivity]]].
  - intros N r uninit Hpos Hev Hlen Hnn Hfit.
    rewrite function_is_prefix by (try assumption; lia).
    f_equal. apply take_ge.
    pose proof (length_zigzag_spec N r Hpos Hev Hlen Hnn). lia.
  - intros fuel sigma c incr Hup Hc.
    destruct (balancer_no_surplus fuel 4 sigma c incr ltac:(lia) Hup Hc) as (r & Hb & Hr).
    exact (H fuel sigma r Hb Hr).
  - intros sigma [-> | ->]; eapply H;
      [exact balancer_4_4_8 | reflexivity | exact balancer_4_4_2 | reflexivity].
Qed.

(** Size 6 with repeat counts [[0;1;2;0;0;1]]: lines 1,3,3,3,5,6,6,4,2,2
    minus 4, in the script and in an array of ten entries; and sizes 4 and
    4 at width 8, where the scale-up loop ends on [[0;0;1;0]]. *)
Lemma zigzag_order_witness :
  zigzag_script 6 (one_plus [0; 1; 2; 0; 0; 1])
    = Some [-3; -1; -1; -1; 1; 2; 2; 0; -2; -2] /\
  zigzag_function 6 (replicate 10 0) (one_plus [0; 1; 2; 0; 0; 1])
    = Some [-3; -1; -1; -1; 1; 2; 2; 0; -2; -2] /\
  trajectory_script 20000 4 4 8 = Some [-2; 0; 1; -1].
Proof.
  destruct zigzag_order as (Hs & Hf & Hz & _).
  split; [|split].
  - rewrite (Hs 6 [0; 1; 2; 0; 0; 1]) by (try reflexivity; lia). reflexivity.
  - rewrite (Hf 6 [0; 1; 2; 0; 0; 1] (replicate 10 0))
      by (try reflexivity; try lia; repeat constructor; lia).
    reflexivity.
  - destruct scale_up_4_4_8 as [incr Hup].
    assert (Hc : Forall (fun x => 0 <= x <= 1) [0; 0; 1; 0]).
    { repeat constructor; lia. }
    exact (proj1 (proj2 (Hz 20000%nat 8 _ _ Hup Hc))).
Defined.

(** C7, as written, fails: for size 192 and width 2 (both positive and
    even) the exponent of line 1 is -1152, [np.exp] underflows, and the
    weight is 0.0, which is not above zero. *)
Lemma gauss_weight_underflows :
  mustBePosEvenInt 192 = true /\ mustBePosEvenInt 2 = true /\
  density 192 2 !! 0%nat = Some 0%float /\
  (0 <? 0)%float = false.
Proof. repeat split; vm_compute; reflexivity. Qed.

(** C7, amended. For every positive even size N and every width, the
    weight vector is symmetric about the centre index c = N/2 + 1: the
    lines c - j and c + j, when both lie in 1..N, hold the same float
    (bit for bit, so within any tolerance). For the shipped size 192 and
    width 8 every weight is above zero; far from the centre of a narrow
    profile a weight can underflow to zero. *)
Theorem gauss_weights_symmetric :
  (forall N sigma j : Z,
      0 < N -> N mod 2 = 0 ->
      1 <= N / 2 + 1 - j <= N -> 1 <= N / 2 + 1 + j <= N ->
      exists w : float,
        density N sigma !! Z.to_nat (N / 2 + 1 - j - 1) = Some w /\
        density N sigma !! Z.to_nat (N / 2 + 1 + j - 1) = Some w) /\
  forallb (fun w => 0 <? w)%float (density 192 8) = true.
Proof.
  split; [|vm_compute; reflexivity].
  intros N sigma j Hpos Hev Hlo Hhi.
  destruct (even_size N Hpos Hev) as (m & HN & Hm & Hm0).
  exists (gauss_weight N sigma (N / 2 + 1 + j)). split.
  - rewrite density_lookup by lia. now rewrite gauss_weight_mirror.
  - now rewrite density_lookup by lia.
Qed.

(** Size 8, width 2, centre 5: lines 2 and 8 weigh the same. *)
Lemma gauss_weights_symmetric_witness :
  exists w : float, density 8 2 !! 1%nat = Some w /\ density 8 2 !! 7%nat = Some w.
Proof.
  exact (proj1 gauss_weights_symmetric 8 2 3 ltac:(lia) eq_refl
           ltac:(vm_compute; split; discriminate)
           ltac:(vm_compute; split; discriminate)).
Defined.



(** C5, as written, fails twice. The function lowers the selector before
    comparing, so "GAUSS", which is not "gauss", is accepted: the run
    returns and exports a trajectory. And in both programs the index
    vector [k] is allocated before the selector is looked at: the log of
    a rejected run holds that allocation. *)
Lemma shape_gate_counterexample :
  "GAUSS"%string <> "gauss"%string /\
  generate_cartesian_1d_trajectory 4 4 2 "GAUSS" false true 20000
      [7; 7; 7; 7] [0; 1; 2; 3] []
    = ([Alloc "k"; Alloc "d"; Alloc "df"; Alloc "traj"; Alloc "samples";
        Alloc "filling"; Export 4 4 2 [-2; 0; 1; -1]],
       inr ([-2; 0; 1; -1], Some [1 # 4; 1 # 4; 1 # 4; 1 # 4]%Q)) /\
  script 4 4 "gaus" 2 false 20000 [0; 1; 2; 3] []
    = ([Alloc "k"], inl (ValueError (Msg "Unsupported density shape"))).
Proof.
  split; [discriminate|]. split; vm_compute; reflexivity.
Qed.

(** C5, amended. The script rejects every selector other than "gauss",
    the function every selector whose lower-case form is not "gauss".
    The run then ends in a configuration error with nothing logged but,
    at most, the allocation of the index vector [k]: no density, repeat
    counts or trajectory are computed, nothing is plotted or exported.
    When the three integers pass their checks the error is the
    [ValueError] of the selector and [k] has been allocated. *)
Theorem unsupported_shape_rejected
    (N L sigma : Z) (shape : string) (showPlot plot export : bool)
    (fuel : nat) (uninit samples : list Z) :
  (shape <> "gauss"%string ->
   exists (log : list event) (e : exn),
     script N L shape sigma showPlot fuel samples [] = (log, inl e) /\
     is_config_error e /\
     (log = [] \/ log = [Alloc "k"]) /\
     (valid_ints N L sigma = true ->
      log = [Alloc "k"] /\ e = ValueError (Msg "Unsupported density shape")))
  /\
  (py_lower shape <> "gauss"%string ->
   exists (log : list event) (e : exn),
     generate_cartesian_1d_trajectory N L sigma shape plot export fuel
         uninit samples [] = (log, inl e) /\
     is_config_error e /\
     (log = [] \/ log = [Alloc "k"]) /\
     (valid_ints N L sigma = true ->
      log = [Alloc "k"] /\
      e = ValueError (MsgRepr "Unsupported density_shape: " (PyStr shape) EmptyString))).
Proof.
  split; intros Hshape; apply String.eqb_neq in Hshape.
  - unfold script.
    match goal with
    | |- context [(assert_pos_even N ;;; assert_pos_even L ;;; assert_pos_even sigma ;;; ?k) []] =>
        destruct (checks_script N L sigma k) as [[Hv ->] | [Hv [msg ->]]]
    end.
    + unfold bind at 1. unfold emit at 1. unfold bind at 1. rewrite Hshape.
      unfold raise. simpl.
      eexists _, _. split; [reflexivity|]. split; [exact I|]. split; [now right|].
      intros _. split; reflexivity.
    + eexists _, _. split; [reflexivity|]. split; [exact I|]. split; [now left|].
      intros Hv'. congruence.
  - unfold generate_cartesian_1d_trajectory.
    match goal with
    | |- context [(must_be_pos_even_int N ?a ;;; must_be_pos_even_int L ?b ;;;
                   must_be_pos_even_int sigma ?c ;;; ?k) []] =>
        destruct (checks_function N L sigma k) as [[Hv ->] | [Hv [msg ->]]]
    end.
    + unfold bind at 1. unfold emit at 1. unfold bind at 1. rewrite Hshape.
      unfold raise. simpl.
      eexists _, _. split; [reflexivity|]. split; [exact I|]. split; [now right|].
      intros _. split; reflexivity.
    + eexists _, _. split; [reflexivity|]. split; [exact I|]. split; [now left|].
      intros Hv'. congruence.
Qed.

(** The selector "radial" with sizes 192 and 256 and width 8. *)
Lemma unsupported_shape_rejected_witness :
  script 192 256 "radial" 8 false 0 [] []
    = ([Alloc "k"], inl (ValueError (Msg "Unsupported density shape"))) /\
  generate_cartesian_1d_trajectory 192 256 8 "Radial" true true 0 [] [] []
    = ([Alloc "k"],
       inl (ValueError (MsgRepr "Unsupported density_shape: " (PyStr "Radial") EmptyString))).
Proof.
  destruct (unsupported_shape_rejected 192 256 8 "radial" false true true 0 [] [])
    as [Hs _].
  destruct (unsupported_shape_rejected 192 256 8 "Radial" false true true 0 [] [])
    as [_ Hf].
  destruct (Hs ltac:(discriminate)) as (log & e & Hrun & _ & _ & Hv).
  destruct (Hf ltac:(discriminate)) as (log' & e' & Hrun' & _ & _ & Hv').
  destruct (Hv eq_refl) as [-> ->]. destruct (Hv' eq_refl) as [-> ->].
  split; assumption.
Defined.

(** C3, as written, fails for the spiral generator: it appends 2000 arms
    of 256 points and only ever shortens that list. For a grid of 64 by
    64 and 126 repetitions the target is 516096 cells; whatever the cells
    of the arms, the output holds at most 512000. *)
Lemma spiral_generator_short :
  64 * 64 * 126 = 516096 /\
  forall (arm : nat -> list point) (order : Z),
    (forall ns : nat, length (arm ns) = numberOfSpiralPoints) ->
    Z.of_nat (length (spiral_generator arm order 64 64 126)) <= 512000.
Proof.
  split; [reflexivity|]. intros arm order Harm.
  rewrite length_spiral_generator by (vm_compute; discriminate).
  pose proof (length_pruned_bound arm order Harm) as H.
  apply Nat2Z.inj_le in H. rewrite Nat2Z.inj_mul in H.
  change (Z.of_nat numberOfSpirals) with 2000 in H.
  change (Z.of_nat numberOfSpiralPoints) with 256 in H.
  lia.
Qed.

(** C3, amended. With cosines and sines between -1 and 1, a grid of at
    least one cell each way and a table index from 1 to 10, the spoke
    generator terminates (fuel for dimy*dimz + 1 passes is enough) with
    exactly dimy*dimz coordinates, each of which passes the elliptical
    support test. The spiral generator returns the first dimy*dimz*reps
    cells of its pruned list: exactly that many when the pruned list is
    long enough, and the whole pruned list otherwise, which holds at most
    2000 * 256 cells. *)
Theorem generators_output_length :
  (forall (cosd sind : Q -> Q) (dimy dimz order angleNr : Z) (spare : nat),
      (forall a : Q, (-1 <= cosd a)%Q /\ (cosd a <= 1)%Q) ->
      (forall a : Q, (-1 <= sind a)%Q /\ (sind a <= 1)%Q) ->
      1 <= dimy -> 1 <= dimz -> 1 <= angleNr <= 10 ->
      exists (out : list point) (angle : Q) (spokeNr : Z),
        spoke_generator cosd sind (S (Z.to_nat (dimy * dimz) + spare))
          dimy dimz order angleNr = Some (out, angle, spokeNr) /\
        Z.of_nat (length out) = dimy * dimz /\
        Forall (in_support dimy dimz) out) /\
  (forall (arm : nat -> list point) (order dimy dimz reps : Z),
      0 <= dimy * dimz * reps ->
      let pruned := prune_origin (remove_repeats (raw_cells arm order)) in
      let out := spiral_generator arm order dimy dimz reps in
      out = take (Z.to_nat (dimy * dimz * reps)) pruned /\
      (dimy * dimz * reps <= Z.of_nat (length pruned) ->
       Z.of_nat (length out) = dimy * dimz * reps) /\
      (Z.of_nat (length pruned) <= dimy * dimz * reps -> out = pruned) /\
      ((forall ns : nat, length (arm ns) = numberOfSpiralPoints) ->
       (length out <= numberOfSpirals * numberOfSpiralPoints)%nat)).
Proof.
  split.
  - intros cosd sind dimy dimz order angleNr spare Hc Hs Hy Hz Ha.
    unfold spoke_generator.
    assert (Hstep : exists step : Q, py_get tinyGoldenAngles (angleNr - 1) = Some step).
    { rewrite py_get_nonneg by lia.
      apply lookup_lt_is_Some_2. simpl. lia. }
    destruct Hstep as [step ->].
    apply (spoke_loop_returns cosd sind Hc Hs); try assumption;
      [simpl; nia|simpl; lia|constructor].
  - intros arm order dimy dimz reps Ht pruned out.
    assert (Hout : out = take (Z.to_nat (dimy * dimz * reps)) pruned).
    { subst out pruned. unfold spiral_generator, py_prefix, slice_norm.
      destruct (Z.ltb_spec (dimy * dimz * reps) 0); [lia|].
      set (l := prune_origin (remove_repeats (raw_cells arm order))).
      destruct (Z.le_gt_cases (dimy * dimz * reps) (Z.of_nat (length l))).
      - now rewrite Z.min_l by lia.
      - rewrite Z.min_r by lia. rewrite !take_ge by lia. reflexivity. }
    split; [exact Hout|]. split; [|split].
    + intros Hlong. rewrite Hout, length_take. lia.
    + intros Hshort. rewrite Hout. apply take_ge. lia.
    + intros Harm. rewrite Hout, length_take.
      pose proof (length_pruned_bound arm order Harm). subst pruned. lia.
Qed.

(** An arm of 256 cells that starts on the origin and stays on the cell
    beside it. *)
Definition straight_arm (ns : nat) : list point := origin :: replicate 255 (1, 0).

(** Spokes along the direction (3/5, 4/5) on a grid of 2 by 2, and arms
    of 256 cells. *)
Lemma generators_output_length_witness :
  (exists (out : list point) (angle : Q) (spokeNr : Z),
     spoke_generator (fun _ => 3 # 5)%Q (fun _ => 4 # 5)%Q 5 2 2 1 1
       = Some (out, angle, spokeNr) /\
     Z.of_nat (length out) = 4 /\ Forall (in_support 2 2) out) /\
  (length (spiral_generator straight_arm 1 64 64 1)
   <= numberOfSpirals * numberOfSpiralPoints)%nat.
Proof.
  destruct generators_output_length as [Hspoke Hspiral]. split.
  - apply (Hspoke (fun _ => 3 # 5)%Q (fun _ => 4 # 5)%Q 2 2 1 1 0%nat);
      try lia; intros _; split; discriminate.
  - destruct (Hspiral straight_arm 1 64 64 1
                ltac:(vm_compute; discriminate)) as (_ & _ & _ & H).
    apply H. intros ns. reflexivity.
Defined.

(** The cosine and the sine, to four decimals, of the first three angles
    of the spoke generator run with table index 1 (111.24611, 222.49222
    and 333.73833 degrees); 1 and 0 at any other angle. *)
Definition cosd_index1 (a : Q) : Q :=
  if Qeq_bool a 111.24611 then -0.3624
  else if Qeq_bool a 222.49222 then -0.7374
  else if Qeq_bool a 333.73833 then 0.8968
  else 1.

Definition sind_index1 (a : Q) : Q :=
  if Qeq_bool a 111.24611 then 0.9320
  else if Qeq_bool a 222.49222 then -0.6755
  else if Qeq_bool a 333.73833 then -0.4425
  else 0.

(** C4. The radial program reports a coverage above 100 percent of its
    mask, because the ranges of its mask grid stop below dim // 2 and
    leave out cells that its spoke filter accepts; the grid of the spiral
    program, which ends at the ceiling of dim / 2, holds those cells. On
    a grid of 3 by 3 with table index 1 and alternating order the nine
    samples visit seven cells; the radial mask counts four, and the
    coverage is 175 percent, where the mask of the spiral program counts
    nine (77.8 percent). On a grid of 1 by 1 the only sample is the
    origin; the radial mask is empty and the division fails, where the
    mask of the spiral program holds the one cell (100 percent). *)
Lemma coverage_above_one :
  (fun r => r.1.1) <$> spoke_generator cosd_index1 sind_index1 10 3 3 1 1
    = Some [(1, -1); (0, -1); (0, 0); (0, 1); (-1, 1);
            (-1, -1); (0, 0); (1, 1); (-1, 1)] /\
  numUnique [(1, -1); (0, -1); (0, 0); (0, 1); (-1, 1);
             (-1, -1); (0, 0); (1, 1); (-1, 1)] = 7%nat /\
  numEllipticalPoints grid_end_radial 3 3 = 4%nat /\
  coveredFraction grid_end_radial 3 3
    [(1, -1); (0, -1); (0, 0); (0, 1); (-1, 1); (-1, -1); (0, 0); (1, 1); (-1, 1)]
    = Some (700 # 4)%Q /\
  ~ (700 # 4 <= 100)%Q /\
  numEllipticalPoints grid_end_spiral 3 3 = 9%nat /\
  coveredFraction grid_end_spiral 3 3
    [(1, -1); (0, -1); (0, 0); (0, 1); (-1, 1); (-1, -1); (0, 0); (1, 1); (-1, 1)]
    = Some (700 # 9)%Q /\
  (fun r => r.1.1) <$> spoke_generator cosd_index1 sind_index1 10 1 1 1 1
    = Some [(0, 0)] /\
  numEllipticalPoints grid_end_radial 1 1 = 0%nat /\
  coveredFraction grid_end_radial 1 1 [(0, 0)] = None /\
  coveredFraction grid_end_spiral 1 1 [(0, 0)] = Some (100 # 1)%Q.
Proof.
  repeat split; vm_compute; try reflexivity.
  intros H. apply H. reflexivity.
Qed.

(** The two counts of the analysis. For every sample sequence the count
    of unique coordinates is at most the count of samples. The coverage
    is the unique count over the count of grid cells that pass the
    support test (times 100): it is at most 100 when every sample is one
    of those cells, with the grid of the radial program and with that of
    the spiral program. *)
Theorem coverage_bounds :
  (forall kSpaceList : list point,
      (numUnique kSpaceList <= numTotal kSpaceList)%nat) /\
  (forall (grid_end : Z -> Z) (dimy dimz : Z) (kSpaceList : list point),
      grid_end = grid_end_radial \/ grid_end = grid_end_spiral ->
      Forall (fun pt => pt ∈ mask_cells grid_end dimy dimz) kSpaceList ->
      (numUnique kSpaceList <= numEllipticalPoints grid_end dimy dimz)%nat /\
      forall f : Q,
        coveredFraction grid_end dimy dimz kSpaceList = Some f -> (f <= 100)%Q).
Proof.
  split; [exact numUnique_le_numTotal|].
  intros grid_end dimy dimz l _ Hall.
  pose proof (numUnique_le_mask grid_end dimy dimz l Hall) as Hle.
  split; [exact Hle|]. intros f. unfold coveredFraction.
  destruct (Nat.eqb_spec (numEllipticalPoints grid_end dimy dimz) 0) as [|Hm];
    [discriminate|].
  intros [= <-]. apply Qle_shift_div_r.
  - replace 0%Q with (inject_Z 0) by reflexivity. rewrite <- Zlt_Qlt. lia.
  - apply Qmult_le_l; [reflexivity|]. rewrite <- Zle_Qle. lia.
Qed.

(** Three samples on two cells of a grid of 4 by 4, whose mask holds
    eleven. *)
Lemma coverage_bounds_witness :
  Nat.le (numUnique [(0, 0); (1, 0); (0, 0)]) (numEllipticalPoints grid_end_radial 4 4) /\
  forall f : Q,
    coveredFraction grid_end_radial 4 4 [(0, 0); (1, 0); (0, 0)] = Some f ->
    (f <= 100)%Q.
Proof.
  apply (proj2 coverage_bounds grid_end_radial 4 4 [(0, 0); (1, 0); (0, 0)]
           (or_introl eq_refl)).
  repeat constructor; vm_compute; set_solver.
Defined.

(** C8, as written, fails: the pruned list need not visit the origin
    more than once, and the exported list still less. Three visits leave
    one, and a single visit leaves none. On a grid of 1 by 1 with one
    repetition the exported list is the first row of the pruned list, so
    whatever the cells of the arms it visits the origin at most once. *)
Lemma origin_not_kept_twice :
  origin_visits (prune_origin [origin; (1, 0); origin; (0, 1); origin]) = 1%nat /\
  prune_origin [origin; (1, 0)] = [(1, 0)] /\
  1 * 1 * 1 = 1 /\
  forall (arm : nat -> list point) (order : Z),
    (length (spiral_generator arm order 1 1 1) <= 1)%nat /\
    (origin_visits (spiral_generator arm order 1 1 1) <= 1)%nat.
Proof.
  split; [reflexivity|]. split; [reflexivity|]. split; [reflexivity|].
  intros arm order.
  pose proof (length_spiral_generator arm order 1 1 1 ltac:(lia)) as Hlen.
  pose proof (origin_visits_le_length (spiral_generator arm order 1 1 1)) as Hv.
  lia.
Qed.

(** C8, amended. The pruning step removes every other visit of the origin
    (the first, the third, ...) and nothing else: the other cells keep
    their order, and of [n] visits [n / 2] (rounded down) remain. So the
    pruned list visits the origin more than once exactly when the
    compacted list visits it at least four times. The exported list is a
    start of the pruned list (its first dimy*dimz*reps rows when that
    number is not negative), and it visits the origin no more often than
    the pruned list does. *)
Theorem origin_pruning :
  (forall l : list point,
      prune_origin l = drop_alternate true l /\
      filter (fun p => is_origin p <> true) (prune_origin l)
        = filter (fun p => is_origin p <> true) l /\
      origin_visits (prune_origin l) = (origin_visits l / 2)%nat) /\
  (forall l : list point,
      (2 <= origin_visits (prune_origin l))%nat <-> (4 <= origin_visits l)%nat) /\
  (forall (arm : nat -> list point) (order dimy dimz reps : Z),
      (exists n : nat,
          spiral_generator arm order dimy dimz reps
          = take n (prune_origin (remove_repeats (raw_cells arm order))) /\
          (0 <= dimy * dimz * reps -> n = Z.to_nat (dimy * dimz * reps))) /\
      (origin_visits (spiral_generator arm order dimy dimz reps)
       <= origin_visits (remove_repeats (raw_cells arm order)) / 2)%nat).
Proof.
  split; [|split].
  - intros l. rewrite prune_origin_alternate.
    split; [reflexivity|]. split; [apply drop_alternate_others|].
    apply drop_alternate_visits.
  - intros l. rewrite prune_origin_alternate, (proj1 (drop_alternate_visits l)).
    split; intros H.
    + destruct (Nat.lt_ge_cases (origin_visits l) 4) as [Hlt|]; [|assumption].
      assert (origin_visits l / 2 < 2)%nat
        by (apply Nat.Div0.div_lt_upper_bound; lia).
      lia.
    + apply Nat.div_le_lower_bound; lia.
  - intros arm order dimy dimz reps.
    set (pruned := prune_origin (remove_repeats (raw_cells arm order))).
    assert (Hout : exists n : nat,
               spiral_generator arm order dimy dimz reps = take n pruned /\
               (0 <= dimy * dimz * reps -> n = Z.to_nat (dimy * dimz * reps))).
    { unfold spiral_generator, py_prefix. fold pruned.
      destruct (Z.le_gt_cases 0 (dimy * dimz * reps)) as [Hn|Hn].
      - exists (Z.to_nat (dimy * dimz * reps)). split; [|reflexivity].
        unfold slice_norm. destruct (Z.ltb_spec (dimy * dimz * reps) 0); [lia|].
        destruct (Z.le_gt_cases (dimy * dimz * reps) (Z.of_nat (length pruned))).
        + now rewrite Z.min_l by lia.
        + rewrite Z.min_r by lia. rewrite !take_ge by lia. reflexivity.
      - eexists. split; [reflexivity|lia]. }
    split; [exact Hout|]. destruct Hout as (n & -> & _).
    etransitivity; [apply origin_visits_take|].
    subst pruned. rewrite prune_origin_alternate, (proj1 (drop_alternate_visits _)).
    reflexivity.
Qed.

(** * Further properties of the programs *)

(** ** The balancer's two loops *)

(** Positions zeroed in turn: [df[j] = 0] for every [j] of [js]. *)
Definition zero_at (js : list nat) (df : list Z) : list Z :=
  foldr (fun j acc => <[j:=0]> acc) df js.

(** The scale after [n] runs of [incr += 0.001]. *)
Definition incr_after (n : nat) (incr : float) : float :=
  Nat.iter n (fun x => (x + 0.001)%float) incr.

Lemma trim_loop_pointwise (fuel : nat) (E : Z) :
  forall (df : list Z) (pm : bool) (n : nat) (r : trim_result),
    trim_loop fuel E df pm n = Some r ->
    forall (i : nat) (x : Z),
      df !! i = Some x ->
      trimmed r !! i = Some x \/ (x = 1 /\ trimmed r !! i = Some 0).
Proof.
  induction fuel as [|fuel IH]; intros df pm n r; simpl; [discriminate|].
  destruct (trim_step E df pm) as [e|[df' pm']] eqn:Hstep.
  - intros [= <-] i x Hi. now left.
  - destruct (trim_step_body _ _ _ _ _ Hstep) as (j & Hj & -> & _).
    intros Hr i x Hi. destruct (decide (i = j)) as [->|Hne].
    + assert (x = 1) as -> by congruence. right. split; [reflexivity|].
      destruct (IH _ _ _ _ Hr j 0) as [H|[H _]]; [|exact H|discriminate].
      apply list_lookup_insert_eq. now apply lookup_lt_Some in Hj.
    + apply (IH _ _ _ _ Hr). rewrite list_lookup_insert_ne by congruence. exact Hi.
Qed.

(** X1. The trimming loop only ever turns an entry equal to 1 into 0:
    the vector keeps its length, every entry other than 1 is returned as it
    was, and an entry equal to 1 comes back as 1 or as 0. *)
Theorem trim_only_zeroes_ones :
  forall (E : Z) (df : list Z),
    exists r : trim_result,
      trim E df = Some r /\
      length (trimmed r) = length df /\
      forall (i : nat) (x : Z),
        df !! i = Some x ->
        (x <> 1 -> trimmed r !! i = Some x) /\
        (x = 1 -> trimmed r !! i = Some 1 \/ trimmed r !! i = Some 0).
Proof.
  intros E df.
  destruct (trim_returns E df) as (r & Hr & Hlen & _).
  exists r. split; [exact Hr|]. split; [exact Hlen|].
  intros i x Hi.
  destruct (trim_loop_pointwise _ _ _ _ _ _ Hr i x Hi) as [H|[-> H]].
  - split; [intros _; exact H|intros ->; now left].
  - split; [congruence|intros _; now right].
Qed.

(** *** The order in which the ones go *)

Lemma where_eq_from_ge (v : list Z) (x : Z) (i j : nat) :
  j ∈ where_eq_from i v x -> (i <= j)%nat.
Proof. rewrite where_eq_from_spec. intros (k & -> & _). lia. Qed.

Lemma where_eq_from_NoDup (v : list Z) (x : Z) (i : nat) :
  NoDup (where_eq_from i v x).
Proof.
  revert i. induction v as [|y v IH]; intros i; simpl; [constructor|].
  destruct (y =? x); [|apply IH].
  constructor; [|apply IH].
  intros Hin. apply where_eq_from_ge in Hin. lia.
Qed.

Lemma filter_Forall_id {A : Type} (P : A -> Prop) `{!forall a, Decision (P a)} (l : list A) :
  Forall P l -> filter P l = l.
Proof.
  induction 1 as [|a l Ha _ IH]; [reflexivity|].
  rewrite filter_cons_True by exact Ha. now rewrite IH.
Qed.

(** Zeroing position [k] takes [k] out of [np.where(v == x)], and nothing
    else. *)
Lemma where_eq_from_insert (v : list Z) (x : Z) (i k : nat) :
  x <> 0 ->
  where_eq_from i (<[k:=0]> v) x
  = filter (fun j => j <> (i + k)%nat) (where_eq_from i v x).
Proof.
  intros Hx. revert i k. induction v as [|y v IH]; intros i k; [reflexivity|].
  assert (Hrest : forall s : nat, (i < s)%nat ->
            filter (fun j => j <> i) (where_eq_from s v x) = where_eq_from s v x).
  { intros s Hs. apply filter_Forall_id. apply Forall_forall. intros j Hj.
    apply where_eq_from_ge in Hj. lia. }
  destruct k as [|k].
  - change (<[0%nat:=0]> (y :: v)) with (0 :: v). cbn [where_eq_from].
    destruct (Z.eqb_spec 0 x) as [|_]; [congruence|].
    replace (i + 0)%nat with i by lia.
    destruct (y =? x).
    + rewrite filter_cons_False by (intros H; now apply H).
      symmetry. apply Hrest. lia.
    + symmetry. apply Hrest. lia.
  - change (<[S k:=0]> (y :: v)) with (y :: <[k:=0]> v). cbn [where_eq_from].
    specialize (IH (S i) k).
    replace (S i + k)%nat with (i + S k)%nat in IH by lia.
    destruct (y =? x); [|exact IH].
    rewrite filter_cons_True by lia. now rewrite IH.
Qed.

Lemma filter_ne_head (j : nat) (l : list nat) :
  NoDup (j :: l) -> filter (fun i => i <> j) (j :: l) = l.
Proof.
  intros Hnd. apply NoDup_cons in Hnd as [Hj _].
  rewrite filter_cons_False by (intros H; now apply H).
  apply filter_Forall_id. apply Forall_forall. intros i Hi ->. contradiction.
Qed.

Lemma filter_ne_last (j : nat) (l : list nat) :
  NoDup (l ++ [j]) -> filter (fun i => i <> j) (l ++ [j]) = l.
Proof.
  intros Hnd. apply NoDup_app in Hnd as (_ & Hj & _).
  rewrite filter_app, filter_cons_False by (intros H; now apply H).
  rewrite filter_nil, app_nil_r.
  apply filter_Forall_id. apply Forall_forall. intros i Hi ->.
  apply (Hj j Hi). left.
Qed.

Lemma last_of_snoc (i j : nat) (rest l : list nat) :
  i :: rest = l ++ [j] -> last_of i rest = j.
Proof.
  unfold last_of. destruct l as [|a l]; simpl; intros [= -> Hrest].
  - now destruct rest.
  - subst rest. apply List.last_last.
Qed.

Lemma zero_at_insert (js : list nat) (j : nat) (df : list Z) :
  zero_at js (<[j:=0]> df) = <[j:=0]> (zero_at js df).
Proof.
  induction js as [|a js IH]; [reflexivity|].
  cbn [zero_at foldr]. fold (zero_at js (<[j:=0]> df)). fold (zero_at js df).
  rewrite IH. destruct (decide (a = j)) as [->|Hne].
  - reflexivity.
  - apply list_insert_insert_ne. exact Hne.
Qed.

Lemma zero_at_snoc (js : list nat) (j : nat) (df : list Z) :
  zero_at (js ++ [j]) df = zero_at js (<[j:=0]> df).
Proof. unfold zero_at. now rewrite foldr_app. Qed.

(** The loop invariant: after [k] passes the ones zeroed are the first
    and the last of [np.where(df == 1)], shared out by the toggle. *)
Lemma trim_loop_outer (fuel : nat) (E : Z) :
  forall (df : list Z) (pm : bool) (n : nat) (r : trim_result),
    trim_loop fuel E df pm n = Some r ->
    let ones := np_where_eq df 1 in
    let k := (iterations r - n)%nat in
    let a := ((k + (if pm then 1 else 0)) / 2)%nat in
    let b := ((k + (if pm then 0 else 1)) / 2)%nat in
    (n <= iterations r)%nat /\ (k <= length ones)%nat /\
    trimmed r = zero_at (take a ones ++ drop (length ones - b) ones) df /\
    np_where_eq (trimmed r) 1 = take (length ones - k) (drop a ones).
Proof.
  induction fuel as [|fuel IH]; intros df pm n r; cbn [trim_loop]; [discriminate|].
  cbv zeta.
  assert (Hexit : Some (TrimResult df n SumReached) = Some r \/
                  Some (TrimResult df n SafetyBreak) = Some r ->
                  (n <= iterations r)%nat /\
                  (iterations r - n <= length (np_where_eq df 1))%nat /\
                  trimmed r
                  = zero_at (take ((iterations r - n + (if pm then 1 else 0)) / 2)
                               (np_where_eq df 1)
                             ++ drop (length (np_where_eq df 1)
                                      - (iterations r - n + (if pm then 0 else 1)) / 2)
                                  (np_where_eq df 1)) df /\
                  np_where_eq (trimmed r) 1
                  = take (length (np_where_eq df 1) - (iterations r - n))
                      (drop ((iterations r - n + (if pm then 1 else 0)) / 2)
                         (np_where_eq df 1))).
  { intros [[= <-]|[= <-]]; simpl; replace (n - n)%nat with 0%nat by lia;
      (split; [lia|]); (split; [lia|]);
      (split; [destruct pm; simpl; rewrite Nat.sub_0_r, drop_all; reflexivity|]);
      destruct pm; simpl; rewrite Nat.sub_0_r; symmetry; apply take_ge; lia. }
  unfold trim_step.
  destruct (E <? np_sum df); [|intros H; apply Hexit; now left].
  destruct (np_where_eq df 1) as [|i rest] eqn:Hloc.
  { intros H. apply Hexit. now right. }
  clear Hexit.
  intros Hr. specialize (IH _ _ _ _ Hr). cbv zeta in IH.
  assert (Hnd : NoDup (i :: rest)).
  { rewrite <- Hloc. apply where_eq_from_NoDup. }
  destruct pm.
  - (* the first one goes *)
    assert (Hones : np_where_eq (<[i:=0]> df) 1 = rest).
    { unfold np_where_eq in *. rewrite where_eq_from_insert by lia.
      rewrite Hloc. simpl. now apply filter_ne_head. }
    rewrite Hones in IH. destruct IH as (Hn & Hk & Heq & Hleft). cbn [negb] in Heq, Hleft.
    set (k' := (iterations r - S n)%nat) in *.
    replace (iterations r - n)%nat with (S k') by lia.
    replace ((S k' + 1) / 2)%nat with (S ((k' + 0) / 2))%nat; cycle 1.
    { replace (S k' + 1)%nat with (k' + 0 + 1 * 2)%nat by lia.
      rewrite Nat.div_add by lia. lia. }
    replace ((S k' + 0) / 2)%nat with ((k' + 1) / 2)%nat by (f_equal; lia).
    assert (Hb : ((k' + 1) / 2 <= length rest)%nat).
    { destruct k' as [|k'']; [simpl; lia|].
      apply Nat.Div0.div_le_upper_bound; lia. }
    split; [lia|]. split; [simpl; lia|]. split.
    + rewrite Heq, zero_at_insert. cbn [take length].
      replace (S (length rest) - (k' + 1) / 2)%nat
        with (S (length rest - (k' + 1) / 2))%nat by lia.
      reflexivity.
    + rewrite Hleft. reflexivity.
  - (* the last one goes *)
    destruct (exists_last (l := i :: rest) ltac:(discriminate)) as (front & j & Hsnoc).
    pose proof (last_of_snoc _ _ _ _ Hsnoc) as Hlast. rewrite Hlast in *.
    rewrite Hsnoc in *.
    assert (Hones : np_where_eq (<[j:=0]> df) 1 = front).
    { unfold np_where_eq in *. rewrite where_eq_from_insert by lia.
      rewrite Hloc. simpl. now apply filter_ne_last. }
    rewrite Hones in IH. destruct IH as (Hn & Hk & Heq & Hleft). cbn [negb] in Heq, Hleft.
    set (k' := (iterations r - S n)%nat) in *.
    replace (iterations r - n)%nat with (S k') by lia.
    rewrite length_app. simpl length.
    replace ((S k' + 0) / 2)%nat with ((k' + 1) / 2)%nat by (f_equal; lia).
    replace ((S k' + 1) / 2)%nat with (S ((k' + 0) / 2))%nat; cycle 1.
    { replace (S k' + 1)%nat with (k' + 0 + 1 * 2)%nat by lia.
      rewrite Nat.div_add by lia. lia. }
    assert (Ha : ((k' + 1) / 2 <= length front)%nat).
    { destruct k' as [|k'']; [simpl; lia|].
      apply Nat.Div0.div_le_upper_bound; lia. }
    assert (Hak : ((k' + 1) / 2 <= k' + 1)%nat).
    { apply Nat.Div0.div_le_upper_bound; lia. }
    assert (Hb : ((k' + 0) / 2 <= length front)%nat).
    { apply Nat.Div0.div_le_upper_bound; lia. }
    split; [lia|]. split; [lia|]. split.
    + rewrite Heq. rewrite take_app_le by exact Ha.
      replace (length front + 1 - S ((k' + 0) / 2))%nat
        with (length front - (k' + 0) / 2)%nat by lia.
      rewrite drop_app_le by lia.
      rewrite app_assoc, zero_at_snoc. reflexivity.
    + rewrite Hleft. rewrite drop_app_le by exact Ha.
      replace (length front + 1 - S k')%nat with (length front - k')%nat by lia.
      symmetry. apply take_app_le. rewrite length_drop.
      destruct k' as [|k'']; [simpl; lia|].
      assert ((S k'' + 1) / 2 <= S k'')%nat by (apply Nat.Div0.div_le_upper_bound; lia).
      lia.
Qed.

(** X2. The trimming loop takes the ones from the two ends in turn,
    the low end first: when it has run [k] passes, the entries it has
    zeroed are the first [ceil(k/2)] and the last [floor(k/2)] positions
    of [np.where(df == 1)], and the ones that are left are the [k] fewer
    in the middle. *)
Theorem trim_zeroes_outer_ones :
  forall (E : Z) (df : list Z),
    exists r : trim_result,
      trim E df = Some r /\
      let ones := np_where_eq df 1 in
      let k := iterations r in
      (k <= length ones)%nat /\
      trimmed r
      = zero_at (take ((k + 1) / 2) ones ++ drop (length ones - k / 2) ones) df /\
      np_where_eq (trimmed r) 1
      = take (length ones - k) (drop ((k + 1) / 2) ones).
Proof.
  intros E df. destruct (trim_returns E df) as (r & Hr & _).
  exists r. split; [exact Hr|].
  destruct (trim_loop_outer _ _ _ _ _ _ Hr) as (_ & Hk & Heq & Hleft).
  rewrite Nat.sub_0_r, Nat.add_0_r in *.
  repeat split; assumption.
Qed.

(** *** The scale-up loop as a search *)

Lemma scale_up_first (fuel : nat) (d : list float) (E : Z) :
  forall (incr : float) (c : list Z) (incr' : float),
    scale_up fuel d incr E = Some (c, incr') <->
    exists n : nat,
      (n < fuel)%nat /\ incr' = incr_after n incr /\ c = scaled d incr' /\
      E < np_sum c /\
      forall m : nat, (m < n)%nat -> np_sum (scaled d (incr_after m incr)) <= E.
Proof.
  induction fuel as [|fuel IH]; intros incr c incr'; cbn [scale_up].
  - split; [discriminate|]. intros (n & Hn & _). lia.
  - cbv zeta. destruct (Z.leb_spec (np_sum (scaled d incr)) E) as [Hle|Hgt].
    + rewrite IH. split.
      * intros (n & Hn & Hi & Hc & Hsum & Hmin). exists (S n).
        split; [lia|]. unfold incr_after in *. rewrite Nat.iter_succ_r.
        split; [exact Hi|]. split; [exact Hc|]. split; [exact Hsum|].
        intros [|m] Hm; [exact Hle|]. rewrite Nat.iter_succ_r. apply Hmin. lia.
      * intros ([|n] & Hn & Hi & Hc & Hsum & Hmin).
        { simpl in Hi. subst incr' c. lia. }
        exists n. split; [lia|]. unfold incr_after in *.
        rewrite Nat.iter_succ_r in Hi.
        split; [exact Hi|]. split; [exact Hc|]. split; [exact Hsum|].
        intros m Hm. specialize (Hmin (S m) ltac:(lia)).
        now rewrite Nat.iter_succ_r in Hmin.
    + split.
      * intros [= <- <-]. exists 0%nat. split; [lia|]. split; [reflexivity|].
        split; [reflexivity|]. split; [exact Hgt|]. intros m Hm. lia.
      * intros ([|n] & Hn & Hi & Hc & Hsum & Hmin).
        { simpl in Hi. now subst incr' c. }
        specialize (Hmin 0%nat ltac:(lia)). simpl in Hmin. lia.
Qed.

(** X3. The scale-up loop is a linear search: it returns the first
    scale of the sequence 0.9, 0.9 + 0.001, (0.9 + 0.001) + 0.001, ...
    (binary64 sums) whose rounded candidate sums to more than the surplus,
    together with that candidate; at every scale before it the sum was at
    most the surplus. With fuel for [n + 1] tests it returns the scale
    number [n], and it returns nothing else. *)
Theorem scale_up_first_above :
  forall (fuel : nat) (d : list float) (E : Z) (c : list Z) (incr : float),
    scale_up fuel d 0.9%float E = Some (c, incr) <->
    exists n : nat,
      (n < fuel)%nat /\ incr = incr_after n 0.9%float /\ c = scaled d incr /\
      E < np_sum c /\
      forall m : nat,
        (m < n)%nat -> np_sum (scaled d (incr_after m 0.9%float)) <= E.
Proof. intros fuel d E c incr. apply scale_up_first. Qed.

(** ** How often the zigzag visits a line *)

(** Entries of [l] equal to [v]. *)
Definition occurrences (v : Z) (l : list Z) : nat :=
  length (filter (fun t => t = v) l).

Lemma occurrences_app (v : Z) (l1 l2 : list Z) :
  occurrences v (l1 ++ l2) = (occurrences v l1 + occurrences v l2)%nat.
Proof. unfold occurrences. now rewrite filter_app, length_app. Qed.

Lemma occurrences_replicate (v x : Z) (n : nat) :
  occurrences v (replicate n x) = if decide (x = v) then n else 0%nat.
Proof.
  unfold occurrences. induction n as [|n IH]; simpl.
  - now destruct (decide (x = v)).
  - destruct (decide (x = v)) as [Hx|Hx].
    + rewrite filter_cons_True by exact Hx. simpl. now rewrite IH.
    + rewrite filter_cons_False by exact Hx. exact IH.
Qed.

Lemma occurrences_Permutation (v : Z) (l1 l2 : list Z) :
  l1 ≡ₚ l2 -> occurrences v l1 = occurrences v l2.
Proof. intros H. unfold occurrences. now rewrite H. Qed.

Lemma occurrences_shift (v c : Z) (l : list Z) :
  occurrences (v - c) ((fun k => k - c) <$> l) = occurrences v l.
Proof.
  unfold occurrences. induction l as [|x l IH]; [reflexivity|].
  rewrite fmap_cons. destruct (decide (x = v)) as [Hx|Hx].
  - rewrite !filter_cons_True by lia. simpl. now rewrite IH.
  - rewrite !filter_cons_False by lia. exact IH.
Qed.

Lemma occurrences_NoDup (v : Z) (l : list Z) :
  NoDup l -> occurrences v l = if decide (v ∈ l) then 1%nat else 0%nat.
Proof.
  unfold occurrences. induction 1 as [|x l Hx Hnd IH]; simpl.
  - destruct (decide (v ∈ [])) as [H|_]; [inversion H|reflexivity].
  - destruct (decide (x = v)) as [->|Hne].
    + rewrite filter_cons_True by reflexivity. simpl. rewrite IH.
      destruct (decide (v ∈ l)); [contradiction|].
      destruct (decide (v ∈ v :: l)) as [_|H]; [reflexivity|].
      exfalso. apply H. left.
    + rewrite filter_cons_False by exact Hne. rewrite IH.
      destruct (decide (v ∈ l)) as [Hin|Hin];
        destruct (decide (v ∈ x :: l)) as [Hin'|Hin']; try reflexivity.
      * exfalso. apply Hin'. now right.
      * exfalso. apply elem_of_cons in Hin' as [->|Hin']; [now apply Hne|contradiction].
Qed.

(** Line [k] is copied [length (copies r k)] times for each time it is
    listed. *)
Lemma occurrences_copies (r : list Z) (k : Z) (lines : list Z) :
  occurrences k (lines ≫= copies r)
  = (occurrences k lines * length (copies r k))%nat.
Proof.
  induction lines as [|a lines IH]; [reflexivity|].
  rewrite bind_cons, occurrences_app, IH.
  change (a :: lines) with ([a] ++ lines). rewrite (occurrences_app k [a] lines).
  unfold copies at 1. rewrite occurrences_replicate.
  unfold occurrences at 2. destruct (decide (a = k)) as [->|Hne].
  - rewrite filter_cons_True by reflexivity. simpl. unfold copies.
    rewrite length_replicate. lia.
  - rewrite filter_cons_False by exact Hne. simpl. lia.
Qed.

Lemma lines_1_N (m : nat) (k : Z) :
  k ∈ ((fun i : nat => Z.of_nat i + 1) <$> seq 0 m) <-> 1 <= k <= Z.of_nat m.
Proof.
  rewrite list_elem_of_fmap. split.
  - intros (i & -> & Hi). apply elem_of_seq in Hi. lia.
  - intros Hk. exists (Z.to_nat (k - 1)). split; [lia|]. apply elem_of_seq. lia.
Qed.

Lemma lines_1_N_NoDup (m : nat) :
  NoDup ((fun i : nat => Z.of_nat i + 1) <$> seq 0 m).
Proof.
  apply NoDup_fmap_2; [|apply NoDup_seq]. intros i j H. lia.
Qed.

(** The specified order holds line [k] as often as it is copied, and no
    other value. *)
Lemma occurrences_zigzag_spec (N : Z) (r : list Z) (k : Z) :
  0 < N -> N mod 2 = 0 ->
  occurrences (k - (N / 2 + 1)) (zigzag_spec N r)
  = if decide (1 <= k <= N) then length (copies r k) else 0%nat.
Proof.
  intros Hpos Hev.
  destruct (even_size N Hpos Hev) as (m & HN & Hm & Hm0).
  unfold zigzag_spec. rewrite occurrences_shift, <- bind_app.
  unfold odd_lines_up, even_lines_down. rewrite Hm.
  replace ((fun j : nat => N - 2 * Z.of_nat j) <$> seq 0 m)
    with ((fun j : nat => 2 * Z.of_nat m - 2 * Z.of_nat j) <$> seq 0 m)
    by (apply list_fmap_ext; intros; lia).
  rewrite occurrences_copies, (occurrences_Permutation _ _ _ (lines_Permutation m)).
  rewrite occurrences_NoDup by apply lines_1_N_NoDup.
  destruct (decide (k ∈ (fun i : nat => Z.of_nat i + 1) <$> seq 0 (2 * m))) as [Hin|Hin];
    rewrite lines_1_N in Hin;
    destruct (decide (1 <= k <= N)) as [Hk|Hk]; try lia.
Qed.

(** X4. In the script's trajectory every line [k] of 1..N occurs exactly
    [1 + r[k]] times (not at all when that number is negative), as the
    value [k - (N/2 + 1)], and no other value occurs. With repeat counts
    that are not negative every line is therefore acquired at least once,
    and the function's array, when the counts fill it exactly, holds the
    same. *)
Theorem every_line_repeated (N : Z) (r : list Z) :
  0 < N -> N mod 2 = 0 -> Z.of_nat (length r) = N ->
  exists ts : list Z,
    zigzag_script N (one_plus r) = Some ts /\
    (forall k x : Z,
        1 <= k <= N -> r !! Z.to_nat (k - 1) = Some x ->
        occurrences (k - (N / 2 + 1)) ts = Z.to_nat (1 + x)) /\
    (forall v : Z, ~ (- (N / 2) <= v <= N / 2 - 1) -> occurrences v ts = 0%nat) /\
    (Forall (fun x => 0 <= x) r ->
     (forall v : Z, - (N / 2) <= v <= N / 2 - 1 -> (1 <= occurrences v ts)%nat) /\
     forall uninit : list Z,
       Z.of_nat (length uninit) = N + np_sum r ->
       zigzag_function N uninit (one_plus r) = Some ts).
Proof.
  intros Hpos Hev Hlen.
  destruct (even_size N Hpos Hev) as (m & HN & Hm & Hm0).
  exists (zigzag_spec N r). split; [now apply zigzag_script_spec|].
  assert (Hocc : forall k x : Z,
             1 <= k <= N -> r !! Z.to_nat (k - 1) = Some x ->
             occurrences (k - (N / 2 + 1)) (zigzag_spec N r) = Z.to_nat (1 + x)).
  { intros k x Hk Hx. rewrite occurrences_zigzag_spec by assumption.
    destruct (decide (1 <= k <= N)); [|lia].
    unfold copies. now rewrite length_replicate, Hx. }
  split; [exact Hocc|]. split; [|intros Hnn; split].
  - intros v Hv.
    replace v with (v + (N / 2 + 1) - (N / 2 + 1)) by lia.
    rewrite occurrences_zigzag_spec by assumption.
    destruct (decide (1 <= v + (N / 2 + 1) <= N)); [lia|reflexivity].
  - intros v Hv.
    destruct (lookup_lt_is_Some_2 r (Z.to_nat (v + (N / 2 + 1) - 1)) ltac:(lia))
      as [x Hx].
    pose proof (Hocc (v + (N / 2 + 1)) x ltac:(lia) Hx) as H.
    replace (v + (N / 2 + 1) - (N / 2 + 1)) with v in H by lia.
    rewrite H. rewrite Forall_lookup in Hnn. specialize (Hnn _ _ Hx).
    simpl in Hnn. lia.
  - intros uninit Hu.
    rewrite function_is_prefix by (try assumption; lia). f_equal.
    apply take_ge. pose proof (length_zigzag_spec N r Hpos Hev Hlen Hnn). lia.
Qed.

(** Size 4 with repeat counts [[0;1;1;0]]: the lines 2 and 3 twice. *)
Lemma every_line_repeated_witness :
  exists ts : list Z,
    zigzag_script 4 (one_plus [0; 1; 1; 0]) = Some ts /\
    occurrences (-1) ts = 2%nat /\ occurrences (-2) ts = 1%nat /\
    occurrences 2 ts = 0%nat.
Proof.
  destruct (every_line_repeated 4 [0; 1; 1; 0] ltac:(lia) eq_refl eq_refl)
    as (ts & Hs & Hocc & Hout & _).
  exists ts. split; [exact Hs|]. split; [|split].
  - exact (Hocc 2 1 ltac:(lia) eq_refl).
  - exact (Hocc 1 0 ltac:(lia) eq_refl).
  - apply Hout. vm_compute. intros [_ H]. apply H. reflexivity.
Defined.

(** ** The steps of the zigzag *)

(** Along [prev :: l] no entry is further than [b] from the one before. *)
Fixpoint steps_from (b prev : Z) (l : list Z) : Prop :=
  match l with
  | [] => True
  | x :: t => Z.abs (x - prev) <= b /\ steps_from b x t
  end.

Definition steps_within (b : Z) (l : list Z) : Prop :=
  match l with
  | [] => True
  | x :: t => steps_from b x t
  end.

Lemma steps_from_lookup (b : Z) (l : list Z) :
  forall prev : Z,
    steps_from b prev l ->
    forall (i : nat) (x y : Z),
      (prev :: l) !! i = Some x -> (prev :: l) !! S i = Some y -> Z.abs (y - x) <= b.
Proof.
  induction l as [|a l IH]; intros prev H i x y Hx Hy.
  - destruct i; discriminate.
  - destruct H as [Ha Hl]. destruct i as [|i].
    + simpl in Hx, Hy. congruence.
    + exact (IH a Hl i x y Hx Hy).
Qed.

Lemma steps_within_lookup (b : Z) (l : list Z) :
  steps_within b l ->
  forall (i : nat) (x y : Z), l !! i = Some x -> l !! S i = Some y -> Z.abs (y - x) <= b.
Proof.
  destruct l as [|a l]; [intros _ i x y H; destruct i; discriminate|].
  apply steps_from_lookup.
Qed.

Lemma steps_from_take (b : Z) (l : list Z) :
  forall (prev : Z) (n : nat), steps_from b prev l -> steps_from b prev (take n l).
Proof.
  induction l as [|a l IH]; intros prev [|n] H; simpl; try exact I.
  destruct H as [Ha Hl]. split; [exact Ha|now apply IH].
Qed.

Lemma steps_within_take (b : Z) (l : list Z) (n : nat) :
  steps_within b l -> steps_within b (take n l).
Proof.
  destruct l as [|a l], n as [|n]; simpl; try tauto. apply steps_from_take.
Qed.

Lemma steps_from_shift (b c : Z) (l : list Z) :
  forall prev : Z,
    steps_from b prev l -> steps_from b (prev - c) ((fun k => k - c) <$> l).
Proof.
  induction l as [|a l IH]; intros prev H; [exact I|].
  destruct H as [Ha Hl]. rewrite fmap_cons. split; [|now apply IH].
  replace (a - c - (prev - c)) with (a - prev) by lia. exact Ha.
Qed.

Lemma steps_from_replicate_app (b k : Z) (m : nat) (l : list Z) :
  0 <= b -> steps_from b k l -> steps_from b k (replicate m k ++ l).
Proof.
  intros Hb Hl. induction m as [|m IH]; [exact Hl|].
  simpl. split; [|exact IH]. rewrite Z.sub_diag. simpl. exact Hb.
Qed.

(** Lines no further than [b] apart stay so when each is repeated at
    least once. *)
Lemma steps_from_copies (b : Z) (r : list Z) (lines : list Z) :
  0 <= b -> Forall (fun x => 0 <= x) r ->
  forall prev : Z, steps_from b prev lines -> steps_from b prev (lines ≫= copies r).
Proof.
  intros Hb Hnn. induction lines as [|k rest IH]; intros prev H; [exact I|].
  destruct H as [Hk Hrest]. rewrite bind_cons. unfold copies at 1.
  assert (Hx : 0 <= default 0 (r !! Z.to_nat (k - 1))).
  { destruct (r !! Z.to_nat (k - 1)) as [x|] eqn:Hl; simpl; [|lia].
    rewrite Forall_lookup in Hnn. exact (Hnn _ _ Hl). }
  replace (Z.to_nat (1 + default 0 (r !! Z.to_nat (k - 1))))
    with (S (Z.to_nat (default 0 (r !! Z.to_nat (k - 1))))) by lia.
  simpl. split; [exact Hk|].
  apply steps_from_replicate_app; [exact Hb|]. now apply IH.
Qed.

(** A run [f s, f (s+1), ..., f (s+m-1)] of steps within [b], put before
    [l]. *)
Lemma steps_from_run (f : nat -> Z) (b : Z) (l : list Z) :
  (forall j : nat, Z.abs (f (S j) - f j) <= b) ->
  forall (m s : nat) (prev : Z),
    match m with
    | O => steps_from b prev l
    | S m' => Z.abs (f s - prev) <= b /\ steps_from b (f (s + m')%nat) l
    end ->
    steps_from b prev ((f <$> seq s m) ++ l).
Proof.
  intros Hf. induction m as [|m IH]; intros s prev H; [exact H|].
  destruct H as [Hs Hl]. simpl. split; [exact Hs|].
  apply IH. destruct m as [|m'].
  - now rewrite Nat.add_0_r in Hl.
  - split; [apply Hf|]. now replace (S s + m')%nat with (s + S m')%nat by lia.
Qed.

(** The lines in the order of the zigzag are at most 2 apart. *)
Lemma steps_zigzag_lines (m : nat) :
  (0 < m)%nat ->
  steps_within 2
    (((fun j : nat => 2 * Z.of_nat j + 1) <$> seq 0 m)
       ++ ((fun j : nat => 2 * Z.of_nat m - 2 * Z.of_nat j) <$> seq 0 m)).
Proof.
  intros Hm. destruct m as [|m]; [lia|].
  change (seq 0 (S m)) with (0%nat :: seq 1 m) at 1. rewrite fmap_cons.
  change (steps_from 2 (2 * Z.of_nat 0 + 1)
            (((fun j : nat => 2 * Z.of_nat j + 1) <$> seq 1 m)
               ++ ((fun j : nat => 2 * Z.of_nat (S m) - 2 * Z.of_nat j) <$> seq 0 (S m)))).
  apply steps_from_run; [intros j; lia|].
  assert (Hdown : forall prev : Z,
            Z.abs (2 * Z.of_nat (S m) - prev) <= 2 ->
            steps_from 2 prev
              ((fun j : nat => 2 * Z.of_nat (S m) - 2 * Z.of_nat j) <$> seq 0 (S m))).
  { intros prev Hp.
    rewrite <- (app_nil_r (_ <$> seq 0 (S m))).
    apply steps_from_run; [intros j; lia|]. split; [|exact I].
    replace (2 * Z.of_nat (S m) - 2 * Z.of_nat 0) with (2 * Z.of_nat (S m)) by lia.
    exact Hp. }
  destruct m as [|m'].
  - apply Hdown. lia.
  - split; [lia|]. apply Hdown. lia.
Qed.

Lemma steps_zigzag_spec (N : Z) (r : list Z) :
  0 < N -> N mod 2 = 0 -> Forall (fun x => 0 <= x) r ->
  steps_within 2 (zigzag_spec N r).
Proof.
  intros Hpos Hev Hnn.
  destruct (even_size N Hpos Hev) as (m & HN & Hm & Hm0).
  unfold zigzag_spec, odd_lines_up, even_lines_down. rewrite Hm, <- bind_app.
  replace ((fun j : nat => N - 2 * Z.of_nat j) <$> seq 0 m)
    with ((fun j : nat => 2 * Z.of_nat m - 2 * Z.of_nat j) <$> seq 0 m)
    by (apply list_fmap_ext; intros; lia).
  pose proof (steps_zigzag_lines m Hm0) as Hlines.
  destruct (((fun j : nat => 2 * Z.of_nat j + 1) <$> seq 0 m)
              ++ ((fun j : nat => 2 * Z.of_nat m - 2 * Z.of_nat j) <$> seq 0 m))
    as [|k rest]; [exact I|].
  simpl in Hlines. rewrite bind_cons. unfold copies at 1.
  assert (Hx : 0 <= default 0 (r !! Z.to_nat (k - 1))).
  { destruct (r !! Z.to_nat (k - 1)) as [x|] eqn:Hl; simpl; [|lia].
    rewrite Forall_lookup in Hnn. exact (Hnn _ _ Hl). }
  replace (Z.to_nat (1 + default 0 (r !! Z.to_nat (k - 1))))
    with (S (Z.to_nat (default 0 (r !! Z.to_nat (k - 1))))) by lia.
  change (replicate (S ?n) k) with (k :: replicate n k).
  rewrite <- app_comm_cons, fmap_cons. cbn [steps_within].
  apply steps_from_shift, steps_from_replicate_app; [lia|].
  apply steps_from_copies; [lia|exact Hnn|exact Hlines].
Qed.

(** X5. With repeat counts that are not negative the trajectory moves
    through k-space in small steps: two consecutive entries are never
    more than 2 lines apart, in the script's list and in the function's
    array (which holds a start of that list) alike. *)
Theorem zigzag_steps_small (N : Z) (r : list Z) :
  0 < N -> N mod 2 = 0 -> Z.of_nat (length r) = N ->
  Forall (fun x => 0 <= x) r ->
  exists ts : list Z,
    zigzag_script N (one_plus r) = Some ts /\
    (forall (i : nat) (x y : Z),
        ts !! i = Some x -> ts !! S i = Some y -> Z.abs (y - x) <= 2) /\
    forall uninit : list Z,
      Z.of_nat (length uninit) <= N + np_sum r ->
      exists tf : list Z,
        zigzag_function N uninit (one_plus r) = Some tf /\
        forall (i : nat) (x y : Z),
          tf !! i = Some x -> tf !! S i = Some y -> Z.abs (y - x) <= 2.
Proof.
  intros Hpos Hev Hlen Hnn.
  pose proof (steps_zigzag_spec N r Hpos Hev Hnn) as Hsteps.
  exists (zigzag_spec N r). split; [now apply zigzag_script_spec|].
  split; [now apply steps_within_lookup|].
  intros uninit Hu. eexists. split; [now apply function_is_prefix|].
  apply steps_within_lookup, steps_within_take, Hsteps.
Qed.

(** Size 6 with repeat counts [[0;1;2;0;0;1]]. *)
Lemma zigzag_steps_small_witness :
  exists ts : list Z,
    zigzag_script 6 (one_plus [0; 1; 2; 0; 0; 1]) = Some ts /\
    forall (i : nat) (x y : Z),
      ts !! i = Some x -> ts !! S i = Some y -> Z.abs (y - x) <= 2.
Proof.
  destruct (zigzag_steps_small 6 [0; 1; 2; 0; 0; 1] ltac:(lia) eq_refl eq_refl)
    as (ts & Hs & Hsteps & _).
  { repeat constructor; lia. }
  exists ts. split; assumption.
Defined.

(** ** As many views as lines *)

Lemma copies_zeros (n : nat) (k : Z) : copies (replicate n 0) k = [k].
Proof.
  unfold copies.
  replace (default 0 (replicate n 0 !! Z.to_nat (k - 1))) with 0; [reflexivity|].
  destruct (replicate n 0 !! Z.to_nat (k - 1)) as [x|] eqn:Hx; [|reflexivity].
  apply lookup_replicate in Hx as [-> _]. reflexivity.
Qed.

Lemma bind_copies_zeros (n : nat) (lines : list Z) :
  lines ≫= copies (replicate n 0) = lines.
Proof.
  induction lines as [|k rest IH]; [reflexivity|].
  rewrite bind_cons, copies_zeros, IH. reflexivity.
Qed.

(** X6. When trajectoryLength equals targetKspaceSize there is no
    surplus to share out: from a scale-up candidate of entries 0 or 1 the
    balancer returns all zeros, and both programs return every line
    exactly once, the odd lines upwards and then the even lines downwards,
    a permutation of [-N/2 .. N/2 - 1]. *)
Theorem no_surplus_each_line_once
    (fuel : nat) (N sigma : Z) (c : list Z) (incr : float) :
  0 < N -> N mod 2 = 0 ->
  scale_up fuel (density N sigma) 0.9%float (N - N) = Some (c, incr) ->
  Forall (fun x => 0 <= x <= 1) c ->
  exists (r : trim_result) (ts : list Z),
    balancer fuel N N sigma = Some r /\
    trimmed r = replicate (Z.to_nat N) 0 /\
    trajectory_script fuel N N sigma = Some ts /\
    ts = (fun k => k - (N / 2 + 1)) <$> (odd_lines_up N ++ even_lines_down N) /\
    ts ≡ₚ (fun i : nat => Z.of_nat i - N / 2) <$> seq 0 (Z.to_nat N) /\
    forall uninit : list Z,
      Z.of_nat (length uninit) = N ->
      trajectory_function fuel N N sigma uninit = Some ts.
Proof.
  intros Hpos Hev Hup Hc.
  destruct (balancer_no_surplus fuel N sigma c incr ltac:(lia) Hup Hc) as (r & Hb & Hr).
  destruct (even_size N Hpos Hev) as (m & HN & Hm & Hm0).
  assert (Hspec : zigzag_spec N (trimmed r)
                  = (fun k => k - (N / 2 + 1)) <$> (odd_lines_up N ++ even_lines_down N)).
  { unfold zigzag_spec. rewrite Hr, !bind_copies_zeros. reflexivity. }
  assert (Hlen : Z.of_nat (length (trimmed r)) = N).
  { rewrite Hr, length_replicate. lia. }
  assert (Hnn : Forall (fun x => 0 <= x) (trimmed r)).
  { rewrite Hr. apply Forall_replicate. lia. }
  assert (Hsum : np_sum (trimmed r) = 0).
  { rewrite Hr. clear. induction (Z.to_nat N) as [|n IH]; simpl; lia. }
  exists r, (zigzag_spec N (trimmed r)).
  split; [exact Hb|]. split; [exact Hr|].
  unfold trajectory_script, trajectory_function. rewrite Hb.
  split; [now apply zigzag_script_spec|]. split; [exact Hspec|]. split.
  - rewrite Hspec. unfold odd_lines_up, even_lines_down. rewrite Hm.
    replace ((fun j : nat => N - 2 * Z.of_nat j) <$> seq 0 m)
      with ((fun j : nat => 2 * Z.of_nat m - 2 * Z.of_nat j) <$> seq 0 m)
      by (apply list_fmap_ext; intros; lia).
    rewrite (lines_Permutation m), <- list_fmap_compose.
    replace (Z.to_nat N) with (2 * m)%nat by lia.
    erewrite list_fmap_ext; [reflexivity|]. intros _ i _. simpl. lia.
  - intros uninit Hu.
    rewrite function_is_prefix by (try assumption; lia). f_equal.
    apply take_ge. pose proof (length_zigzag_spec N _ Hpos Hev Hlen Hnn). lia.
Qed.

(** Sizes 4 and 4 at width 8, where the candidate is [[0;0;1;0]]. *)
Lemma no_surplus_each_line_once_witness :
  exists (r : trim_result) (ts : list Z),
    balancer 20000 4 4 8 = Some r /\
    trimmed r = [0; 0; 0; 0] /\
    trajectory_script 20000 4 4 8 = Some ts /\
    ts = [-2; 0; 1; -1].
Proof.
  destruct scale_up_4_4_8 as [incr Hup].
  assert (Hc : Forall (fun x => 0 <= x <= 1) [0; 0; 1; 0]) by (repeat constructor; lia).
  destruct (no_surplus_each_line_once 20000 4 8 _ incr ltac:(lia) eq_refl Hup Hc)
    as (r & ts & Hb & Hr & Hs & Hts & _).
  exists r, ts. split; [exact Hb|]. split; [exact Hr|]. split; [exact Hs|exact Hts].
Defined.

(** ** What the filling estimator counts *)

(** Draws of [l] that pass the test [f]. *)
Definition count_if {A : Type} (f : A -> bool) (l : list A) : nat :=
  length (filter (fun a => f a = true) l).

(** The draw [s] reads a trajectory entry whose index [traj[s] + N // 2]
    is [b]. *)
Definition hits (traj : list Z) (N b : Z) (s : Z) : bool :=
  match py_get traj s with
  | Some t => t + N / 2 =? b
  | None => false
  end.

(** The draw [s] reads an entry whose index fails [0 <= index < N]. *)
Definition misses (traj : list Z) (N : Z) (s : Z) : bool :=
  match py_get traj s with
  | Some t => negb ((0 <=? t + N / 2) && (t + N / 2 <? N))
  | None => false
  end.

Lemma count_if_cons {A : Type} (f : A -> bool) (a : A) (l : list A) :
  count_if f (a :: l) = ((if f a then 1 else 0) + count_if f l)%nat.
Proof.
  unfold count_if. destruct (f a) eqn:Hf.
  - now rewrite filter_cons_True by exact Hf.
  - rewrite filter_cons_False by congruence. reflexivity.
Qed.

(** The script's loop from any histogram: every bucket grows by its hits,
    the skipped count by the misses. *)
Lemma tally_script_counts (traj : list Z) (N : Z) (samples : list Z) :
  (forall s : Z, s ∈ samples -> is_Some (py_get traj s)) ->
  forall (filling : list Z) (skipped : nat),
    Z.of_nat (length filling) = N ->
    exists (counts : list Z) (skipped' : nat),
      foldl (tally_script traj N) (Some (filling, skipped)) samples
        = Some (counts, skipped') /\
      length counts = length filling /\
      (forall (b : nat) (c : Z),
          filling !! b = Some c ->
          counts !! b = Some (c + Z.of_nat (count_if (hits traj N (Z.of_nat b)) samples))) /\
      skipped' = (skipped + count_if (misses traj N) samples)%nat /\
      np_sum counts + Z.of_nat skipped'
      = np_sum filling + Z.of_nat skipped + Z.of_nat (length samples).
Proof.
  induction samples as [|s samples IH]; intros Hin filling skipped Hlen.
  - exists filling, skipped. simpl. split; [reflexivity|]. split; [reflexivity|].
    split; [|split; [unfold count_if; simpl; lia|lia]].
    intros b c Hb. rewrite Hb. f_equal. unfold count_if. simpl. lia.
  - destruct (Hin s ltac:(left)) as [t Ht].
    assert (Hin' : forall s' : Z, s' ∈ samples -> is_Some (py_get traj s')).
    { intros s' Hs'. apply Hin. now right. }
    cbn [foldl]. rewrite (count_if_cons (misses traj N)). unfold tally_script at 2.
    unfold misses at 1. rewrite Ht.
    assert (Hhit : forall b : Z,
              count_if (hits traj N b) (s :: samples)
              = ((if (t + N / 2 =? b)%Z then 1 else 0)
                 + count_if (hits traj N b) samples)%nat).
    { intros b. rewrite count_if_cons. unfold hits at 1. now rewrite Ht. }
    destruct ((0 <=? t + N / 2) && (t + N / 2 <? N)) eqn:Hrange.
    + apply andb_true_iff in Hrange as [H0 H1].
      apply Z.leb_le in H0. apply Z.ltb_lt in H1.
      destruct (IH Hin' (alter Z.succ (Z.to_nat (t + N / 2)) filling) skipped)
        as (counts & sk & Hrun & Hl & Hb & Hsk & Hsum).
      { now rewrite length_alter. }
      exists counts, sk. split; [exact Hrun|].
      rewrite length_alter in Hl. split; [exact Hl|]. split; [|split].
      * intros b c Hc. rewrite Hhit.
        destruct (decide (b = Z.to_nat (t + N / 2))) as [->|Hne].
        -- rewrite (Hb _ (Z.succ c)) by (rewrite list_lookup_alter_eq, Hc; reflexivity).
           destruct (Z.eqb_spec (t + N / 2) (Z.of_nat (Z.to_nat (t + N / 2))));
             [f_equal; lia|lia].
        -- rewrite (Hb _ c) by (rewrite list_lookup_alter_ne by congruence; exact Hc).
           destruct (Z.eqb_spec (t + N / 2) (Z.of_nat b)); [lia|]. f_equal.
      * simpl. lia.
      * rewrite Hsum, np_sum_alter_succ by lia. simpl length. lia.
    + destruct (IH Hin' filling (S skipped) Hlen)
        as (counts & sk & Hrun & Hl & Hb & Hsk & Hsum).
      exists counts, sk. split; [exact Hrun|]. split; [exact Hl|]. split; [|split].
      * intros b c Hc. rewrite Hhit, (Hb _ c Hc).
        destruct (Z.eqb_spec (t + N / 2) (Z.of_nat b)) as [Heq|]; [|f_equal].
        apply lookup_lt_Some in Hc.
        apply andb_false_iff in Hrange as [H|H];
          [apply Z.leb_gt in H|apply Z.ltb_ge in H]; lia.
      * simpl. lia.
      * rewrite Hsum. simpl length. lia.
Qed.

(** X7. The script's histogram, before it is normalised, holds in
    bucket [b] the number of draws [s] with [traj[s] + N // 2 = b]; the
    draws whose index is not a bucket are skipped without a trace, so the
    counts add up to the number of draws less the skipped ones. Stated for
    any trajectory every draw can index. *)
Theorem script_histogram_counts (traj : list Z) (N : Z) (samples : list Z) :
  0 <= N ->
  (forall s : Z, s ∈ samples -> is_Some (py_get traj s)) ->
  exists (counts : list Z) (skipped : nat),
    counts_script traj N samples = Some (counts, skipped) /\
    Z.of_nat (length counts) = N /\
    (forall b : Z,
        0 <= b < N ->
        py_get counts b = Some (Z.of_nat (count_if (hits traj N b) samples))) /\
    skipped = count_if (misses traj N) samples /\
    np_sum counts = Z.of_nat (length samples) - Z.of_nat skipped.
Proof.
  intros HN Hin.
  assert (Hz : Z.of_nat (length (np_zeros N)) = N).
  { unfold np_zeros. rewrite length_replicate. lia. }
  destruct (tally_script_counts traj N samples Hin (np_zeros N) 0%nat Hz)
    as (counts & sk & Hrun & Hl & Hb & Hsk & Hsum).
  exists counts, sk. split; [exact Hrun|]. split; [lia|]. split; [|split].
  - intros b Hrange. rewrite py_get_nonneg by lia.
    rewrite (Hb (Z.to_nat b) 0).
    + rewrite Z2Nat.id by lia. reflexivity.
    + unfold np_zeros. apply lookup_replicate_2. lia.
  - exact Hsk.
  - rewrite np_sum_zeros in Hsum. lia.
Qed.

(** Four buckets; the trajectory entry 5 has no bucket, the draw 3 that
    reads it is skipped. *)
Lemma script_histogram_counts_witness :
  exists (counts : list Z) (skipped : nat),
    counts_script [-2; 0; 0; 5] 4 [0; 1; 2; 3; 1] = Some (counts, skipped) /\
    py_get counts 0 = Some 1 /\ py_get counts 2 = Some 3 /\
    skipped = 1%nat /\ np_sum counts = 4.
Proof.
  assert (Hin : forall s : Z, s ∈ [0; 1; 2; 3; 1] -> is_Some (py_get [-2; 0; 0; 5] s)).
  { intros s Hs. repeat (apply elem_of_cons in Hs as [-> | Hs]; [eexists; reflexivity|]).
    inversion Hs. }
  destruct (script_histogram_counts [-2; 0; 0; 5] 4 [0; 1; 2; 3; 1] ltac:(lia) Hin)
    as (counts & sk & Hrun & _ & Hb & Hsk & Hsum).
  exists counts, sk. split; [exact Hrun|].
  split; [exact (Hb 0 ltac:(lia))|]. split; [exact (Hb 2 ltac:(lia))|].
  split; [exact Hsk|]. rewrite Hsum, Hsk. reflexivity.
Defined.

(** The draw [s] makes the function raise [IndexError]: [traj[s]] does,
    or the index [int(traj[s] + N / 2)] is outside [-N, N). *)
Definition fails (traj : list Z) (N : Z) (s : Z) : bool :=
  match py_get traj s with
  | Some t => negb ((- N <=? t + N / 2) && (t + N / 2 <? N))
  | None => true
  end.

Lemma foldl_tally_function_none (traj : list Z) (N : Z) (samples : list Z) :
  foldl (tally_function traj N) None samples = None.
Proof. induction samples as [|s samples IH]; [reflexivity|exact IH]. Qed.

(** The function's loop from any histogram: it stops at the first draw
    that fails, and else every bucket grows by the draws whose index is
    the bucket or the bucket less [N]. *)
Lemma tally_function_counts (traj : list Z) (N : Z) (samples : list Z) :
  forall filling : list Z,
    Z.of_nat (length filling) = N ->
    match foldl (tally_function traj N) (Some filling) samples with
    | Some counts =>
        length counts = length filling /\
        (forall s : Z, s ∈ samples -> fails traj N s = false) /\
        forall (b : nat) (c : Z),
          filling !! b = Some c ->
          counts !! b
          = Some (c + Z.of_nat (count_if (hits traj N (Z.of_nat b)) samples)
                    + Z.of_nat (count_if (hits traj N (Z.of_nat b - N)) samples))
    | None => exists s : Z, s ∈ samples /\ fails traj N s = true
    end.
Proof.
  induction samples as [|s samples IH]; intros filling Hlen.
  - simpl. split; [reflexivity|]. split; [intros s Hs; inversion Hs|].
    intros b c Hb. rewrite Hb. f_equal. unfold count_if. simpl. lia.
  - cbn [foldl].
    assert (Hbad : fails traj N s = true ->
              tally_function traj N (Some filling) s = None).
    { unfold fails, tally_function, py_incr. rewrite Hlen.
      destruct (py_get traj s) as [t|]; [|reflexivity].
      destruct (Z.leb_spec (- N) (t + N / 2)), (Z.ltb_spec (t + N / 2) N);
        simpl; try discriminate; intros _;
        destruct (Z.leb_spec 0 (t + N / 2)), (Z.ltb_spec (t + N / 2) 0);
        simpl; try reflexivity; lia. }
    destruct (fails traj N s) eqn:Hf.
    { rewrite (Hbad eq_refl), foldl_tally_function_none.
      exists s. split; [left|exact Hf]. }
    clear Hbad. unfold fails in Hf.
    destruct (py_get traj s) as [t|] eqn:Ht; [|discriminate].
    apply negb_false_iff, andb_true_iff in Hf as [Hlo Hhi].
    apply Z.leb_le in Hlo. apply Z.ltb_lt in Hhi.
    set (i := if 0 <=? t + N / 2 then Z.to_nat (t + N / 2)
              else Z.to_nat (N + (t + N / 2))).
    assert (Hstep : tally_function traj N (Some filling) s
                    = Some (alter Z.succ i filling)).
    { unfold tally_function, py_incr. rewrite Ht, Hlen. subst i.
      destruct (Z.leb_spec 0 (t + N / 2)).
      - destruct (Z.ltb_spec (t + N / 2) N); [reflexivity|lia].
      - simpl. destruct (Z.leb_spec (- N) (t + N / 2)); [|lia].
        destruct (Z.ltb_spec (t + N / 2) 0); [reflexivity|lia]. }
    rewrite Hstep.
    assert (Hi : Z.of_nat i = t + N / 2 \/ Z.of_nat i - N = t + N / 2).
    { subst i. destruct (Z.leb_spec 0 (t + N / 2)); lia. }
    assert (Hilt : (i < length filling)%nat).
    { subst i. destruct (Z.leb_spec 0 (t + N / 2)); lia. }
    specialize (IH (alter Z.succ i filling)). rewrite length_alter in IH.
    specialize (IH Hlen).
    destruct (foldl (tally_function traj N) (Some (alter Z.succ i filling)) samples)
      as [counts|].
    + destruct IH as (Hl & Hok & Hb). split; [exact Hl|]. split.
      * intros s' Hs'. apply elem_of_cons in Hs' as [->|Hs']; [|now apply Hok].
        unfold fails. rewrite Ht.
        destruct (Z.leb_spec (- N) (t + N / 2)), (Z.ltb_spec (t + N / 2) N);
          try reflexivity; lia.
      * intros b c Hc. rewrite !count_if_cons. unfold hits at 1 3. rewrite Ht.
        assert (Hbl : (b < length filling)%nat) by (now apply lookup_lt_Some in Hc).
        destruct (decide (b = i)) as [->|Hne].
        -- rewrite (Hb _ (Z.succ c)) by (rewrite list_lookup_alter_eq, Hc; reflexivity).
           f_equal.
           destruct (Z.eqb_spec (t + N / 2) (Z.of_nat i)),
                    (Z.eqb_spec (t + N / 2) (Z.of_nat i - N)); lia.
        -- rewrite (Hb _ c) by (rewrite list_lookup_alter_ne by congruence; exact Hc).
           f_equal.
           destruct (Z.eqb_spec (t + N / 2) (Z.of_nat b)),
                    (Z.eqb_spec (t + N / 2) (Z.of_nat b - N)); lia.
    + destruct IH as (s' & Hs' & Hf'). exists s'. split; [now right|exact Hf'].
Qed.

(** X8. The function's filling loop has no range test: a draw whose
    index [int(traj[s] + N / 2)] is negative but not below [-N] counts
    into bucket [index + N], and a draw whose index is outside [-N, N)
    (or that cannot index the trajectory) ends the run with [IndexError].
    So the loop completes exactly when no draw fails, and bucket [b] then
    holds the draws with index [b] or [b - N]; the script counts only the
    first kind. *)
Theorem function_histogram_wraps (traj : list Z) (N : Z) (samples : list Z) :
  0 <= N ->
  (counts_function traj N samples = None <->
   exists s : Z, s ∈ samples /\ fails traj N s = true) /\
  forall counts : list Z,
    counts_function traj N samples = Some counts ->
    Z.of_nat (length counts) = N /\
    forall b : Z,
      0 <= b < N ->
      py_get counts b
      = Some (Z.of_nat (count_if (hits traj N b) samples)
              + Z.of_nat (count_if (hits traj N (b - N)) samples)).
Proof.
  intros HN.
  assert (Hz : Z.of_nat (length (np_zeros N)) = N).
  { unfold np_zeros. rewrite length_replicate. lia. }
  pose proof (tally_function_counts traj N samples (np_zeros N) Hz) as H.
  unfold counts_function.
  destruct (foldl (tally_function traj N) (Some (np_zeros N)) samples) as [counts|].
  - destruct H as (Hl & Hok & Hb). split.
    + split; [discriminate|]. intros (s & Hs & Hf). rewrite (Hok s Hs) in Hf. discriminate.
    + intros counts' [= <-]. split; [lia|]. intros b Hrange.
      rewrite py_get_nonneg by lia. rewrite (Hb (Z.to_nat b) 0).
      * rewrite Z2Nat.id by lia. reflexivity.
      * unfold np_zeros. apply lookup_replicate_2. lia.
  - split; [|discriminate]. split; [intros _; exact H|reflexivity].
Qed.

(** Four buckets: the entry -3 has index -1 and counts into bucket 3;
    with the entry 5, of index 7, the run fails. *)
Lemma function_histogram_wraps_witness :
  counts_function [-2; 0; -3] 4 [0; 2; 2] = Some [1; 0; 0; 2] /\
  py_get [1; 0; 0; 2] 3 = Some (0 + 2) /\
  counts_function [-2; 0; 5] 4 [0; 2; 2] = None.
Proof.
  assert (Hc : counts_function [-2; 0; -3] 4 [0; 2; 2] = Some [1; 0; 0; 2])
    by (vm_compute; reflexivity).
  split; [exact Hc|]. split.
  - destruct (function_histogram_wraps [-2; 0; -3] 4 [0; 2; 2] ltac:(lia)) as [_ H].
    destruct (H _ Hc) as [_ Hb]. exact (Hb 3 ltac:(lia)).
  - apply (proj1 (function_histogram_wraps [-2; 0; 5] 4 [0; 2; 2] ltac:(lia))).
    exists 2. split; [right; left|reflexivity].
Defined.

(** ** The two Cartesian programs, end to end *)

Lemma run_emit {A : Type} (ev : event) (k : M A) (log : list event) :
  (emit ev ;;; k) log = k (log ++ [ev]).
Proof. reflexivity. Qed.

Lemma run_lift {A B : Type} (e : exn) (a : A) (k : A -> M B) (log : list event) :
  (x <- lift e (Some a) ;; k x) log = k a log.
Proof. reflexivity. Qed.

Lemma run_ret {A B : Type} (a : A) (k : M B) (log : list event) :
  (ret a ;;; k) log = k log.
Proof. reflexivity. Qed.

(** X9. A size or a width that is not a positive even integer is
    rejected before anything is allocated, and before the density shape
    is looked at. The script's error is the same [AssertionError] for all
    three; the function's [ValueError] names the first offending
    parameter, in the order target_kspace_size, trajectory_length, sigma,
    with its value. *)
Theorem integer_checks_come_first
    (N L sigma : Z) (shape : string) (showPlot plot export : bool)
    (fuel : nat) (uninit samples : list Z) :
  (valid_ints N L sigma = false ->
   script N L shape sigma showPlot fuel samples []
   = ([], inl (AssertionError (Msg "Input must be a positive, even integer.")))) /\
  (mustBePosEvenInt N = false ->
   generate_cartesian_1d_trajectory N L sigma shape plot export fuel uninit samples []
   = ([], inl (ValueError
                 (MsgRepr "target_kspace_size must be a positive, even integer (got "
                    (PyInt N) ").")))) /\
  (mustBePosEvenInt N = true -> mustBePosEvenInt L = false ->
   generate_cartesian_1d_trajectory N L sigma shape plot export fuel uninit samples []
   = ([], inl (ValueError
                 (MsgRepr "trajectory_length must be a positive, even integer (got "
                    (PyInt L) ").")))) /\
  (mustBePosEvenInt N = true -> mustBePosEvenInt L = true ->
   mustBePosEvenInt sigma = false ->
   generate_cartesian_1d_trajectory N L sigma shape plot export fuel uninit samples []
   = ([], inl (ValueError
                 (MsgRepr "sigma must be a positive, even integer (got "
                    (PyInt sigma) ").")))).
Proof.
  unfold valid_ints, script, generate_cartesian_1d_trajectory,
    assert_pos_even, must_be_pos_even_int.
  split; [|split; [|split]].
  - intros Hv. unfold bind at 1.
    destruct (mustBePosEvenInt N); [|reflexivity]. unfold bind at 1.
    destruct (mustBePosEvenInt L); [|reflexivity]. unfold bind at 1.
    destruct (mustBePosEvenInt sigma); [discriminate|reflexivity].
  - intros ->. reflexivity.
  - intros -> ->. reflexivity.
  - intros -> -> ->. reflexivity.
Qed.

(** A negative size with an unsupported shape: the size is what is
    reported. *)
Lemma integer_checks_come_first_witness :
  script 192 255 "radial" 8 false 0 [] []
  = ([], inl (AssertionError (Msg "Input must be a positive, even integer."))) /\
  generate_cartesian_1d_trajectory (-4) 256 7 "radial" true true 0 [] [] []
  = ([], inl (ValueError
                (MsgRepr "target_kspace_size must be a positive, even integer (got "
                   (PyInt (-4)) ")."))) /\
  generate_cartesian_1d_trajectory 192 256 7 "gauss" true true 0 [] [] []
  = ([], inl (ValueError
                (MsgRepr "sigma must be a positive, even integer (got "
                   (PyInt 7) ")."))).
Proof.
  split; [|split].
  - exact (proj1 (integer_checks_come_first 192 255 8 "radial" false true true 0 [] [])
             eq_refl).
  - exact (proj1 (proj2 (integer_checks_come_first (-4) 256 7 "radial" false true true
                           0 [] [])) eq_refl).
  - exact (proj2 (proj2 (proj2 (integer_checks_come_first 192 256 7 "gauss" false
                                  true true 0 [] []))) eq_refl eq_refl eq_refl).
Defined.

(** The six allocations of a run that gets through, in their order. *)
Definition allocations : list event :=
  [Alloc "k"; Alloc "d"; Alloc "df"; Alloc "traj"; Alloc "samples"; Alloc "filling"].

(** Both programs on integers that pass the checks: whatever the order
    of the two sizes, they run to their end. *)
Lemma programs_run
    (N L sigma : Z) (shape : string) (showPlot plot export : bool)
    (fuel : nat) (r : trim_result) (uninit samples : list Z) :
  valid_ints N L sigma = true ->
  py_lower shape = "gauss"%string ->
  balancer fuel N L sigma = Some r ->
  Forall (fun x => 0 <= x) (trimmed r) ->
  Z.of_nat (length uninit) = L ->
  (forall s : Z, s ∈ samples -> 0 <= s < L) ->
  let ts := zigzag_spec N (trimmed r) in
  let tf := take (Z.to_nat L) ts in
  exists counts : list Z,
    script N L "gauss" sigma showPlot fuel samples []
    = (allocations ++ (if showPlot then [Plot] else []) ++ [Export N L sigma ts],
       inr (ts, normalise counts)) /\
    generate_cartesian_1d_trajectory N L sigma shape plot export fuel uninit samples []
    = (allocations ++ (if plot then [Plot] else [])
         ++ (if export then [Export N L sigma tf] else []),
       inr (tf, normalise counts)) /\
    Z.of_nat (length ts) = N + np_sum (trimmed r) /\
    L <= Z.of_nat (length ts) /\
    np_sum counts = Z.of_nat (length samples).
Proof.
  intros Hints Hshape Hb Hnn Hu Hin ts tf.
  pose proof Hints as Hv. unfold valid_ints in Hv.
  rewrite !andb_true_iff, !mustBePosEvenInt_true in Hv.
  destruct Hv as (((HN & Hev) & (HL & _)) & _).
  destruct (balancer_inv fuel N L sigma r ltac:(lia) Hb) as (Hlen & Hge & _).
  pose proof (length_zigzag_spec N _ HN Hev Hlen Hnn) as Hl.
  pose proof (zigzag_script_spec N (trimmed r) HN Hev Hlen) as Hs.
  assert (Hf : zigzag_function N uninit (one_plus (trimmed r)) = Some tf).
  { rewrite function_is_prefix by (try assumption; lia).
    subst tf ts. do 2 f_equal. lia. }
  assert (Hdraw : forall s : Z, s ∈ samples ->
            exists t : Z, py_get ts s = Some t /\ py_get tf s = Some t /\
                          0 <= t + N / 2 < N).
  { intros s Hs'.
    destruct (draw_on_bucket N (trimmed r) uninit s HN Hev Hlen Hnn ltac:(lia)
                ltac:(rewrite Hu; now apply Hin)) as (t & Ht & Ht' & Hr).
    exists t. split; [exact Ht|]. split; [|exact Hr].
    subst tf ts. replace (Z.to_nat L) with (length uninit) by lia. exact Ht'. }
  assert (Hz : Z.of_nat (length (np_zeros N)) = N).
  { unfold np_zeros. rewrite length_replicate. lia. }
  destruct (tally_all ts tf N samples Hdraw (np_zeros N) 0%nat Hz)
    as (counts & Hcs & Hcf & _ & Hcsum & _).
  rewrite np_sum_zeros in Hcsum.
  exists counts.
  split; [|split; [|split; [exact Hl|split; [fold ts in Hl; lia|lia]]]].
  - unfold script.
    destruct (checks_script N L sigma
                (emit (Alloc "k") ;;;
                 (if String.eqb "gauss" "gauss" then emit (Alloc "d")
                  else raise (ValueError (Msg "Unsupported density shape"))) ;;;
                 r0 <- lift OutOfFuel (balancer fuel N L sigma) ;;
                 emit (Alloc "df") ;;;
                 traj <- lift IndexError (zigzag_script N (one_plus (trimmed r0))) ;;
                 emit (Alloc "traj") ;;;
                 emit (Alloc "samples") ;;;
                 emit (Alloc "filling") ;;;
                 counts0 <- lift IndexError (counts_script traj N samples) ;;
                 (if showPlot then emit Plot else ret tt) ;;;
                 emit (Export N L sigma traj) ;;;
                 ret (traj, normalise counts0.1)))
      as [[_ ->]|[Hbad _]]; [|congruence].
    rewrite run_emit. change (String.eqb "gauss" "gauss") with true. cbv iota.
    rewrite run_emit, Hb, run_lift, run_emit, Hs, run_lift, !run_emit.
    unfold counts_script. fold ts. rewrite Hcs, run_lift.
    destruct showPlot; reflexivity.
  - unfold generate_cartesian_1d_trajectory.
    destruct (checks_function N L sigma
                (emit (Alloc "k") ;;;
                 (if String.eqb (py_lower shape) "gauss" then emit (Alloc "d")
                  else raise (ValueError (MsgRepr "Unsupported density_shape: "
                                            (PyStr shape) EmptyString))) ;;;
                 r0 <- lift OutOfFuel (balancer fuel N L sigma) ;;
                 emit (Alloc "df") ;;;
                 emit (Alloc "traj") ;;;
                 traj <- lift IndexError
                           (zigzag_function N uninit (one_plus (trimmed r0))) ;;
                 emit (Alloc "samples") ;;;
                 emit (Alloc "filling") ;;;
                 counts0 <- lift IndexError (counts_function traj N samples) ;;
                 (if plot then emit Plot else ret tt) ;;;
                 (if export then emit (Export N L sigma traj) else ret tt) ;;;
                 ret (traj, normalise counts0)))
      as [[_ ->]|[Hbad _]]; [|congruence].
    rewrite run_emit, Hshape. change (String.eqb "gauss" "gauss") with true. cbv iota.
    rewrite run_emit, Hb, run_lift, !run_emit, Hf, run_lift, !run_emit.
    unfold counts_function. rewrite Hcf, run_lift.
    destruct plot, export; reflexivity.
Qed.

(** X10. On a valid configuration whose trimming loop ends by its test
    (repeat counts not negative), with the shape "gauss" (in any letter
    case for the function) and draws in [0, trajectoryLength), both
    programs run to their end and return the same trajectory of exactly
    trajectoryLength entries and the same histogram. Both allocate the
    same six arrays in the same order; the script always exports, the
    function plots and exports only when asked to. *)
Theorem programs_agree
    (N L sigma : Z) (shape : string) (showPlot plot export : bool)
    (fuel : nat) (r : trim_result) (uninit samples : list Z) :
  valid_config N L sigma = true ->
  py_lower shape = "gauss"%string ->
  balancer fuel N L sigma = Some r ->
  how r = SumReached ->
  Forall (fun x => 0 <= x) (trimmed r) ->
  Z.of_nat (length uninit) = L ->
  (forall s : Z, s ∈ samples -> 0 <= s < L) ->
  exists (traj counts : list Z),
    script N L "gauss" sigma showPlot fuel samples []
    = (allocations ++ (if showPlot then [Plot] else []) ++ [Export N L sigma traj],
       inr (traj, normalise counts)) /\
    generate_cartesian_1d_trajectory N L sigma shape plot export fuel uninit samples []
    = (allocations ++ (if plot then [Plot] else [])
         ++ (if export then [Export N L sigma traj] else []),
       inr (traj, normalise counts)) /\
    traj = zigzag_spec N (trimmed r) /\
    Z.of_nat (length traj) = L /\
    np_sum counts = Z.of_nat (length samples).
Proof.
  intros Hv Hshape Hb Hhow Hnn Hu Hin.
  pose proof Hv as Hv'. unfold valid_config in Hv'.
  apply andb_true_iff in Hv' as [Hints _].
  apply valid_config_true in Hv as ((HN & Hev) & _).
  destruct (balancer_inv fuel N L sigma r ltac:(lia) Hb) as (_ & _ & Hsum).
  rewrite Hhow in Hsum.
  destruct (programs_run N L sigma shape showPlot plot export fuel r uninit samples
              Hints Hshape Hb Hnn Hu Hin)
    as (counts & Hs & Hf & Hl & _ & Hc).
  rewrite take_ge in Hf by lia.
  exists (zigzag_spec N (trimmed r)), counts.
  repeat split; try assumption. lia.
Qed.

(** Sizes 8 and 10, width 2, three draws; the function is asked for
    "Gauss", without a plot. *)
Lemma programs_agree_witness :
  exists (traj counts : list Z),
    script 8 10 "gauss" 2 false 20000 [0; 9; 3] []
    = (allocations ++ [] ++ [Export 8 10 2 traj], inr (traj, normalise counts)) /\
    generate_cartesian_1d_trajectory 8 10 2 "Gauss" false true 20000
        (replicate 10 0) [0; 9; 3] []
    = (allocations ++ [] ++ [Export 8 10 2 traj], inr (traj, normalise counts)) /\
    Z.of_nat (length traj) = 10.
Proof.
  assert (Hnn : Forall (fun x => 0 <= x) [0; 0; 0; 0; 1; 1; 0; 0])
    by (repeat constructor; lia).
  assert (Hin : forall s : Z, s ∈ [0; 9; 3] -> 0 <= s < 10).
  { intros s Hs. repeat (apply elem_of_cons in Hs as [-> | Hs]; [lia|]).
    inversion Hs. }
  destruct (programs_agree 8 10 2 "Gauss" false false true 20000 _
              (replicate 10 0) [0; 9; 3]
              eq_refl eq_refl balancer_8_10_2 eq_refl Hnn eq_refl Hin)
    as (traj & counts & Hs & Hf & _ & Hl & _).
  exists traj, counts. split; [exact Hs|]. split; [exact Hf|exact Hl].
Defined.

(** X11. Neither program compares trajectoryLength with
    targetKspaceSize. With positive even integers and fewer views than
    lines (repeat counts not negative) nothing is rejected: the trimming
    loop ends by its safety [break], the script returns and exports
    [N + sum r] entries, more than the trajectoryLength asked for, and the
    function returns only the first trajectoryLength entries of that
    zigzag, fewer than there are lines. *)
Theorem length_order_unchecked
    (N L sigma : Z) (shape : string) (showPlot plot export : bool)
    (fuel : nat) (r : trim_result) (uninit samples : list Z) :
  valid_ints N L sigma = true -> L < N ->
  py_lower shape = "gauss"%string ->
  balancer fuel N L sigma = Some r ->
  Forall (fun x => 0 <= x) (trimmed r) ->
  Z.of_nat (length uninit) = L ->
  (forall s : Z, s ∈ samples -> 0 <= s < L) ->
  how r = SafetyBreak /\
  exists (ts tf counts : list Z),
    script N L "gauss" sigma showPlot fuel samples []
    = (allocations ++ (if showPlot then [Plot] else []) ++ [Export N L sigma ts],
       inr (ts, normalise counts)) /\
    generate_cartesian_1d_trajectory N L sigma shape plot export fuel uninit samples []
    = (allocations ++ (if plot then [Plot] else [])
         ++ (if export then [Export N L sigma tf] else []),
       inr (tf, normalise counts)) /\
    tf = take (Z.to_nat L) ts /\
    L < N <= Z.of_nat (length ts) /\ Z.of_nat (length tf) = L.
Proof.
  intros Hints Hlt Hshape Hb Hnn Hu Hin.
  pose proof Hints as Hv. unfold valid_ints in Hv.
  rewrite !andb_true_iff, !mustBePosEvenInt_true in Hv.
  destruct Hv as (((HN & Hev) & (HL & _)) & _).
  destruct (balancer_inv fuel N L sigma r ltac:(lia) Hb) as (_ & _ & Hsum).
  assert (H0 : 0 <= np_sum (trimmed r)).
  { clear -Hnn. induction Hnn as [|x l Hx _ IH]; simpl; lia. }
  split.
  { destruct (how r); [lia|reflexivity]. }
  destruct (programs_run N L sigma shape showPlot plot export fuel r uninit samples
              Hints Hshape Hb Hnn Hu Hin)
    as (counts & Hs & Hf & Hl & _ & Hc).
  exists (zigzag_spec N (trimmed r)), (take (Z.to_nat L) (zigzag_spec N (trimmed r))),
    counts.
  split; [exact Hs|]. split; [exact Hf|]. split; [reflexivity|].
  split; [lia|]. rewrite length_take. lia.
Qed.

(** Four lines and two views, width 2: the script returns all four
    lines, the function only the lines 1 and 3. *)
Lemma length_order_unchecked_witness :
  script 4 2 "gauss" 2 false 10 [0; 1] []
  = (allocations ++ [] ++ [Export 4 2 2 [-2; 0; 1; -1]],
     inr ([-2; 0; 1; -1], Some [1 # 2; 0 # 2; 1 # 2; 0 # 2]%Q)) /\
  generate_cartesian_1d_trajectory 4 2 2 "gauss" false false 10 [7; 7] [0; 1] []
  = (allocations ++ [] ++ [], inr ([-2; 0], Some [1 # 2; 0 # 2; 1 # 2; 0 # 2]%Q)) /\
  exists (ts tf : list Z),
    tf = take (Z.to_nat 2) ts /\ 2 < 4 <= Z.of_nat (length ts) /\
    Z.of_nat (length tf) = 2.
Proof.
  split; [vm_compute; reflexivity|]. split; [vm_compute; reflexivity|].
  assert (Hb : balancer 10 4 2 2 = Some (TrimResult [0; 0; 0; 0] 0 SafetyBreak))
    by (vm_compute; reflexivity).
  assert (Hnn : Forall (fun x => 0 <= x) [0; 0; 0; 0]) by (repeat constructor; lia).
  assert (Hin : forall s : Z, s ∈ [0; 1] -> 0 <= s < 2).
  { intros s Hs. repeat (apply elem_of_cons in Hs as [-> | Hs]; [lia|]).
    inversion Hs. }
  destruct (length_order_unchecked 4 2 2 "gauss" false false false 10 _ [7; 7] [0; 1]
              eq_refl ltac:(lia) eq_refl Hb Hnn eq_refl Hin)
    as (_ & ts & tf & counts & _ & _ & Htf & Hlen & Hlf).
  exists ts, tf. repeat split; assumption || lia.
Defined.

(** ** The spoke generator, spoke by spoke *)

Lemma unique_in_order_NoDup (spoke : list point) :
  forall seen : gset point,
    NoDup (unique_in_order seen spoke) /\
    forall x : point, x ∈ unique_in_order seen spoke -> x ∉ seen.
Proof.
  induction spoke as [|pt rest IH]; intros seen; simpl.
  - split; [constructor|]. intros x Hx. inversion Hx.
  - destruct (decide (pt ∈ seen)) as [Hpt|Hpt]; [apply IH|].
    destruct (IH ({[pt]} ∪ seen)) as [Hnd Hnew]. split.
    + constructor; [|exact Hnd]. intros Hin. apply Hnew in Hin. set_solver.
    + intros x Hx. apply elem_of_cons in Hx as [->|Hx]; [exact Hpt|].
      apply Hnew in Hx. set_solver.
Qed.

Lemma length_unique_in_order (spoke : list point) :
  forall seen : gset point,
    (length (unique_in_order seen spoke) <= length spoke)%nat.
Proof.
  induction spoke as [|pt rest IH]; intros seen; simpl; [lia|].
  destruct (decide (pt ∈ seen)); simpl;
    [specialize (IH seen)|specialize (IH ({[pt]} ∪ seen))]; lia.
Qed.

Lemma length_spoke_raster (cosd sind : Q -> Q) (dimy dimz : Z) (angle : Q) :
  length (spoke_raster cosd sind dimy dimz angle) = Z.to_nat (2 * Z.max dimy dimz).
Proof.
  unfold spoke_raster, np_linspace. cbv zeta.
  rewrite length_zip_with, !length_fmap, length_seq. lia.
Qed.

(** The cells a spoke contributes: those of its raster that pass the
    support test, whichever way the raster is run through. *)
Lemma spoke_cells (cosd sind : Q -> Q) (dimy dimz order : Z)
    (kSpaceList : list point) (angle : Q) (spokeNr : Z) :
  exists new : list point,
    add_spoke cosd sind dimy dimz order kSpaceList angle spokeNr = kSpaceList ++ new /\
    NoDup new /\
    (length new <= Z.to_nat (2 * Z.max dimy dimz))%nat /\
    forall pt : point,
      pt ∈ new <->
      pt ∈ spoke_raster cosd sind dimy dimz angle /\ in_support dimy dimz pt.
Proof.
  unfold add_spoke. cbv zeta.
  set (raster := spoke_raster cosd sind dimy dimz angle).
  set (spoke := if (order =? 1) && (spokeNr mod 2 =? 0) then reverse raster else raster).
  assert (Hsame : forall pt : point, pt ∈ spoke <-> pt ∈ raster).
  { intros pt. subst spoke. destruct ((order =? 1) && (spokeNr mod 2 =? 0));
      [apply elem_of_reverse|reflexivity]. }
  assert (Hlen : length spoke = length raster).
  { subst spoke. destruct ((order =? 1) && (spokeNr mod 2 =? 0));
      [apply length_reverse|reflexivity]. }
  eexists. split; [reflexivity|]. split; [|split].
  - apply NoDup_filter. apply unique_in_order_NoDup.
  - etransitivity; [apply length_filter|].
    etransitivity; [apply length_unique_in_order|].
    rewrite Hlen. subst raster. now rewrite length_spoke_raster.
  - intros pt. rewrite list_elem_of_filter, <- Hsame. unfold in_support. split.
    + intros [Hin Hu]. split; [|exact Hin]. eapply unique_in_order_subset. exact Hu.
    + intros [Hu Hin]. split; [exact Hin|].
      apply unique_in_order_keeps; [exact Hu|set_solver].
Qed.

(** With cosines and sines within [-1, 1] the origin is one of them. *)
Lemma spoke_adds
    (cosd sind : Q -> Q) (dimy dimz order : Z)
    (kSpaceList : list point) (angle : Q) (spokeNr : Z) :
  (forall a : Q, (-1 <= cosd a)%Q /\ (cosd a <= 1)%Q) ->
  (forall a : Q, (-1 <= sind a)%Q /\ (sind a <= 1)%Q) ->
  1 <= dimy -> 1 <= dimz ->
  exists new : list point,
    add_spoke cosd sind dimy dimz order kSpaceList angle spokeNr = kSpaceList ++ new /\
    NoDup new /\ (0, 0) ∈ new /\
    1 <= Z.of_nat (length new) <= 2 * Z.max dimy dimz /\
    forall pt : point,
      pt ∈ new <->
      pt ∈ spoke_raster cosd sind dimy dimz angle /\ in_support dimy dimz pt.
Proof.
  intros Hc Hs Hy Hz.
  destruct (spoke_cells cosd sind dimy dimz order kSpaceList angle spokeNr)
    as (new & Heq & Hnd & Hlen & Hin).
  assert (Ho : (0, 0) ∈ new).
  { apply Hin. split; [now apply origin_in_raster|apply inside_origin]. }
  exists new. split; [exact Heq|]. split; [exact Hnd|]. split; [exact Ho|].
  split; [|exact Hin].
  destruct new; [inversion Ho|]. simpl length in *. lia.
Qed.

(** X12. One pass of the spoke loop appends to [kSpaceList], leaving
    what is there untouched, the cells of the spoke's raster that pass the
    support test, each of them once: at least the origin, at most
    [2 * max(dimy, dimz)] cells. The [order] flag reverses every other
    spoke but never changes which cells a spoke contributes. *)
Theorem each_spoke_once
    (cosd sind : Q -> Q) (dimy dimz order : Z)
    (kSpaceList : list point) (angle : Q) (spokeNr : Z) :
  (forall a : Q, (-1 <= cosd a)%Q /\ (cosd a <= 1)%Q) ->
  (forall a : Q, (-1 <= sind a)%Q /\ (sind a <= 1)%Q) ->
  1 <= dimy -> 1 <= dimz ->
  exists new : list point,
    add_spoke cosd sind dimy dimz order kSpaceList angle spokeNr = kSpaceList ++ new /\
    NoDup new /\ (0, 0) ∈ new /\
    1 <= Z.of_nat (length new) <= 2 * Z.max dimy dimz /\
    (forall pt : point,
        pt ∈ new <->
        pt ∈ spoke_raster cosd sind dimy dimz angle /\ in_support dimy dimz pt) /\
    forall order' : Z,
      exists new' : list point,
        add_spoke cosd sind dimy dimz order' kSpaceList angle spokeNr
          = kSpaceList ++ new' /\
        new' ≡ₚ new.
Proof.
  intros Hc Hs Hy Hz.
  destruct (spoke_adds cosd sind dimy dimz order kSpaceList angle spokeNr Hc Hs Hy Hz)
    as (new & Heq & Hnd & Ho & Hlen & Hin).
  exists new. split; [exact Heq|]. split; [exact Hnd|]. split; [exact Ho|].
  split; [exact Hlen|]. split; [exact Hin|].
  intros order'.
  destruct (spoke_cells cosd sind dimy dimz order' kSpaceList angle spokeNr)
    as (new' & Heq' & Hnd' & _ & Hin').
  exists new'. split; [exact Heq'|].
  apply NoDup_Permutation; [exact Hnd'|exact Hnd|].
  intros pt. now rewrite Hin, Hin'.
Qed.

(** A spoke along (3/5, 4/5) on a grid of 4 by 4, second spoke. *)
Lemma each_spoke_once_witness :
  exists new : list point,
    add_spoke (fun _ => 3 # 5)%Q (fun _ => 4 # 5)%Q 4 4 1 [(1, 1)] 0%Q 2
      = [(1, 1)] ++ new /\
    NoDup new /\ (0, 0) ∈ new /\ 1 <= Z.of_nat (length new) <= 2 * Z.max 4 4.
Proof.
  destruct (each_spoke_once (fun _ => 3 # 5)%Q (fun _ => 4 # 5)%Q 4 4 1 [(1, 1)] 0%Q 2)
    as (new & Heq & Hnd & Ho & Hlen & _);
    try lia; try (intros _; split; discriminate).
  exists new. repeat split; assumption || lia.
Defined.

(** *** How many spokes a run takes *)

Section Spokes.

Variables cosd sind : Q -> Q.
Hypothesis cosd_range : forall a : Q, (-1 <= cosd a)%Q /\ (cosd a <= 1)%Q.
Hypothesis sind_range : forall a : Q, (-1 <= sind a)%Q /\ (sind a <= 1)%Q.

(** The loop invariant: [spokeNr] spokes have given at least one cell
    each and at most [2 * max(dimy, dimz)] each. *)
Lemma spoke_loop_count (dimy dimz order : Z) (step : Q) (fuel : nat) :
  1 <= dimy -> 1 <= dimz ->
  forall (kSpaceList : list point) (angle : Q) (spokeNr : Z)
         (out : list point) (angle' : Q) (spokeNr' : Z),
    spoke_loop cosd sind fuel dimy dimz order step kSpaceList angle spokeNr
      = Some (out, angle', spokeNr') ->
    spokeNr <= Z.of_nat (length kSpaceList) <= spokeNr * (2 * Z.max dimy dimz) ->
    Z.of_nat (length kSpaceList) <= dimy * dimz ->
    spokeNr' <= dimy * dimz <= spokeNr' * (2 * Z.max dimy dimz) /\
    kSpaceList `prefix_of` out.
Proof.
  intros Hy Hz. set (W := 2 * Z.max dimy dimz). assert (HW : 2 <= W) by lia.
  induction fuel as [|fuel IH]; intros kl angle nr out angle' nr'; [discriminate|].
  cbn [spoke_loop]. cbv zeta.
  destruct (Z.ltb_spec (Z.of_nat (length kl)) (dimy * dimz)) as [Hlt|Hge].
  - destruct (spoke_adds cosd sind dimy dimz order kl (angle + step)%Q (nr + 1)
                cosd_range sind_range Hy Hz)
      as (new & Heq & _ & _ & Hlen & _).
    fold W in Hlen. rewrite Heq.
    destruct (Z.ltb_spec (dimy * dimz) (Z.of_nat (length (kl ++ new)))) as [Hover|Hfit].
    + intros [= <- <- <-] Hinv Hle. rewrite length_app in Hover. split; [nia|].
      rewrite take_app_ge by lia. now apply prefix_app_r.
    + intros Hrun Hinv Hle. rewrite length_app in Hfit.
      destruct (IH _ _ _ _ _ _ Hrun) as [Hb Hp].
      * rewrite length_app. nia.
      * rewrite length_app. lia.
      * split; [exact Hb|]. etransitivity; [|exact Hp]. now apply prefix_app_r.
  - intros [= <- <- <-] Hinv Hle. split; [nia|reflexivity].
Qed.

End Spokes.

(** X13. A run of the spoke generator on a grid of at least one cell
    each way takes at least [dimy*dimz / (2 * max(dimy, dimz))] spokes and
    at most [dimy*dimz]: on return the spoke counter [spokeNr] satisfies
    [spokeNr <= dimy*dimz <= spokeNr * 2 * max(dimy, dimz)]. *)
Theorem spokes_needed
    (cosd sind : Q -> Q) (dimy dimz order angleNr : Z) (spare : nat) :
  (forall a : Q, (-1 <= cosd a)%Q /\ (cosd a <= 1)%Q) ->
  (forall a : Q, (-1 <= sind a)%Q /\ (sind a <= 1)%Q) ->
  1 <= dimy -> 1 <= dimz -> 1 <= angleNr <= 10 ->
  exists (out : list point) (angle : Q) (spokeNr : Z),
    spoke_generator cosd sind (S (Z.to_nat (dimy * dimz) + spare))
      dimy dimz order angleNr = Some (out, angle, spokeNr) /\
    1 <= spokeNr <= dimy * dimz /\
    dimy * dimz <= spokeNr * (2 * Z.max dimy dimz).
Proof.
  intros Hc Hs Hy Hz Ha. unfold spoke_generator.
  assert (Hstep : exists step : Q, py_get tinyGoldenAngles (angleNr - 1) = Some step).
  { rewrite py_get_nonneg by lia. apply lookup_lt_is_Some_2. simpl. lia. }
  destruct Hstep as [step ->].
  destruct (spoke_loop_returns cosd sind Hc Hs dimy dimz order step
              (S (Z.to_nat (dimy * dimz) + spare)) Hy Hz [] 0%Q 0)
    as (out & angle & nr & Hrun & Hlen & _); [simpl; nia|simpl; lia|constructor|].
  exists out, angle, nr. split; [exact Hrun|].
  destruct (spoke_loop_count cosd sind Hc Hs dimy dimz order step _ Hy Hz
              _ _ _ _ _ _ Hrun) as [Hb _]; [simpl; lia|simpl; nia|].
  nia.
Qed.

(** A grid of 2 by 2 along (3/5, 4/5): between one and four spokes. *)
Lemma spokes_needed_witness :
  exists (out : list point) (angle : Q) (spokeNr : Z),
    spoke_generator (fun _ => 3 # 5)%Q (fun _ => 4 # 5)%Q 5 2 2 1 1
      = Some (out, angle, spokeNr) /\
    1 <= spokeNr <= 4 /\ 4 <= spokeNr * 4.
Proof.
  apply (spokes_needed (fun _ => 3 # 5)%Q (fun _ => 4 # 5)%Q 2 2 1 1 0%nat);
    try lia; intros _; split; discriminate.
Defined.

(** X14. The table of golden angles is indexed as Python indexes a
    list: the indices 0 down to -9 are not rejected, they select the same
    angle as [angleNr + 10] (so [angleNr = 0] runs with the last angle of
    the table), and the run is then the same. Any other index outside
    1..10 fails in the first pass of the loop, whatever the fuel. *)
Theorem angle_index_wraps
    (cosd sind : Q -> Q) (fuel : nat) (dimy dimz order angleNr : Z) :
  (-9 <= angleNr <= 0 ->
   spoke_generator cosd sind fuel dimy dimz order angleNr
   = spoke_generator cosd sind fuel dimy dimz order (angleNr + 10)) /\
  (1 <= dimy * dimz -> angleNr < -9 \/ 10 < angleNr ->
   spoke_generator cosd sind fuel dimy dimz order angleNr = None).
Proof.
  unfold spoke_generator. split.
  - intros Ha.
    replace (py_get tinyGoldenAngles (angleNr - 1))
      with (py_get tinyGoldenAngles (angleNr + 10 - 1)); [reflexivity|].
    unfold py_get. change (Z.of_nat (length tinyGoldenAngles)) with 10.
    destruct (Z.leb_spec 0 (angleNr + 10 - 1)); [|lia].
    destruct (Z.leb_spec 0 (angleNr - 1)); [lia|].
    destruct (Z.leb_spec 0 (10 + (angleNr - 1))); [|lia].
    f_equal. lia.
  - intros _ Ha.
    replace (py_get tinyGoldenAngles (angleNr - 1)) with (@None Q); [reflexivity|].
    unfold py_get. change (Z.of_nat (length tinyGoldenAngles)) with 10.
    destruct (Z.leb_spec 0 (angleNr - 1)).
    + symmetry. apply lookup_ge_None. simpl. lia.
    + destruct (Z.leb_spec 0 (10 + (angleNr - 1))); [lia|reflexivity].
Qed.

(** Index 0 runs as index 10 does; index 11 fails. *)
Lemma angle_index_wraps_witness :
  spoke_generator (fun _ => 3 # 5)%Q (fun _ => 4 # 5)%Q 5 2 2 1 0
  = spoke_generator (fun _ => 3 # 5)%Q (fun _ => 4 # 5)%Q 5 2 2 1 10 /\
  spoke_generator (fun _ => 3 # 5)%Q (fun _ => 4 # 5)%Q 5 2 2 1 11 = None.
Proof.
  split.
  - apply (proj1 (angle_index_wraps (fun _ => 3 # 5)%Q (fun _ => 4 # 5)%Q 5 2 2 1 0)).
    lia.
  - apply (proj2 (angle_index_wraps (fun _ => 3 # 5)%Q (fun _ => 4 # 5)%Q 5 2 2 1 11));
      lia.
Defined.

(** ** The support test against the coverage grid *)

Lemma elem_of_np_arange (lo hi x : Z) : x ∈ np_arange lo hi <-> lo <= x < hi.
Proof.
  unfold np_arange, py_range, py_range_len.
  destruct (Z.ltb_spec 0 1); [|lia].
  rewrite list_elem_of_fmap. destruct (Z.ltb_spec lo hi).
  - rewrite Z.div_1_r. split.
    + intros (i & -> & Hi). apply elem_of_seq in Hi. lia.
    + intros Hx. exists (Z.to_nat (x - lo)). split; [lia|]. apply elem_of_seq. lia.
  - split; [|lia]. intros (i & _ & Hi). apply elem_of_seq in Hi. simpl in Hi. lia.
Qed.

(** The cells the mask counts: those of the grid that pass the test. *)
Lemma elem_of_mask_cells (grid_end : Z -> Z) (dimy dimz : Z) (pt : point) :
  pt ∈ mask_cells grid_end dimy dimz <->
  ((- dimy) / 2 <= pt.1 < grid_end dimy) /\
  ((- dimz) / 2 <= pt.2 < grid_end dimz) /\
  in_support dimy dimz pt.
Proof.
  unfold mask_cells, in_support. cbv zeta. rewrite list_elem_of_filter, list_elem_of_bind.
  destruct pt as [y z]. simpl. split.
  - intros (Hin & y' & Hz & Hy). apply list_elem_of_bind in Hz as (z' & Hpt & Hz).
    apply list_elem_of_singleton in Hpt as [= -> ->].
    apply elem_of_np_arange in Hy, Hz. tauto.
  - intros (Hy & Hz & Hin). split; [exact Hin|]. exists y. split.
    + apply list_elem_of_bind. exists z. split; [left|now apply elem_of_np_arange].
    + now apply elem_of_np_arange.
Qed.

Lemma np_round_integer (q : Q) (m : Z) : (q == inject_Z m)%Q -> np_round q = m.
Proof.
  intros Hq. unfold np_round.
  assert (Hf : Qfloor q = m).
  { apply Qfloor_unique; [rewrite Hq; apply Qle_refl|].
    rewrite Hq. rewrite <- Zlt_Qlt. lia. }
  rewrite Hf.
  destruct (Qcompare_spec (q - inject_Z m) (1 # 2)) as [He|Hl|Hg];
    [|reflexivity|]; rewrite Hq in *; exfalso; lra.
Qed.

(** The last sample of [np.linspace(-1, 1, n)] is 1. *)
Lemma last_sample (n : Z) :
  2 <= n ->
  exists t : Q, np_linspace (-1) 1 n !! Z.to_nat (n - 1) = Some t /\ (t == 1)%Q.
Proof.
  intros Hn. unfold np_linspace. eexists. split.
  - rewrite list_lookup_fmap, lookup_seq_lt by lia. reflexivity.
  - simpl. rewrite Z2Nat.id by lia.
    assert (HW : ~ (inject_Z (n - 1) == 0)%Q).
    { replace 0%Q with (inject_Z 0) by reflexivity. rewrite inject_Z_injective. lia. }
    field. exact HW.
Qed.

(** X15. For an even [dimy] the cell [(dimy/2, 0)] passes the support
    test, and a spoke along the y axis samples it, but no coverage grid
    holds it: the ranges of the mask stop short of [dimy/2] in the radial
    program and in the spiral program alike. The unique count can so
    include a cell that the cell count of the mask leaves out. *)
Theorem support_edge_outside_mask (dimy dimz : Z) :
  0 < dimy -> dimy mod 2 = 0 -> 1 <= dimz ->
  in_support dimy dimz (dimy / 2, 0) /\
  ((dimy / 2, 0) ∉ mask_cells grid_end_radial dimy dimz) /\
  ((dimy / 2, 0) ∉ mask_cells grid_end_spiral dimy dimz) /\
  forall (cosd sind : Q -> Q) (angle : Q),
    (cosd angle == 1)%Q -> (sind angle == 0)%Q ->
    (dimy / 2, 0) ∈ spoke_raster cosd sind dimy dimz angle.
Proof.
  intros Hpos Hev Hz.
  destruct (even_size dimy Hpos Hev) as (m & Hd & Hm & Hm0).
  assert (Hhalf : dimy / 2 = Z.of_nat m) by lia.
  assert (Hry : (inject_Z dimy / 2 == inject_Z (Z.of_nat m))%Q).
  { rewrite Hd, inject_Z_mult. change (inject_Z 2) with 2%Q. field. }
  split; [|split; [|split]].
  - unfold in_support, inside. apply Qle_bool_iff. simpl. rewrite Hhalf, Hry.
    change (inject_Z (0 ^ 2)) with 0%Q.
    rewrite Z.pow_2_r, inject_Z_mult.
    assert (Hne : ~ (inject_Z (Z.of_nat m) == 0)%Q).
    { replace 0%Q with (inject_Z 0) by reflexivity. rewrite inject_Z_injective. lia. }
    unfold Qdiv at 2. rewrite Qmult_0_l.
    assert (H1 : (inject_Z (Z.of_nat m) * inject_Z (Z.of_nat m)
                  / (inject_Z (Z.of_nat m) * inject_Z (Z.of_nat m)) == 1)%Q)
      by (field; exact Hne).
    rewrite H1. lra.
  - rewrite elem_of_mask_cells. unfold grid_end_radial. simpl. lia.
  - rewrite elem_of_mask_cells. unfold grid_end_spiral. simpl.
    replace (- dimy) with (- Z.of_nat m * 2) by lia. rewrite Z.div_mul by lia. lia.
  - intros cosd sind angle Hc Hs. unfold spoke_raster. cbv zeta.
    set (n := 2 * Z.max dimy dimz).
    destruct (last_sample n ltac:(lia)) as (t & Ht & Ht1).
    apply list_elem_of_lookup. exists (Z.to_nat (n - 1)).
    rewrite lookup_zip_with, !list_lookup_fmap, Ht. simpl. f_equal. f_equal.
    + apply np_round_integer. rewrite Ht1, Hc, Hhalf, Hry. ring.
    + apply np_round_integer. rewrite Hs. change (inject_Z 0) with 0%Q. ring.
Qed.

(** A grid of 4 by 4: the cell (2, 0). *)
Lemma support_edge_outside_mask_witness :
  in_support 4 4 (2, 0) /\
  ((2, 0) ∉ mask_cells grid_end_radial 4 4) /\
  (2, 0) ∈ spoke_raster (fun _ => 1%Q) (fun _ => 0%Q) 4 4 0%Q.
Proof.
  destruct (support_edge_outside_mask 4 4 ltac:(lia) eq_refl ltac:(lia))
    as (Hin & Hr & _ & Hs).
  split; [exact Hin|]. split; [exact Hr|].
  apply (Hs (fun _ => 1%Q) (fun _ => 0%Q) 0%Q); reflexivity.
Defined.

(** ** Average samples per cell *)

(** [avgSamplesPerPoint = numTotal / numUnique]
    ([exLUT_3D_radialTrajectory.py] line 73, [exLUT_3D_spiralTrajectory.py]
    line 94); [None] is [ZeroDivisionError]. *)
Definition avgSamplesPerPoint (kSpaceList : list point) : option Q :=
  if (numUnique kSpaceList =? 0)%nat then None
  else Some (inject_Z (Z.of_nat (numTotal kSpaceList))
             / inject_Z (Z.of_nat (numUnique kSpaceList)))%Q.

Lemma numUnique_NoDup (l : list point) :
  numUnique l = numTotal l <-> NoDup l.
Proof.
  unfold numUnique, numTotal. split; [|apply size_list_to_set].
  induction l as [|x l IH]; [constructor|].
  pose proof (numUnique_le_numTotal l) as Hle. unfold numUnique, numTotal in Hle.
  simpl. rewrite size_union_alt, size_singleton. intros Hsize.
  pose proof (subseteq_size (list_to_set l ∖ {[x]}) (list_to_set l : gset point)
                ltac:(set_solver)) as Hsub.
  assert (Hx : x ∉ l).
  { intros Hin.
    assert (Hlt : (size (list_to_set l ∖ {[x]} : gset point)
                   < size (list_to_set l : gset point))%nat).
    { apply subset_size. set_solver. }
    lia. }
  constructor; [exact Hx|]. apply IH. lia.
Qed.

(** X16. For a sample list that is not empty the average number of
    samples per visited cell is defined and at least 1, and it is 1
    exactly when no cell is sampled twice. *)
Theorem average_at_least_one :
  forall (pt : point) (kSpaceList : list point),
    exists a : Q,
      avgSamplesPerPoint (pt :: kSpaceList) = Some a /\
      (1 <= a)%Q /\
      ((a == 1)%Q <-> NoDup (pt :: kSpaceList)).
Proof.
  intros pt l. set (kl := pt :: l).
  pose proof (numUnique_le_numTotal kl) as Hle.
  assert (Hpos : (0 < numUnique kl)%nat).
  { unfold numUnique, kl. simpl. rewrite size_union_alt, size_singleton. lia. }
  unfold avgSamplesPerPoint.
  destruct (Nat.eqb_spec (numUnique kl) 0) as [|_]; [lia|].
  eexists. split; [reflexivity|].
  assert (HU : (0 < inject_Z (Z.of_nat (numUnique kl)))%Q).
  { replace 0%Q with (inject_Z 0) by reflexivity. rewrite <- Zlt_Qlt. lia. }
  assert (Hne : ~ (inject_Z (Z.of_nat (numUnique kl)) == 0)%Q) by lra.
  split.
  - apply Qle_shift_div_l; [exact HU|]. rewrite Qmult_1_l, <- Zle_Qle. lia.
  - rewrite <- numUnique_NoDup. split.
    + intros Ha.
      assert (He : (inject_Z (Z.of_nat (numTotal kl))
                    == inject_Z (Z.of_nat (numUnique kl)))%Q).
      { rewrite <- (Qmult_div_r (inject_Z (Z.of_nat (numTotal kl))) _ Hne), Ha. ring. }
      rewrite inject_Z_injective in He. unfold kl in *. lia.
    + unfold kl in *. intros He. rewrite <- He. field. exact Hne.
Qed.

(** ** The range of the coordinates *)

Lemma Qdiv_le_1 (a b : Q) : (0 < b)%Q -> (a / b <= 1)%Q -> (a <= b)%Q.
Proof.
  intros Hb H.
  assert (Ha : (a == a / b * b)%Q) by (field; lra).
  apply Qle_trans with (a / b * b)%Q; [rewrite <- Ha; apply Qle_refl|].
  apply Qle_trans with (1 * b)%Q; [|rewrite Qmult_1_l; apply Qle_refl].
  apply Qmult_le_compat_r; [exact H|lra].
Qed.

Lemma Qdiv_nonneg (a b : Q) : (0 <= a)%Q -> (0 < b)%Q -> (0 <= a / b)%Q.
Proof. intros Ha Hb. apply Qle_shift_div_l; [exact Hb|]. lra. Qed.

Lemma half_square (d : Z) :
  (inject_Z d / 2 * (inject_Z d / 2) == inject_Z (d * d) / 4)%Q.
Proof. rewrite inject_Z_mult. field. Qed.

(** What passes the support test lies within half the grid size of the
    origin, each way. *)
Lemma in_support_bounds (dimy dimz : Z) (pt : point) :
  1 <= dimy -> 1 <= dimz -> in_support dimy dimz pt ->
  - dimy <= 2 * pt.1 <= dimy /\ - dimz <= 2 * pt.2 <= dimz.
Proof.
  intros Hy Hz. unfold in_support, inside. rewrite Qle_bool_iff.
  destruct pt as [y z]. simpl. rewrite !half_square. intros H.
  assert (Hdy : (0 < inject_Z (dimy * dimy) / 4)%Q).
  { apply Qlt_shift_div_l; [reflexivity|]. rewrite Qmult_0_l.
    replace 0%Q with (inject_Z 0) by reflexivity. rewrite <- Zlt_Qlt. nia. }
  assert (Hdz : (0 < inject_Z (dimz * dimz) / 4)%Q).
  { apply Qlt_shift_div_l; [reflexivity|]. rewrite Qmult_0_l.
    replace 0%Q with (inject_Z 0) by reflexivity. rewrite <- Zlt_Qlt. nia. }
  assert (Hy2 : (0 <= inject_Z (y ^ 2))%Q).
  { replace 0%Q with (inject_Z 0) by reflexivity. rewrite <- Zle_Qle. nia. }
  assert (Hz2 : (0 <= inject_Z (z ^ 2))%Q).
  { replace 0%Q with (inject_Z 0) by reflexivity. rewrite <- Zle_Qle. nia. }
  pose proof (Qdiv_nonneg _ _ Hy2 Hdy) as Hqy.
  pose proof (Qdiv_nonneg _ _ Hz2 Hdz) as Hqz.
  assert (Hby : (inject_Z (y ^ 2) <= inject_Z (dimy * dimy) / 4)%Q).
  { apply Qdiv_le_1; [exact Hdy|]. lra. }
  assert (Hbz : (inject_Z (z ^ 2) <= inject_Z (dimz * dimz) / 4)%Q).
  { apply Qdiv_le_1; [exact Hdz|]. lra. }
  assert (Hzy : 4 * y ^ 2 <= dimy * dimy).
  { rewrite Zle_Qle, inject_Z_mult. change (inject_Z 4) with 4%Q.
    revert Hby. generalize (inject_Z (y ^ 2)) (inject_Z (dimy * dimy)).
    intros u v Huv. unfold Qdiv in Huv. change (/ 4)%Q with (1 # 4)%Q in Huv. lra. }
  assert (Hzz : 4 * z ^ 2 <= dimz * dimz).
  { rewrite Zle_Qle, inject_Z_mult. change (inject_Z 4) with 4%Q.
    revert Hbz. generalize (inject_Z (z ^ 2)) (inject_Z (dimz * dimz)).
    intros u v Huv. unfold Qdiv in Huv. change (/ 4)%Q with (1 # 4)%Q in Huv. lra. }
  split; nia.
Qed.

(** X17. Every coordinate the spoke generator returns lies within half
    the grid size of the origin: [-dimy/2 <= y <= dimy/2] and
    [-dimz/2 <= z <= dimz/2], both ends included. *)
Theorem spoke_coordinates_bounded
    (cosd sind : Q -> Q) (dimy dimz order angleNr : Z) (spare : nat) :
  (forall a : Q, (-1 <= cosd a)%Q /\ (cosd a <= 1)%Q) ->
  (forall a : Q, (-1 <= sind a)%Q /\ (sind a <= 1)%Q) ->
  1 <= dimy -> 1 <= dimz -> 1 <= angleNr <= 10 ->
  exists (out : list point) (angle : Q) (spokeNr : Z),
    spoke_generator cosd sind (S (Z.to_nat (dimy * dimz) + spare))
      dimy dimz order angleNr = Some (out, angle, spokeNr) /\
    Forall (fun pt => (- dimy <= 2 * pt.1 <= dimy) /\ (- dimz <= 2 * pt.2 <= dimz)) out.
Proof.
  intros Hc Hs Hy Hz Ha. unfold spoke_generator.
  assert (Hstep : exists step : Q, py_get tinyGoldenAngles (angleNr - 1) = Some step).
  { rewrite py_get_nonneg by lia. apply lookup_lt_is_Some_2. simpl. lia. }
  destruct Hstep as [step ->].
  destruct (spoke_loop_returns cosd sind Hc Hs dimy dimz order step
              (S (Z.to_nat (dimy * dimz) + spare)) Hy Hz [] 0%Q 0)
    as (out & angle & nr & Hrun & _ & Hall); [simpl; nia|simpl; lia|constructor|].
  exists out, angle, nr. split; [exact Hrun|].
  eapply Forall_impl; [exact Hall|]. intros pt Hpt. now apply in_support_bounds.
Qed.

(** A grid of 2 by 2 along (3/5, 4/5). *)
Lemma spoke_coordinates_bounded_witness :
  exists (out : list point) (angle : Q) (spokeNr : Z),
    spoke_generator (fun _ => 3 # 5)%Q (fun _ => 4 # 5)%Q 5 2 2 1 1
      = Some (out, angle, spokeNr) /\
    Forall (fun pt => (- 2 <= 2 * pt.1 <= 2) /\ (- 2 <= 2 * pt.2 <= 2)) out.
Proof.
  apply (spoke_coordinates_bounded (fun _ => 3 # 5)%Q (fun _ => 4 # 5)%Q 2 2 1 1 0%nat);
    try lia; intros _; split; discriminate.
Defined.

(** ** The spiral program's compaction and pruning *)

(** No row equals the row before it. *)
Fixpoint no_repeats (l : list point) : Prop :=
  match l with
  | [] => True
  | p :: t => match t with [] => True | q :: _ => p <> q end /\ no_repeats t
  end.

Lemma keep_changed_same (a : point) (l : list point) :
  keep_changed a (a :: l) = keep_changed a l.
Proof.
  cbn [keep_changed]. rewrite bool_decide_eq_false_2; [reflexivity|]. now intros H.
Qed.

Lemma keep_changed_no_repeats (l : list point) :
  forall a : point, no_repeats (a :: keep_changed a l).
Proof.
  induction l as [|p t IH]; intros a; [simpl; tauto|].
  cbn [keep_changed]. destruct (bool_decide_reflect (p <> a)) as [Hne|Heq].
  - split; [congruence|apply IH].
  - assert (p = a) as -> by (destruct (decide (p = a)); [assumption|contradiction]).
    apply IH.
Qed.

Lemma keep_changed_fixed (l : list point) :
  forall a : point, no_repeats (a :: l) -> keep_changed a l = l.
Proof.
  induction l as [|p t IH]; intros a [Hne Hrest]; [reflexivity|].
  cbn [keep_changed]. rewrite bool_decide_eq_true_2 by congruence.
  f_equal. now apply IH.
Qed.

Lemma keep_changed_sublist (l : list point) :
  forall a : point, keep_changed a l `sublist_of` l.
Proof.
  induction l as [|p t IH]; intros a; [constructor|].
  cbn [keep_changed]. destruct (bool_decide (p <> a)).
  - apply sublist_skip, IH.
  - apply sublist_cons, IH.
Qed.

Lemma keep_changed_cells (l : list point) :
  forall (a x : point), x ∈ a :: l -> x ∈ a :: keep_changed a l.
Proof.
  induction l as [|p t IH]; intros a x Hx; [exact Hx|].
  cbn [keep_changed]. destruct (bool_decide_reflect (p <> a)) as [Hne|Heq].
  - apply elem_of_cons in Hx as [->|Hx]; [left|]. right. now apply IH.
  - assert (p = a) as -> by (destruct (decide (p = a)); [assumption|contradiction]).
    apply IH. apply elem_of_cons in Hx as [->|Hx]; [left|exact Hx].
Qed.

Lemma remove_repeats_pass_twice (l : list point) :
  remove_repeats_pass (remove_repeats_pass l) = remove_repeats_pass l.
Proof.
  destruct l as [|a l]; [reflexivity|].
  rewrite !remove_repeats_pass_cons. f_equal.
  apply keep_changed_fixed, keep_changed_no_repeats.
Qed.

Lemma iter_pass (n : nat) (l : list point) :
  Nat.iter (S n) remove_repeats_pass l = remove_repeats_pass l.
Proof.
  induction n as [|n IH]; [reflexivity|].
  rewrite Nat.iter_succ, IH. apply remove_repeats_pass_twice.
Qed.

(** X18. The first of the hundred compaction passes already does all
    the work: after it no row equals the row before it, and the other
    ninety-nine passes change nothing. The compacted list starts with the
    first row, keeps the order of the rows it keeps, and visits exactly
    the cells the list visited before. *)
Theorem compaction_is_one_pass :
  forall (a : point) (l : list point),
    remove_repeats (a :: l) = remove_repeats_pass (a :: l) /\
    no_repeats (remove_repeats (a :: l)) /\
    head (remove_repeats (a :: l)) = Some a /\
    remove_repeats (a :: l) `sublist_of` a :: l /\
    (forall x : point, x ∈ remove_repeats (a :: l) <-> x ∈ a :: l) /\
    numUnique (remove_repeats (a :: l)) = numUnique (a :: l).
Proof.
  intros a l.
  assert (Heq : remove_repeats (a :: l) = a :: keep_changed a l).
  { unfold remove_repeats. rewrite (iter_pass 99). apply remove_repeats_pass_cons. }
  assert (Hcells : forall x : point, x ∈ remove_repeats (a :: l) <-> x ∈ a :: l).
  { intros x. rewrite Heq. split; [|apply keep_changed_cells].
    intros Hx. apply elem_of_cons in Hx as [->|Hx]; [left|right].
    eapply elem_of_sublist; [exact Hx|apply keep_changed_sublist]. }
  split; [rewrite Heq; symmetry; apply remove_repeats_pass_cons|].
  split; [rewrite Heq; apply keep_changed_no_repeats|].
  split; [now rewrite Heq|].
  split; [rewrite Heq; apply sublist_skip, keep_changed_sublist|].
  split; [exact Hcells|].
  unfold numUnique. f_equal. apply set_eq. intros x.
  rewrite !elem_of_list_to_set. apply Hcells.
Qed.

(** *** A single visit of the origin *)

Lemma drop_alternate_elem (l : list point) :
  forall (b : bool) (p : point),
    p <> origin -> (p ∈ drop_alternate b l <-> p ∈ l).
Proof.
  induction l as [|q t IH]; intros b p Hp; [reflexivity|].
  cbn [drop_alternate]. destruct (is_origin q) eqn:Hq.
  - apply is_origin_true in Hq. subst q. destruct b.
    + rewrite IH by exact Hp. rewrite elem_of_cons. tauto.
    + rewrite !elem_of_cons, IH by exact Hp. reflexivity.
  - rewrite !elem_of_cons, IH by exact Hp. reflexivity.
Qed.

Lemma origin_visits_elem (l : list point) :
  origin ∈ l <-> (1 <= origin_visits l)%nat.
Proof.
  unfold origin_visits. induction l as [|q t IH]; simpl.
  - split; [intros H; inversion H|lia].
  - rewrite elem_of_cons. destruct (is_origin q) eqn:Hq.
    + rewrite filter_cons_True by exact Hq. simpl.
      apply is_origin_true in Hq. split; [lia|]. intros _. left. now symmetry.
    + rewrite filter_cons_False by (rewrite Hq; discriminate).
      rewrite <- IH. split; [|tauto].
      intros [Heq|H]; [|exact H].
      symmetry in Heq. apply is_origin_true in Heq. congruence.
Qed.

(** X19. Pruning never drops a cell other than the origin, and it keeps
    the origin exactly when the list visits it at least twice: a list that
    visits the origin once comes out without the centre of k-space, and
    its unique count is one less. *)
Theorem single_origin_visit_is_lost :
  forall l : list point,
    (forall p : point, p <> origin -> (p ∈ prune_origin l <-> p ∈ l)) /\
    (origin ∈ prune_origin l <-> (2 <= origin_visits l)%nat) /\
    numUnique (prune_origin l)
    = (numUnique l - (if (origin_visits l =? 1)%nat then 1 else 0))%nat.
Proof.
  intros l. rewrite prune_origin_alternate.
  assert (Hothers : forall p : point,
             p <> origin -> (p ∈ drop_alternate true l <-> p ∈ l)).
  { intros p Hp. now apply drop_alternate_elem. }
  assert (Horigin : origin ∈ drop_alternate true l <-> (2 <= origin_visits l)%nat).
  { rewrite origin_visits_elem, (proj1 (drop_alternate_visits l)). split.
    - intros H. destruct (origin_visits l) as [|[|n]]; simpl in H; lia.
    - intros H. apply Nat.div_le_lower_bound; lia. }
  split; [exact Hothers|]. split; [exact Horigin|].
  unfold numUnique. destruct (Nat.eqb_spec (origin_visits l) 1) as [H1|H1].
  - assert (Hin : origin ∈ l) by (apply origin_visits_elem; lia).
    assert (Hset : (list_to_set (drop_alternate true l) : gset point)
                   = list_to_set l ∖ {[origin]}).
    { apply set_eq. intros x. rewrite elem_of_difference, !elem_of_list_to_set.
      rewrite elem_of_singleton. destruct (decide (x = origin)) as [->|Hx].
      - rewrite Horigin. split; [lia|tauto].
      - rewrite Hothers by exact Hx. tauto. }
    rewrite Hset, size_difference by (apply singleton_subseteq_l, elem_of_list_to_set, Hin).
    now rewrite size_singleton.
  - rewrite Nat.sub_0_r. f_equal. apply set_eq. intros x.
    rewrite !elem_of_list_to_set. destruct (decide (x = origin)) as [->|Hx].
    + rewrite Horigin, origin_visits_elem.
      split; [lia|]. intros H. lia.
    + now apply Hothers.
Qed.
